(** * GalSim: additive composite profiles (SBAdd) and Spergel profiles (SBSpergel)

    A shallow embedding of [src/SBAdd.cpp], of the Spergel implementation
    file, of [include/galsim/SBSpergelImpl.h] and of the inline accessors
    of [include/galsim/SBDeltaFunctionImpl.h], with the properties of
    the specification stated over it, and further properties of the code
    after them.

    Conventions of the embedding.
    - A C++ [double] is a real number: rounding is idealised away, and the
      one place where the code stores [INFINITY] in a [double]
      ([SpergelInfo::_xnorm0]) has the type [double_inf]; a product with
      it has the type [double_ext].  Where a property would depend on
      the rounding, it is stated by the expression the code evaluates,
      operation for operation, and the module [Binary64] has the
      computation on binary64 numbers.
    - A C++ [int] is an integer of [Z]; photon counts never come near the
      limits of a 32-bit [int].
    - A call that may throw, or whose behaviour C++ leaves undefined,
      returns an [outcome].
    - [mutable] members and the shared random generator are threaded
      explicitly as state.
    - Classes and functions of GalSim that are used by, but not part of,
      the embedded files (the profiles other than [SBAdd], [PhotonArray],
      [BinomialDeviate], [Solve], the cache, the Bessel and Gamma
      functions) are fields of the type classes below, or are modelled
      from the specification where this is said.

    The model comes first, then the vocabulary of the specification and
    sample data, then the properties. *)

From Stdlib Require Import Reals Lra Lia ZArith List Bool String.
From Stdlib Require Floats.
Import ListNotations.

Local Open Scope R_scope.

(** ** Common types *)

(** [double]: the real numbers. *)
Abbreviation double := R (only parsing).

(** A [double] that may hold the C macro [INFINITY]. *)
Inductive double_inf : Type :=
| Finite (v : double)
| INFINITY.

Definition isfinite (d : double_inf) : bool :=
  match d with
  | Finite _ => true
  | INFINITY => false
  end.

(** The comparisons of C++ on [double], as booleans. *)
Definition d_le (a b : double) : bool := if Rle_dec a b then true else false.
Definition d_lt (a b : double) : bool := if Rlt_dec a b then true else false.
Definition d_gt (a b : double) : bool := if Rgt_dec a b then true else false.
Definition d_eq (a b : double) : bool := if Req_dec_T a b then true else false.

(** [Position<double>]. *)
Record Position : Type := mkPosition { pos_x : double; pos_y : double }.

(** The fields of [GSParams] read by the embedded code. *)
Record GSParams : Type := mkGSParams {
  folding_threshold : double;
  stepk_minimum_hlr : double;
  maxk_threshold : double;
  shoot_accuracy : double
}.

(** [GSParamsPtr] is a shared pointer that may be null. *)
Definition GSParamsPtr : Type := option GSParams.

(** Exceptions thrown by the embedded code. *)
Inductive exception : Type :=
| SBError (what : string).

(** Result of a call: a value, a thrown exception, or undefined behaviour. *)
Inductive outcome (A : Type) : Type :=
| Ok (a : A)
| Throw (e : exception)
| Undefined.

Arguments Ok {A} a.
Arguments Throw {A} e.
Arguments Undefined {A}.

Definition bind {A B : Type} (m : outcome A) (k : A -> outcome B) : outcome B :=
  match m with
  | Ok a => k a
  | Throw e => Throw e
  | Undefined => Undefined
  end.

Declare Scope outcome_scope.
Delimit Scope outcome_scope with outcome.
Notation "x <- m ;; k" := (bind m (fun x => k))
  (at level 61, m at next level, right associativity) : outcome_scope.

Definition throws {A : Type} (m : outcome A) : Prop :=
  exists e, m = Throw e.

(** ** Profiles *)

(** The private implementation of an additive composite, [SBAdd::SBAddImpl],
    over the type [P] of the profiles it holds. *)
Record SBAddImpl_ (P : Type) : Type := mkSBAddImpl {
  gsparams : GSParamsPtr;
  _plist : list P;
  _sumflux : double;
  _sumfx : double;
  _sumfy : double;
  _maxMaxK : double;
  _minStepK : double;
  _allAxisymmetric : bool;
  _allAnalyticX : bool;
  _allAnalyticK : bool;
  _anyHardEdges : bool
}.

Arguments mkSBAddImpl {P}.
Arguments gsparams {P}.
Arguments _plist {P}.
Arguments _sumflux {P}.
Arguments _sumfx {P}.
Arguments _sumfy {P}.
Arguments _maxMaxK {P}.
Arguments _minStepK {P}.
Arguments _allAxisymmetric {P}.
Arguments _allAnalyticX {P}.
Arguments _allAnalyticK {P}.
Arguments _anyHardEdges {P}.

(** An implementation class other than [SBAddImpl] (the [dynamic_cast] of
    [SBAddImpl::add] fails on it), given by what its virtual accessors return. *)
Record OtherImpl : Type := mkOtherImpl {
  o_gsparams : GSParamsPtr;
  o_getFlux : double;
  o_centroid : Position;
  o_maxK : double;
  o_stepK : double;
  o_isAxisymmetric : bool;
  o_hasHardEdges : bool;
  o_isAnalyticX : bool;
  o_isAnalyticK : bool;
  o_getPositiveFlux : double;
  o_getNegativeFlux : double
}.

(** [SBProfile]: a handle on an implementation, which is an [SBAddImpl] or
    some other class. *)
#[warnings="-register-all"]
Inductive SBProfile : Type :=
| Other (impl : OtherImpl)
| Add (impl : SBAddImpl_ SBProfile).

Definition SBAddImpl : Type := SBAddImpl_ SBProfile.

(** [dynamic_cast<const SBAddImpl*>(GetImpl(rhs))]. *)
Definition as_SBAddImpl (rhs : SBProfile) : option SBAddImpl :=
  match rhs with
  | Add sba => Some sba
  | Other _ => None
  end.

Definition is_SBAdd (p : SBProfile) : bool :=
  match as_SBAddImpl p with
  | Some _ => true
  | None => false
  end.

(** [GetImpl(p)->gsparams]. *)
Definition SBProfile_gsparams (p : SBProfile) : GSParamsPtr :=
  match p with
  | Other o => o_gsparams o
  | Add sba => gsparams sba
  end.

(** *** Accessors of [SBAddImpl]

    Modelled from the spec: the header SBAddImpl.h, which defines the
    accessors of [SBAddImpl] inline, is not among the sources.  They hand
    out the reduced members; the centroid is the pair of flux-weighted
    sums divided by the total flux. *)
Definition SBAddImpl_getFlux (sba : SBAddImpl) : double := _sumflux sba.

Definition SBAddImpl_centroid (sba : SBAddImpl) : Position :=
  mkPosition (_sumfx sba / _sumflux sba) (_sumfy sba / _sumflux sba).

Definition SBAddImpl_maxK (sba : SBAddImpl) : double := _maxMaxK sba.
Definition SBAddImpl_stepK (sba : SBAddImpl) : double := _minStepK sba.
Definition SBAddImpl_isAxisymmetric (sba : SBAddImpl) : bool := _allAxisymmetric sba.
Definition SBAddImpl_hasHardEdges (sba : SBAddImpl) : bool := _anyHardEdges sba.
Definition SBAddImpl_isAnalyticX (sba : SBAddImpl) : bool := _allAnalyticX sba.
Definition SBAddImpl_isAnalyticK (sba : SBAddImpl) : bool := _allAnalyticK sba.
Definition getObjs (sba : SBAddImpl) : list SBProfile := _plist sba.

(** *** Virtual accessors of [SBProfile] *)

Definition getFlux (p : SBProfile) : double :=
  match p with
  | Other o => o_getFlux o
  | Add sba => SBAddImpl_getFlux sba
  end.

Definition centroid (p : SBProfile) : Position :=
  match p with
  | Other o => o_centroid o
  | Add sba => SBAddImpl_centroid sba
  end.

Definition maxK (p : SBProfile) : double :=
  match p with
  | Other o => o_maxK o
  | Add sba => SBAddImpl_maxK sba
  end.

Definition stepK (p : SBProfile) : double :=
  match p with
  | Other o => o_stepK o
  | Add sba => SBAddImpl_stepK sba
  end.

Definition isAxisymmetric (p : SBProfile) : bool :=
  match p with
  | Other o => o_isAxisymmetric o
  | Add sba => SBAddImpl_isAxisymmetric sba
  end.

Definition hasHardEdges (p : SBProfile) : bool :=
  match p with
  | Other o => o_hasHardEdges o
  | Add sba => SBAddImpl_hasHardEdges sba
  end.

Definition isAnalyticX (p : SBProfile) : bool :=
  match p with
  | Other o => o_isAnalyticX o
  | Add sba => SBAddImpl_isAnalyticX sba
  end.

Definition isAnalyticK (p : SBProfile) : bool :=
  match p with
  | Other o => o_isAnalyticK o
  | Add sba => SBAddImpl_isAnalyticK sba
  end.

(** [SBAddImpl::getPositiveFlux] and [SBAddImpl::getNegativeFlux]: a loop
    over [_plist] that adds up what the members return. *)
Fixpoint getPositiveFlux (p : SBProfile) : double :=
  match p with
  | Other o => o_getPositiveFlux o
  | Add sba =>
      fold_left (fun result pptr => result + getPositiveFlux pptr) (_plist sba) 0
  end.

Fixpoint getNegativeFlux (p : SBProfile) : double :=
  match p with
  | Other o => o_getNegativeFlux o
  | Add sba =>
      fold_left (fun result pptr => result + getNegativeFlux pptr) (_plist sba) 0
  end.

Definition SBAddImpl_getPositiveFlux (sba : SBAddImpl) : double :=
  getPositiveFlux (Add sba).

Definition SBAddImpl_getNegativeFlux (sba : SBAddImpl) : double :=
  getNegativeFlux (Add sba).

(** ** Photon arrays and random deviates *)

(** One photon: a position and a flux weight. *)
Record photon : Type := mkPhoton { ph_x : double; ph_y : double; ph_flux : double }.

(** Modelled from the spec: PhotonArray.h is not among the sources.  A
    photon sample set is an ordered sequence of (x, y, flux-weight)
    triples with a flag telling whether the weights are correlated; a
    new array is uncorrelated, and appending photons or rescaling weights
    leaves the flag of the receiving array as it is. *)
Record PhotonArray : Type := mkPhotonArray {
  photons : list photon;
  _is_correlated : bool
}.

Definition PhotonArray_new (n : Z) : PhotonArray :=
  {| photons := repeat (mkPhoton 0 0 0) (Z.to_nat n); _is_correlated := false |}.

Definition scaleFlux (pa : PhotonArray) (scale : double) : PhotonArray :=
  {| photons := map (fun p => mkPhoton (ph_x p) (ph_y p) (ph_flux p * scale)) (photons pa);
     _is_correlated := _is_correlated pa |}.


Definition append (pa rhs : PhotonArray) : PhotonArray :=
  {| photons := photons pa ++ photons rhs; _is_correlated := _is_correlated pa |}.

Definition setCorrelated (pa : PhotonArray) : PhotonArray :=
  {| photons := photons pa; _is_correlated := true |}.

Definition isCorrelated (pa : PhotonArray) : bool := _is_correlated pa.

Definition getTotalFlux (pa : PhotonArray) : double :=
  fold_right (fun p acc => ph_flux p + acc) 0 (photons pa).

(** The random generator behind [UniformDeviate], which every copy of a
    deviate shares, and the draw of a [BinomialDeviate] built on it with
    [N] trials and success probability [p]. *)
Class Deviates : Type := {
  rng : Type;
  BinomialDeviate : rng -> Z -> double -> Z * rng
}.

(** The virtual [SBProfile::shoot] of the profiles held by a composite. *)
Class MemberShoot `{Deviates} : Type := {
  SBProfile_shoot : SBProfile -> Z -> rng -> PhotonArray * rng
}.

(** ** The additive composite: [SBAdd.cpp] *)

Module SBAdd.

(** [SBAddImpl::add], on the member [_plist], the only one it touches. *)
Definition add (plist : list SBProfile) (rhs : SBProfile) : list SBProfile :=
  match as_SBAddImpl rhs with
  | Some sba =>
      (* If rhs is an SBAdd, copy its full list here *)
      plist ++ _plist sba
  | None => plist ++ [rhs]
  end.

(** One turn of the loop of [SBAddImpl::initialize]. *)
Definition accumulate (acc : SBAddImpl) (it : SBProfile) : SBAddImpl :=
  {| gsparams := gsparams acc;
     _plist := _plist acc;
     _sumflux := _sumflux acc + getFlux it;
     _sumfx := _sumfx acc + getFlux it * pos_x (centroid it);
     _sumfy := _sumfy acc + getFlux it * pos_y (centroid it);
     _maxMaxK := if d_gt (maxK it) (_maxMaxK acc) then maxK it else _maxMaxK acc;
     _minStepK :=
       if d_le (_minStepK acc) 0 || d_lt (stepK it) (_minStepK acc)
       then stepK it else _minStepK acc;
     _allAxisymmetric := _allAxisymmetric acc && isAxisymmetric it;
     _allAnalyticX := _allAnalyticX acc && isAnalyticX it;
     _allAnalyticK := _allAnalyticK acc && isAnalyticK it;
     _anyHardEdges := _anyHardEdges acc || hasHardEdges it |}.

(** [SBAddImpl::initialize], from the parameters and the member list: the
    reduced members are reset, then accumulated over [_plist]. *)
Definition initialize (gs : GSParamsPtr) (plist : list SBProfile) : SBAddImpl :=
  fold_left accumulate plist
    {| gsparams := gs;
       _plist := plist;
       _sumflux := 0; _sumfx := 0; _sumfy := 0;
       _maxMaxK := 0; _minStepK := 0;
       _allAxisymmetric := true; _allAnalyticX := true; _allAnalyticK := true;
       _anyHardEdges := false |}.

(** [std::list::front]: undefined on an empty list. *)
Definition front {A : Type} (l : list A) : outcome A :=
  match l with
  | [] => Undefined
  | a :: _ => Ok a
  end.

(** The constructor [SBAddImpl::SBAddImpl(slist, gsparams)]. *)
Definition SBAddImpl_new (slist : list SBProfile) (gs : GSParamsPtr)
  : outcome SBAddImpl :=
  (gs' <- match gs with
          | Some g => Ok (Some g)
          | None => (p <- front slist ;; Ok (SBProfile_gsparams p))
          end ;;
   Ok (initialize gs' (fold_left add slist [])))%outcome.

(** [SBAdd::SBAdd(slist, gsparams)]. *)
Definition SBAdd_new (slist : list SBProfile) (gs : GSParamsPtr)
  : outcome SBProfile :=
  (impl <- SBAddImpl_new slist gs ;; Ok (Add impl))%outcome.

(** *** Photon shooting *)

Section Shoot.
Context `{MemberShoot}.

(** The variables of [SBAddImpl::shoot] that its loop updates. *)
Record shoot_state : Type := mkShootState {
  result : PhotonArray;
  remainingAbsoluteFlux : double;
  remainingN : Z;
  gen : rng
}.

(** The loop of [SBAddImpl::shoot], from the iterator [pptr] on. *)
Fixpoint shoot_loop (fluxPerPhoton : double) (pptr : list SBProfile)
  (st : shoot_state) : shoot_state :=
  match pptr with
  | [] => st
  | p :: nextPtr =>
      let thisAbsoluteFlux := getPositiveFlux p + getNegativeFlux p in
      (* All of what's left, if this is the last summand... *)
      let '(thisN, u1) :=
        match nextPtr with
        | [] => (remainingN st, gen st)
        | _ :: _ =>
            BinomialDeviate (gen st) (remainingN st)
              (thisAbsoluteFlux / remainingAbsoluteFlux st)
        end in
      let '(result', u2) :=
        if (thisN >? 0)%Z then
          let '(thisPA, u2) := SBProfile_shoot p thisN u1 in
          (append (result st)
             (scaleFlux thisPA (fluxPerPhoton * IZR thisN / thisAbsoluteFlux)), u2)
        else (result st, u1) in
      let st' :=
        {| result := result';
           remainingAbsoluteFlux := remainingAbsoluteFlux st - thisAbsoluteFlux;
           remainingN := (remainingN st - thisN)%Z;
           gen := u2 |} in
      if (remainingN st' <=? 0)%Z then st'
      else if d_le (remainingAbsoluteFlux st') 0 then st'
      else shoot_loop fluxPerPhoton nextPtr st'
  end.

(** [SBAddImpl::shoot(N, u)]. *)
Definition shoot (sba : SBAddImpl) (N : Z) (u : rng) : PhotonArray * rng :=
  let totalAbsoluteFlux :=
    SBAddImpl_getPositiveFlux sba + SBAddImpl_getNegativeFlux sba in
  let fluxPerPhoton := totalAbsoluteFlux / IZR N in
  let st := shoot_loop fluxPerPhoton (_plist sba)
              {| result := PhotonArray_new 0;
                 remainingAbsoluteFlux := totalAbsoluteFlux;
                 remainingN := N;
                 gen := u |} in
  (* This process produces correlated photons, so mark the resulting array as such. *)
  let result := if (1 <? List.length (_plist sba))%nat
                then setCorrelated (result st) else result st in
  (result, gen st).

End Shoot.

End SBAdd.

(** ** The Spergel profile: [SBSpergel.cpp] and [SBSpergelImpl.h] *)

(** The functions of the C++ and GalSim mathematics libraries that the
    Spergel code calls: [std::tgamma], [std::pow] and
    [math::cyl_bessel_k(nu, x)]. *)
Class MathLib : Type := {
  tgamma : double -> double;
  pow : double -> double -> double;
  cyl_bessel_k : double -> double -> double
}.

(** The constants of the namespace [sbp] that bound the Spergel index. *)
Class SpergelBounds : Type := {
  minimum_spergel_nu : double;
  maximum_spergel_nu : double
}.

(** [M_PI]. *)
Definition M_PI : double := PI.

(** [std::max(a, b)]. *)
Definition std_max (a b : double) : double := if d_lt a b then b else a.

Module Solver.

Inductive Method : Type := Bisect | Brent.

(** Modelled from the spec: Solve.h is not among the sources.  A solver
    holds the scalar function, the bracket [lBound, uBound], the
    convergence tolerance on the root and the method; a new solver uses
    bisection and a default tolerance. *)
Record Solve : Type := mkSolve {
  func : double -> double;
  lBound : double;
  uBound : double;
  xTolerance : double;
  m : Method
}.

(** What the solver does to find a bracket and a root: extending the
    bracket changes the bounds only, and each step fails when no bracket
    or no root is found. *)
Class RootFinder : Type := {
  defaultTolerance : double;
  extend_lower_with_limit :
    (double -> double) -> double -> double -> double -> outcome (double * double);
  extend_upper :
    (double -> double) -> double -> double -> outcome (double * double);
  find_root :
    (double -> double) -> double -> double -> double -> Method -> outcome double
}.

Section Solve.
Context `{RootFinder}.

Definition Solve_new (f : double -> double) (lb ub : double) : Solve :=
  {| func := f; lBound := lb; uBound := ub;
     xTolerance := defaultTolerance; m := Bisect |}.

Definition setXTolerance (s : Solve) (tol : double) : Solve :=
  {| func := func s; lBound := lBound s; uBound := uBound s;
     xTolerance := tol; m := m s |}.

Definition setMethod (s : Solve) (m_ : Method) : Solve :=
  {| func := func s; lBound := lBound s; uBound := uBound s;
     xTolerance := xTolerance s; m := m_ |}.

Definition setBounds (s : Solve) (b : double * double) : Solve :=
  {| func := func s; lBound := fst b; uBound := snd b;
     xTolerance := xTolerance s; m := m s |}.

Definition bracketLowerWithLimit (s : Solve) (lower_limit : double)
  : outcome Solve :=
  (b <- extend_lower_with_limit (func s) (lBound s) (uBound s) lower_limit ;;
   Ok (setBounds s b))%outcome.

Definition bracketUpper (s : Solve) : outcome Solve :=
  (b <- extend_upper (func s) (lBound s) (uBound s) ;;
   Ok (setBounds s b))%outcome.

Definition root (s : Solve) : outcome double :=
  find_root (func s) (lBound s) (uBound s) (xTolerance s) (m s).

End Solve.

End Solver.

Module SBSpergel.

Import Solver.

(** The radial functions handed to the photon sampler. *)
Inductive FluxDensity : Type :=
| SpergelNuPositiveRadialFunction (_nu : double) (_xnorm0 : double_inf)
| SpergelNuNegativeRadialFunction (_nu _rmin _a _b : double).

(** [OneDimensionalDeviate(fluxDensity, range, isRadial, gsparams)], by
    the arguments it was built with. *)
Record OneDimensionalDeviate : Type := mkOneDimensionalDeviate {
  odd_fluxDensity : FluxDensity;
  odd_range : list double;
  odd_isRadial : bool;
  odd_gsparams : GSParams
}.

(** [OneDimensionalDeviate::shoot]. *)
Class SamplerShoot `{Deviates} : Type := {
  OneDimensionalDeviate_shoot :
    OneDimensionalDeviate -> Z -> rng -> PhotonArray * rng
}.

(** [class SpergelInfo]; the last five members are [mutable]. *)
Record SpergelInfo : Type := mkSpergelInfo {
  _nu : double;
  _gsparams : GSParams;
  _gamma_nup1 : double;
  _gamma_nup2 : double;
  _xnorm0 : double_inf;
  _maxk : double;
  _stepk : double;
  _re : double;
  _radial : option FluxDensity;
  _sampler : option OneDimensionalDeviate
}.

Definition set_maxk (info : SpergelInfo) (v : double) : SpergelInfo :=
  {| _nu := _nu info; _gsparams := _gsparams info;
     _gamma_nup1 := _gamma_nup1 info; _gamma_nup2 := _gamma_nup2 info;
     _xnorm0 := _xnorm0 info;
     _maxk := v; _stepk := _stepk info; _re := _re info;
     _radial := _radial info; _sampler := _sampler info |}.

Definition set_stepk (info : SpergelInfo) (v : double) : SpergelInfo :=
  {| _nu := _nu info; _gsparams := _gsparams info;
     _gamma_nup1 := _gamma_nup1 info; _gamma_nup2 := _gamma_nup2 info;
     _xnorm0 := _xnorm0 info;
     _maxk := _maxk info; _stepk := v; _re := _re info;
     _radial := _radial info; _sampler := _sampler info |}.

Definition set_re (info : SpergelInfo) (v : double) : SpergelInfo :=
  {| _nu := _nu info; _gsparams := _gsparams info;
     _gamma_nup1 := _gamma_nup1 info; _gamma_nup2 := _gamma_nup2 info;
     _xnorm0 := _xnorm0 info;
     _maxk := _maxk info; _stepk := _stepk info; _re := v;
     _radial := _radial info; _sampler := _sampler info |}.

Definition set_sampler (info : SpergelInfo) (radial : FluxDensity)
  (sampler : OneDimensionalDeviate) : SpergelInfo :=
  {| _nu := _nu info; _gsparams := _gsparams info;
     _gamma_nup1 := _gamma_nup1 info; _gamma_nup2 := _gamma_nup2 info;
     _xnorm0 := _xnorm0 info;
     _maxk := _maxk info; _stepk := _stepk info; _re := _re info;
     _radial := Some radial; _sampler := Some sampler |}.

(** [class SpergelIntegratedFlux]. *)
Record SpergelIntegratedFlux : Type := mkSpergelIntegratedFlux {
  sif_nu : double;
  sif_gamma_nup2 : double;
  sif_target : double
}.

Section Info.
Context `{MathLib} `{SpergelBounds} `{RootFinder}.

(** [SpergelInfo::SpergelInfo(nu, gsparams)]. *)
Definition SpergelInfo_new (nu : double) (gsparams : GSParams)
  : outcome SpergelInfo :=
  let gamma_nup1 := tgamma (nu + 1) in
  let gamma_nup2 := gamma_nup1 * (nu + 1) in
  let xnorm0 :=
    if d_gt nu 0 then Finite (gamma_nup1 / (2 * nu) * pow 2 nu) else INFINITY in
  if d_lt nu minimum_spergel_nu || d_gt nu maximum_spergel_nu
  then Throw (SBError "Requested Spergel index out of range")
  else Ok {| _nu := nu; _gsparams := gsparams;
             _gamma_nup1 := gamma_nup1; _gamma_nup2 := gamma_nup2;
             _xnorm0 := xnorm0;
             _maxk := 0; _stepk := 0; _re := 0;
             _radial := None; _sampler := None |}.

(** [SpergelIntegratedFlux::operator()]: the flux integrated up to radius
    [u], in units of r0, minus the target. *)
Definition SpergelIntegratedFlux_call (self : SpergelIntegratedFlux) (u : double)
  : double :=
  let fnup1 := pow (u / 2) (sif_nu self + 1) * cyl_bessel_k (sif_nu self + 1) u
               / sif_gamma_nup2 self in
  let f := 1 - 2 * (1 + sif_nu self) * fnup1 in
  f - sif_target self.

(** [SpergelInfo::calculateFluxRadius]. *)
Definition calculateFluxRadius (info : SpergelInfo) (flux_frac : double)
  : outcome double :=
  let z1 := 0.1 in
  let z2 := 3.5 in
  let func := mkSpergelIntegratedFlux (_nu info) (_gamma_nup2 info) flux_frac in
  let solver := Solve_new (SpergelIntegratedFlux_call func) z1 z2 in
  let solver := setXTolerance solver 1e-25 in
  let solver := setMethod solver Brent in
  (solver <- (if d_lt flux_frac 0.5
              then bracketLowerWithLimit solver 0
              else bracketUpper solver) ;;
   R <- root solver ;;
   Ok R)%outcome.

(** [SpergelInfo::calculateIntegratedFlux]. *)
Definition calculateIntegratedFlux (info : SpergelInfo) (r : double) : double :=
  let func := mkSpergelIntegratedFlux (_nu info) (_gamma_nup2 info) 0 in
  SpergelIntegratedFlux_call func r.

(** [SpergelInfo::stepK]: the value and the record after memoization. *)
Definition stepK (info : SpergelInfo) : outcome (double * SpergelInfo) :=
  if d_eq (_stepk info) 0 then
    (R <- calculateFluxRadius info (1 - folding_threshold (_gsparams info)) ;;
     (* Go to at least 5*re *)
     let R := std_max R (stepk_minimum_hlr (_gsparams info)) in
     let info := set_stepk info (M_PI / R) in
     Ok (_stepk info, info))%outcome
  else Ok (_stepk info, info).

(** [SpergelInfo::maxK]. *)
Definition maxK (info : SpergelInfo) : double * SpergelInfo :=
  if d_eq (_maxk info) 0 then
    let info :=
      set_maxk info (pow (maxk_threshold (_gsparams info)) (-1 / (2 * (1 + _nu info)))) in
    (_maxk info, info)
  else (_maxk info, info).

(** [SpergelInfo::getHLR]. *)
Definition getHLR (info : SpergelInfo) : outcome (double * SpergelInfo) :=
  if d_eq (_re info) 0 then
    (re <- calculateFluxRadius info 0.5 ;;
     let info := set_re info re in
     Ok (_re info, info))%outcome
  else Ok (_re info, info).

(** [SpergelInfo::getXNorm]. *)
Definition getXNorm (info : SpergelInfo) : double :=
  pow 2 (- _nu info) / _gamma_nup1 info / (2 * M_PI).

(** [SpergelInfo::xValue]. *)
Definition xValue (info : SpergelInfo) (r : double) : double_inf :=
  if d_eq r 0 then _xnorm0 info
  else Finite (cyl_bessel_k (_nu info) r * pow r (_nu info)).

(** [SpergelInfo::kValue]. *)
Definition kValue (info : SpergelInfo) (ksq : double) : double :=
  pow (1 + ksq) (-1 - _nu info).

(** [FluxDensity::operator()] of the two radial functions. *)
Definition FluxDensity_call (fd : FluxDensity) (r : double) : double_inf :=
  match fd with
  | SpergelNuPositiveRadialFunction nu xnorm0 =>
      if d_eq r 0 then xnorm0
      else Finite (cyl_bessel_k nu r * pow r nu)
  | SpergelNuNegativeRadialFunction nu rmin a b =>
      if d_le r rmin then Finite (a + b * r)
      else Finite (cyl_bessel_k nu r * pow r nu)
  end.

(** The first part of [SpergelInfo::shoot]: the sampler is set up when
    there is none yet. *)
Definition setup_sampler (info : SpergelInfo) : outcome SpergelInfo :=
  match _sampler info with
  | Some _ => Ok info
  | None =>
      (shoot_rmax <-
         calculateFluxRadius info (1 - shoot_accuracy (_gsparams info)) ;;
       if d_gt (_nu info) 0 then
         let range := [0; shoot_rmax] in
         let radial := SpergelNuPositiveRadialFunction (_nu info) (_xnorm0 info) in
         Ok (set_sampler info radial
               (mkOneDimensionalDeviate radial range true (_gsparams info)))
       else
         (* exact s.b. profile diverges at origin, so replace the inner most
            circle (defined such that enclosed flux is shoot_acccuracy) with a
            linear function that contains the same flux and has the right
            value at r = rmin. *)
         let flux_target := shoot_accuracy (_gsparams info) in
         shoot_rmin <- calculateFluxRadius info flux_target ;;
         let knur := cyl_bessel_k (_nu info) shoot_rmin * pow shoot_rmin (_nu info) in
         let b := 3 / shoot_rmin
                  * (knur - flux_target / (M_PI * shoot_rmin * shoot_rmin)) in
         let a := knur - shoot_rmin * b in
         let range := [0; shoot_rmin; shoot_rmax] in
         let radial := SpergelNuNegativeRadialFunction (_nu info) shoot_rmin a b in
         Ok (set_sampler info radial
               (mkOneDimensionalDeviate radial range true (_gsparams info))))%outcome
  end.

(** [SpergelInfo::shoot(N, ud)]: the photons, the generator and the record
    after the sampler was set up. *)
Definition shoot `{SamplerShoot} (info : SpergelInfo) (N : Z) (ud : rng)
  : outcome (PhotonArray * rng * SpergelInfo) :=
  (info <- setup_sampler info ;;
   match _sampler info with
   | Some sampler =>
       let '(result, ud) := OneDimensionalDeviate_shoot sampler N ud in
       Ok (result, ud, info)
   | None => Undefined
   end)%outcome.

End Info.

(** [enum RadiusType]. *)
Inductive RadiusType : Type := HALF_LIGHT_RADIUS | SCALE_RADIUS.

(** [class SBSpergel::SBSpergelImpl]. *)
Record SBSpergelImpl : Type := mkSBSpergelImpl {
  impl_gsparams : GSParams;
  impl_nu : double;
  impl_flux : double;
  _r0 : double;
  impl_re : double;
  _xnorm : double;
  _shootnorm : double;
  _r0_sq : double;
  _inv_r0 : double;
  _info : SpergelInfo
}.

(** [LRUCache::get] on the static cache of [SBSpergelImpl]: the shared
    record of the key, built by [SpergelInfo_new] when the key is new. *)
Class SpergelCache : Type := {
  cache_get : double -> GSParams -> outcome SpergelInfo
}.

Section Impl.
Context `{MathLib} `{SpergelBounds} `{RootFinder} `{SpergelCache}.

(** [SBSpergelImpl::SBSpergelImpl(nu, size, rType, flux, gsparams)]. *)
Definition SBSpergelImpl_new (nu size : double) (rType : RadiusType)
  (flux : double) (gsparams : GSParams) : outcome SBSpergelImpl :=
  (info <- cache_get nu gsparams ;;
   (* Set size of this instance according to type of size given in constructor *)
   sized <- match rType with
            | HALF_LIGHT_RADIUS =>
                hlr <- getHLR info ;;
                let re := size in
                let r0 := re / fst hlr in
                Ok (r0, re, snd hlr)
            | SCALE_RADIUS =>
                hlr <- getHLR info ;;
                let r0 := size in
                let re := r0 * fst hlr in
                Ok (r0, re, snd hlr)
            end ;;
   let '(r0, re, info) := sized in
   let r0_sq := r0 * r0 in
   let inv_r0 := 1 / r0 in
   let shootnorm := flux * getXNorm info in
   let xnorm := shootnorm / r0_sq in
   Ok {| impl_gsparams := gsparams; impl_nu := nu; impl_flux := flux;
         _r0 := r0; impl_re := re;
         _xnorm := xnorm; _shootnorm := shootnorm;
         _r0_sq := r0_sq; _inv_r0 := inv_r0;
         _info := info |})%outcome.

Definition getNu (impl : SBSpergelImpl) : double := impl_nu impl.
Definition getScaleRadius (impl : SBSpergelImpl) : double := _r0 impl.
Definition getFlux (impl : SBSpergelImpl) : double := impl_flux impl.

(** [SBSpergelImpl::calculateIntegratedFlux] and [calculateFluxRadius]. *)
Definition SBSpergelImpl_calculateIntegratedFlux (impl : SBSpergelImpl)
  (r : double) : double :=
  calculateIntegratedFlux (_info impl) (r * _inv_r0 impl).

Definition SBSpergelImpl_calculateFluxRadius (impl : SBSpergelImpl)
  (f : double) : outcome double :=
  (R <- calculateFluxRadius (_info impl) f ;; Ok (R * _r0 impl))%outcome.

(** [SBSpergelImpl::maxK] and [SBSpergelImpl::stepK]. *)
Definition SBSpergelImpl_maxK (impl : SBSpergelImpl) : double :=
  fst (maxK (_info impl)) * _inv_r0 impl.

Definition SBSpergelImpl_stepK (impl : SBSpergelImpl) : outcome double :=
  (k <- stepK (_info impl) ;; Ok (fst k * _inv_r0 impl))%outcome.


End Impl.

End SBSpergel.

(** ** Evaluation and grid filling *)

(** [std::complex<double>]. *)
Record complex : Type := mkComplex { creal : double; cimag : double }.

Definition cadd (a b : complex) : complex :=
  mkComplex (creal a + creal b) (cimag a + cimag b).

(** The conversion of a [double] to a [std::complex<double>]. *)
Definition complex_of (d : double) : complex := mkComplex d 0.

(** [tmv::MatrixView<T>]: the shape of the view and its elements. *)
Record MatrixView (T : Type) : Type := mkMatrixView {
  colsize : nat;
  rowsize : nat;
  elem : nat -> nat -> T
}.

Arguments mkMatrixView {T}.
Arguments colsize {T}.
Arguments rowsize {T}.
Arguments elem {T}.

(** The virtual evaluation functions of the profiles held by a composite.
    A grid fill is given the shape of the view and the elements the view
    holds, and returns the elements it leaves. *)
Class MemberEval : Type := {
  SBProfile_xValue : SBProfile -> Position -> double;
  SBProfile_kValue : SBProfile -> Position -> complex;
  SBProfile_fillXValue :
    SBProfile -> nat -> nat -> (nat -> nat -> double) ->
    double -> double -> Z -> double -> double -> Z -> nat -> nat -> double;
  SBProfile_fillXValue_sheared :
    SBProfile -> nat -> nat -> (nat -> nat -> double) ->
    double -> double -> double -> double -> double -> double -> nat -> nat -> double;
  SBProfile_fillKValue :
    SBProfile -> nat -> nat -> (nat -> nat -> complex) ->
    double -> double -> Z -> double -> double -> Z -> nat -> nat -> complex;
  SBProfile_fillKValue_sheared :
    SBProfile -> nat -> nat -> (nat -> nat -> complex) ->
    double -> double -> double -> double -> double -> double -> nat -> nat -> complex
}.

Module SBAddEval.

Section Eval.
Context {ME : MemberEval}.

(** [SBAddImpl::xValue]. *)
Definition xValue (sba : SBAddImpl) (p : Position) : outcome double :=
  match _plist sba with
  | [] => Undefined
  | pptr :: rest =>
      Ok (fold_left (fun xv q => xv + SBProfile_xValue q p) rest
            (SBProfile_xValue pptr p))
  end.

(** [SBAddImpl::kValue]. *)
Definition kValue (sba : SBAddImpl) (k : Position) : outcome complex :=
  match _plist sba with
  | [] => Undefined
  | pptr :: rest =>
      Ok (fold_left (fun kv q => cadd kv (SBProfile_kValue q k)) rest
            (SBProfile_kValue pptr k))
  end.

(** A member fills a view: the shape stays, the elements are the ones the
    member leaves. *)
Definition fill_view {T : Type}
  (fill : nat -> nat -> (nat -> nat -> T) -> nat -> nat -> T)
  (val : MatrixView T) : MatrixView T :=
  {| colsize := colsize val; rowsize := rowsize val;
     elem := fill (colsize val) (rowsize val) (elem val) |}.

(** [val += val2]. *)
Definition add_view {T : Type} (plus : T -> T -> T) (val val2 : MatrixView T)
  : MatrixView T :=
  {| colsize := colsize val; rowsize := rowsize val;
     elem := fun i j => plus (elem val i j) (elem val2 i j) |}.

(** The loop of the four fill functions over the members after the first:
    each fills the scratch matrix [val2], which is then added to [val]. *)
Definition fill_rest {T : Type} (plus : T -> T -> T)
  (fill : SBProfile -> MatrixView T -> MatrixView T)
  (rest : list SBProfile) (val val2 : MatrixView T) : MatrixView T :=
  fst (fold_left
         (fun st pptr =>
            let val2 := fill pptr (snd st) in
            (add_view plus (fst st) val2, val2))
         rest (val, val2)).

(** The body shared by the four fill functions: the first member fills
    [val]; when there are more, a scratch matrix of the shape of [val] is
    allocated, with the elements [garbage], and the loop runs. *)
Definition fill_members {T : Type} (plus : T -> T -> T)
  (fill : SBProfile -> MatrixView T -> MatrixView T)
  (plist : list SBProfile) (val : MatrixView T) (garbage : nat -> nat -> T)
  : outcome (MatrixView T) :=
  match plist with
  | [] => Undefined
  | pptr :: rest =>
      let val := fill pptr val in
      match rest with
      | [] => Ok val
      | _ :: _ =>
          let val2 := mkMatrixView (colsize val) (rowsize val) garbage in
          Ok (fill_rest plus fill rest val val2)
      end
  end.

(** [SBAddImpl::fillXValue] on an axis-aligned lattice. *)
Definition fillXValue (sba : SBAddImpl) (val : MatrixView double)
  (garbage : nat -> nat -> double)
  (x0 dx : double) (izero : Z) (y0 dy : double) (jzero : Z)
  : outcome (MatrixView double) :=
  fill_members Rplus
    (fun pptr => fill_view (fun c r old =>
       SBProfile_fillXValue pptr c r old x0 dx izero y0 dy jzero))
    (_plist sba) val garbage.

(** [SBAddImpl::fillKValue] on an axis-aligned lattice. *)
Definition fillKValue (sba : SBAddImpl) (val : MatrixView complex)
  (garbage : nat -> nat -> complex)
  (kx0 dkx : double) (izero : Z) (ky0 dky : double) (jzero : Z)
  : outcome (MatrixView complex) :=
  fill_members cadd
    (fun pptr => fill_view (fun c r old =>
       SBProfile_fillKValue pptr c r old kx0 dkx izero ky0 dky jzero))
    (_plist sba) val garbage.

(** [SBAddImpl::fillXValue] on a sheared lattice. *)
Definition fillXValue_sheared (sba : SBAddImpl) (val : MatrixView double)
  (garbage : nat -> nat -> double)
  (x0 dx dxy y0 dy dyx : double) : outcome (MatrixView double) :=
  fill_members Rplus
    (fun pptr => fill_view (fun c r old =>
       SBProfile_fillXValue_sheared pptr c r old x0 dx dxy y0 dy dyx))
    (_plist sba) val garbage.

(** [SBAddImpl::fillKValue] on a sheared lattice. *)
Definition fillKValue_sheared (sba : SBAddImpl) (val : MatrixView complex)
  (garbage : nat -> nat -> complex)
  (kx0 dkx dkxy ky0 dky dkyx : double) : outcome (MatrixView complex) :=
  fill_members cadd
    (fun pptr => fill_view (fun c r old =>
       SBProfile_fillKValue_sheared pptr c r old kx0 dkx dkxy ky0 dky dkyx))
    (_plist sba) val garbage.

End Eval.

End SBAddEval.

(** ** The delta function: [SBDeltaFunctionImpl.h] *)

Module SBDeltaFunction.

(** [class SBDeltaFunction::SBDeltaFunctionImpl]. *)
Record SBDeltaFunctionImpl : Type := mkSBDeltaFunctionImpl {
  delta_gsparams : GSParamsPtr;
  _flux : double
}.

Definition isAxisymmetric (d : SBDeltaFunctionImpl) : bool := true.
Definition hasHardEdges (d : SBDeltaFunctionImpl) : bool := true.
Definition isAnalyticX (d : SBDeltaFunctionImpl) : bool := true.
Definition isAnalyticK (d : SBDeltaFunctionImpl) : bool := true.
Definition centroid (d : SBDeltaFunctionImpl) : Position := mkPosition 0 0.
Definition getFlux (d : SBDeltaFunctionImpl) : double := _flux d.
Definition maxSB (d : SBDeltaFunctionImpl) : double := _flux d.

End SBDeltaFunction.

(** ** Evaluation of the Spergel profile *)

(** A [double] that may be infinite or not a number. *)
Inductive double_ext : Type :=
| Fin (v : double)
| PosInf
| NegInf
| NaN.

(** The product of a [double] and a [double] that may be [INFINITY]. *)
Definition mul_ext (a : double) (v : double_inf) : double_ext :=
  match v with
  | Finite b => Fin (a * b)
  | INFINITY =>
      if d_gt a 0 then PosInf else if d_lt a 0 then NegInf else NaN
  end.

(** [ImageView<T>], by what the fill functions read of it: the memory
    from [getData()] on, by offset, the numbers of columns and rows, and
    the skip and the step of its layout. *)
Record ImageView (T : Type) : Type := mkImageView {
  im_data : Z -> T;
  im_ncol : Z;
  im_nrow : Z;
  im_nskip : Z;
  im_step : Z
}.

Arguments mkImageView {T}.
Arguments im_data {T}.
Arguments im_ncol {T}.
Arguments im_nrow {T}.
Arguments im_nskip {T}.
Arguments im_step {T}.

(** [*ptr = v]. *)
Definition store {T : Type} (mem : Z -> T) (ptr : Z) (v : T) : Z -> T :=
  fun o => if (o =? ptr)%Z then v else mem o.

(** The inner loop of the fill functions,
    [for (i = 0; i < m; ++i, a = next(a)) *ptr++ = value(a)],
    over the [m] turns left, with the loop variables [a]. *)
Fixpoint write_run {A T : Type} (value : A -> T) (next : A -> A) (m : nat)
  (a : A) (ptr : Z) (mem : Z -> T) : Z * (Z -> T) :=
  match m with
  | O => (ptr, mem)
  | S m' => write_run value next m' (next a) (ptr + 1)%Z (store mem ptr (value a))
  end.

(** The outer loop of the fill functions,
    [for (j = 0; j < n; ++j, b = next_row(b), ptr += advance)],
    whose body sets the variables of the inner loop from [b] and runs it. *)
Fixpoint write_rows {A B T : Type} (row : B -> A) (value : A -> T)
  (next : A -> A) (next_row : B -> B) (advance : Z) (n m : nat)
  (b : B) (ptr : Z) (mem : Z -> T) : Z * (Z -> T) :=
  match n with
  | O => (ptr, mem)
  | S n' =>
      let '(ptr, mem) := write_run value next m (row b) ptr mem in
      write_rows row value next next_row advance n' m
        (next_row b) (ptr + advance)%Z mem
  end.

Module SBSpergelEval.

Import SBSpergel.

(** [SBProfileImpl::fillXImageQuadrant] and [fillKImageQuadrant], which
    fill an axis-aligned image that holds the origin from one quadrant. *)
Class QuadrantFill : Type := {
  fillXImageQuadrant :
    SBSpergelImpl -> ImageView double_ext ->
    double -> double -> Z -> double -> double -> Z -> outcome (Z -> double_ext);
  fillKImageQuadrant :
    SBSpergelImpl -> ImageView complex ->
    double -> double -> Z -> double -> double -> Z -> outcome (Z -> complex)
}.

Section Eval.
Context {ML : MathLib} {QF : QuadrantFill}.

(** [SBSpergelImpl::xValue]. *)
Definition xValue (impl : SBSpergelImpl) (p : Position) : double_ext :=
  let r := sqrt (pos_x p * pos_x p + pos_y p * pos_y p) * _inv_r0 impl in
  mul_ext (_xnorm impl) (SBSpergel.xValue (_info impl) r).

(** [SBSpergelImpl::kValue]. *)
Definition kValue (impl : SBSpergelImpl) (k : Position) : complex :=
  let ksq := (pos_x k * pos_x k + pos_y k * pos_y k) * _r0_sq impl in
  complex_of (impl_flux impl * SBSpergel.kValue (_info impl) ksq).

(** [SBSpergelImpl::fillXImage] on an axis-aligned lattice: the memory of
    the image after the fill. *)
Definition fillXImage (impl : SBSpergelImpl) (im : ImageView double_ext)
  (x0 dx : double) (izero : Z) (y0 dy : double) (jzero : Z)
  : outcome (Z -> double_ext) :=
  if negb (izero =? 0)%Z || negb (jzero =? 0)%Z then
    fillXImageQuadrant impl im x0 dx izero y0 dy jzero
  else
    let m := im_ncol im in
    let n := im_nrow im in
    let skip := im_nskip im in
    if negb (im_step im =? 1)%Z then Undefined
    else
      let x0 := x0 * _inv_r0 impl in
      let dx := dx * _inv_r0 impl in
      let y0 := y0 * _inv_r0 impl in
      let dy := dy * _inv_r0 impl in
      Ok (snd (write_rows
                 (fun y0 => (x0, y0 * y0))
                 (fun a => mul_ext (_xnorm impl)
                             (SBSpergel.xValue (_info impl)
                                (sqrt (fst a * fst a + snd a))))
                 (fun a => (fst a + dx, snd a))
                 (fun y0 => y0 + dy)
                 skip (Z.to_nat n) (Z.to_nat m) y0 0%Z (im_data im))).

(** [SBSpergelImpl::fillXImage] on a sheared lattice. *)
Definition fillXImage_sheared (impl : SBSpergelImpl) (im : ImageView double_ext)
  (x0 dx dxy y0 dy dyx : double) : outcome (Z -> double_ext) :=
  let m := im_ncol im in
  let n := im_nrow im in
  let skip := im_nskip im in
  if negb (im_step im =? 1)%Z then Undefined
  else
    let x0 := x0 * _inv_r0 impl in
    let dx := dx * _inv_r0 impl in
    let dxy := dxy * _inv_r0 impl in
    let y0 := y0 * _inv_r0 impl in
    let dy := dy * _inv_r0 impl in
    let dyx := dyx * _inv_r0 impl in
    Ok (snd (write_rows
               (fun b : double * double => b)
               (fun a => mul_ext (_xnorm impl)
                           (SBSpergel.xValue (_info impl)
                              (sqrt (fst a * fst a + snd a * snd a))))
               (fun a => (fst a + dx, snd a + dyx))
               (fun b => (fst b + dxy, snd b + dy))
               skip (Z.to_nat n) (Z.to_nat m) (x0, y0) 0%Z (im_data im))).

(** [SBSpergelImpl::fillKImage] on an axis-aligned lattice. *)
Definition fillKImage (impl : SBSpergelImpl) (im : ImageView complex)
  (kx0 dkx : double) (izero : Z) (ky0 dky : double) (jzero : Z)
  : outcome (Z -> complex) :=
  if negb (izero =? 0)%Z || negb (jzero =? 0)%Z then
    fillKImageQuadrant impl im kx0 dkx izero ky0 dky jzero
  else
    let m := im_ncol im in
    let n := im_nrow im in
    let skip := im_nskip im in
    if negb (im_step im =? 1)%Z then Undefined
    else
      let kx0 := kx0 * _r0 impl in
      let dkx := dkx * _r0 impl in
      let ky0 := ky0 * _r0 impl in
      let dky := dky * _r0 impl in
      Ok (snd (write_rows
                 (fun ky0 => (kx0, ky0 * ky0))
                 (fun a => complex_of
                             (impl_flux impl
                              * SBSpergel.kValue (_info impl) (fst a * fst a + snd a)))
                 (fun a => (fst a + dkx, snd a))
                 (fun ky0 => ky0 + dky)
                 skip (Z.to_nat n) (Z.to_nat m) ky0 0%Z (im_data im))).

(** [SBSpergelImpl::fillKImage] on a sheared lattice.  The pointer is not
    advanced by the skip at the end of a row. *)
Definition fillKImage_sheared (impl : SBSpergelImpl) (im : ImageView complex)
  (kx0 dkx dkxy ky0 dky dkyx : double) : outcome (Z -> complex) :=
  let m := im_ncol im in
  let n := im_nrow im in
  if negb (im_step im =? 1)%Z then Undefined
  else
    let kx0 := kx0 * _r0 impl in
    let dkx := dkx * _r0 impl in
    let dkxy := dkxy * _r0 impl in
    let ky0 := ky0 * _r0 impl in
    let dky := dky * _r0 impl in
    let dkyx := dkyx * _r0 impl in
    Ok (snd (write_rows
               (fun b : double * double => b)
               (fun a => complex_of
                           (impl_flux impl
                            * SBSpergel.kValue (_info impl)
                                (fst a * fst a + snd a * snd a)))
               (fun a => (fst a + dkx, snd a + dkyx))
               (fun b => (fst b + dkxy, snd b + dky))
               0%Z (Z.to_nat n) (Z.to_nat m) (kx0, ky0) 0%Z (im_data im))).

End Eval.

(** The inline accessors of [SBSpergelImpl]. *)
Definition isAxisymmetric (impl : SBSpergelImpl) : bool := true.
Definition hasHardEdges (impl : SBSpergelImpl) : bool := false.
Definition isAnalyticX (impl : SBSpergelImpl) : bool := true.
Definition isAnalyticK (impl : SBSpergelImpl) : bool := true.
Definition centroid (impl : SBSpergelImpl) : Position := mkPosition 0 0.

End SBSpergelEval.

(** ** Spergel and delta-function profiles as members of a composite *)

(** The handle on an [SBSpergelImpl], by what its virtual accessors
    return.  [maxk] and [stepk] are what [SBSpergelImpl::maxK] and
    [stepK] return; the positive and the negative flux come from
    [SBProfileImpl], which is not among the sources. *)
Definition SBSpergel_handle (impl : SBSpergel.SBSpergelImpl)
  (maxk stepk positive negative : double) : SBProfile :=
  Other {| o_gsparams := Some (SBSpergel.impl_gsparams impl);
           o_getFlux := SBSpergel.getFlux impl;
           o_centroid := SBSpergelEval.centroid impl;
           o_maxK := maxk; o_stepK := stepk;
           o_isAxisymmetric := SBSpergelEval.isAxisymmetric impl;
           o_hasHardEdges := SBSpergelEval.hasHardEdges impl;
           o_isAnalyticX := SBSpergelEval.isAnalyticX impl;
           o_isAnalyticK := SBSpergelEval.isAnalyticK impl;
           o_getPositiveFlux := positive; o_getNegativeFlux := negative |}.

(** The handle on an [SBDeltaFunctionImpl]; [maxK] and [stepK] are
    declared only in the header. *)
Definition SBDeltaFunction_handle (impl : SBDeltaFunction.SBDeltaFunctionImpl)
  (maxk stepk positive negative : double) : SBProfile :=
  Other {| o_gsparams := SBDeltaFunction.delta_gsparams impl;
           o_getFlux := SBDeltaFunction.getFlux impl;
           o_centroid := SBDeltaFunction.centroid impl;
           o_maxK := maxk; o_stepK := stepk;
           o_isAxisymmetric := SBDeltaFunction.isAxisymmetric impl;
           o_hasHardEdges := SBDeltaFunction.hasHardEdges impl;
           o_isAnalyticX := SBDeltaFunction.isAnalyticX impl;
           o_isAnalyticK := SBDeltaFunction.isAnalyticK impl;
           o_getPositiveFlux := positive; o_getNegativeFlux := negative |}.

(** ** The sizes of a Spergel instance on binary64 numbers *)

Module Binary64.

Import PrimFloat.
Local Open Scope float_scope.


End Binary64.

(** * The specification *)

(** ** Vocabulary *)

(** The sum of [f] over the members. *)
Definition sum_of (f : SBProfile -> double) (l : list SBProfile) : double :=
  fold_right (fun p acc => f p + acc) 0 l.

(** The sum of [f] over the members as a loop accumulates it: from zero,
    member after member. *)
Definition accumulated (f : SBProfile -> double) (l : list SBProfile) : double :=
  fold_left (fun s p => s + f p) l 0.

(** A loop variable that starts at [x0], after [i] turns that each add
    [dx] to it. *)
Definition stepped (x0 dx : double) (i : nat) : double :=
  Nat.iter i (fun x => x + dx) x0.

(** [v] is the largest, resp. smallest, element of [l]. *)
Definition is_maximum (v : double) (l : list double) : Prop :=
  In v l /\ forall x, In x l -> x <= v.

Definition is_minimum (v : double) (l : list double) : Prop :=
  In v l /\ forall x, In x l -> v <= x.

(** The profiles that construction can produce: profiles of the other
    classes, and composites built by the constructor of [SBAdd] from
    profiles that construction can produce. *)
Inductive constructed : SBProfile -> Prop :=
| constructed_other (o : OtherImpl) : constructed (Other o)
| constructed_add (slist : list SBProfile) (gs : GSParamsPtr) (sba : SBAddImpl) :
    (forall p, In p slist -> constructed p) ->
    SBAdd.SBAddImpl_new slist gs = Ok sba ->
    constructed (Add sba).

(** The absolute flux of a member: positive flux plus negative flux. *)
Definition absoluteFlux (p : SBProfile) : double :=
  getPositiveFlux p + getNegativeFlux p.

(** What one member was given in a run of composite photon shooting: the
    number of photons drawn from it and its sub-sample after rescaling. *)
Record allocation : Type := mkAllocation {
  alloc_member : SBProfile;
  alloc_thisN : Z;
  alloc_photons : list photon
}.

Definition rescale (factor : double) (sub : list photon) : list photon :=
  map (fun p => mkPhoton (ph_x p) (ph_y p) (ph_flux p * factor)) sub.

Section Allocation.
Context `{MemberShoot}.

(** Spec 4.5, photon shooting, in the words of the specification.  The
    members are served in list order with [remaining] photons left.  A
    member other than the last is given a binomial draw with [remaining]
    trials and success probability its absolute flux over the absolute
    flux of the members not yet processed; the last member is given all
    that remains.  The sub-sample of a member that was given [thisN]
    photons is rescaled by [nominal * thisN] over its absolute flux.  The
    run stops when no photon or no absolute flux remains. *)
Fixpoint allocate (nominal : double) (members : list SBProfile)
  (remaining : Z) (u : rng) : list allocation * rng :=
  match members with
  | [] => ([], u)
  | p :: rest =>
      let '(thisN, u) :=
        match rest with
        | [] => (remaining, u)
        | _ :: _ =>
            BinomialDeviate u remaining
              (absoluteFlux p / sum_of absoluteFlux members)
        end in
      let '(sub, u) :=
        if (0 <? thisN)%Z then
          let '(pa, u) := SBProfile_shoot p thisN u in
          (rescale (nominal * IZR thisN / absoluteFlux p) (photons pa), u)
        else ([], u) in
      let this := mkAllocation p thisN sub in
      if (remaining - thisN <=? 0)%Z || d_le (sum_of absoluteFlux rest) 0
      then ([this], u)
      else let '(more, u) := allocate nominal rest (remaining - thisN)%Z u in
           (this :: more, u)
  end.

(** The members that contributed photons to a run. *)
Definition contributors (run : list allocation) : list SBProfile :=
  map alloc_member (filter (fun a => (0 <? alloc_thisN a)%Z) run).

End Allocation.

(** Modelled from the spec: Solve.h is not among the sources.  The root
    finder returns the root of the function it was given, within the
    convergence tolerance it was set to. *)
Definition returns_the_root `{Solver.RootFinder} : Prop :=
  forall (g : double -> double) (lb ub tol : double) (m : Solver.Method) (r : double),
    0 < tol ->
    Solver.find_root g lb ub tol m = Ok r ->
    exists x0, g x0 = 0 /\ Rabs (r - x0) <= tol.

(** The flux that the radial density [density] encloses within the radius
    [R_]: the integral of [2 pi r density(r)] from 0 to [R_]. *)
Definition enclosed_flux (density : double -> double) (R_ flux : double) : Prop :=
  exists pr : Riemann_integrable (fun r => 2 * PI * r * density r) 0 R_,
    RiemannInt pr = flux.

(** The radial density of the Spergel profile of unit flux and unit
    scale radius, away from the origin: [getXNorm] times what [xValue]
    returns. *)
Definition unit_flux_density `{MathLib} (info : SBSpergel.SpergelInfo)
  (r : double) : double :=
  SBSpergel.getXNorm info
  * (cyl_bessel_k (SBSpergel._nu info) r * pow r (SBSpergel._nu info)).

(** The antiderivative of [2 pi r (a + b r)] that vanishes at 0. *)
Definition linear_flux (a b r : double) : double :=
  PI * a * (r * r) + 2 * PI / 3 * b * (r * r * r).

(** Over the distance that the solver of [calculateFluxRadius] may be off
    the radius that encloses the fraction [f], the enclosed flux moves
    away from [f] by [eps] at most. *)
Definition flux_within `{MathLib} (info : SBSpergel.SpergelInfo) (f eps : double)
  : Prop :=
  forall x0 r : double,
    SBSpergel.calculateIntegratedFlux info x0 = f ->
    Rabs (r - x0) <= 1e-25 ->
    Rabs (SBSpergel.calculateIntegratedFlux info r - f) <= eps.

(** What [add] appends for one profile. *)
Definition summands (p : SBProfile) : list SBProfile :=
  match as_SBAddImpl p with
  | Some sba => _plist sba
  | None => [p]
  end.


(** The largest of the values of [l] and zero. *)
Definition max_with_zero (l : list double) : double := fold_right Rmax 0 l.

(** A grid fill overwrites the view: what it leaves within the shape does
    not depend on what the view held. *)
Definition overwrites {T : Type}
  (fill : nat -> nat -> (nat -> nat -> T) -> nat -> nat -> T) : Prop :=
  forall (c r : nat) (old1 old2 : nat -> nat -> T) (i j : nat),
    (i < c)%nat -> (j < r)%nat -> fill c r old1 i j = fill c r old2 i j.

(** The fill returned a view of the shape of [val] whose elements within
    the shape are [entry]. *)
Definition filled_with {T : Type} (out : outcome (MatrixView T))
  (val : MatrixView T) (entry : nat -> nat -> T) : Prop :=
  exists m : MatrixView T,
    out = Ok m
    /\ colsize m = colsize val /\ rowsize m = rowsize val
    /\ forall i j : nat,
         (i < colsize val)%nat -> (j < rowsize val)%nat -> elem m i j = entry i j.

(** The grid fills [fill] of the members evaluate the point function
    [value] at the points [lattice i j]. *)
Definition fills_at_points {T : Type}
  (fill : SBProfile -> nat -> nat -> (nat -> nat -> T) -> nat -> nat -> T)
  (value : SBProfile -> Position -> T) (lattice : nat -> nat -> Position)
  (members : list SBProfile) : Prop :=
  forall q, In q members ->
    forall (c r : nat) (old : nat -> nat -> T) (i j : nat),
      (i < c)%nat -> (j < r)%nat -> fill q c r old i j = value q (lattice i j).

(** A binomial draw lies between zero and the number of trials. *)
Definition draws_within_trials `{Deviates} : Prop :=
  forall (u : rng) (n : Z) (p : double),
    (0 <= n)%Z -> (0 <= fst (BinomialDeviate u n p) <= n)%Z.

(** The members return as many photons as they are asked for. *)
Definition shoots_as_asked `{MemberShoot} (members : list SBProfile) : Prop :=
  forall q, In q members ->
    forall (n : Z) (u : rng), (0 < n)%Z ->
      List.length (photons (fst (SBProfile_shoot q n u))) = Z.to_nat n.

(** The weights of the photons a member returns add up to its absolute
    flux. *)
Definition shoots_its_flux `{MemberShoot} (members : list SBProfile) : Prop :=
  forall q, In q members ->
    forall (n : Z) (u : rng), (0 < n)%Z ->
      getTotalFlux (fst (SBProfile_shoot q n u)) = absoluteFlux q.

(** The pixel in column [i] of row [j] lies within the image. *)
Definition in_image {T : Type} (im : ImageView T) (i j : nat) : Prop :=
  (i < Z.to_nat (im_ncol im))%nat /\ (j < Z.to_nat (im_nrow im))%nat.

(** The offset from [getData()] of the pixel in column [i] of row [j] of
    an image of unit step: consecutive rows lie [ncol + nskip] apart. *)
Definition pixel_offset {T : Type} (im : ImageView T) (i j : nat) : Z :=
  (Z.of_nat j * (im_ncol im + im_nskip im) + Z.of_nat i)%Z.

(** The offset of the same pixel when the rows are taken to follow each
    other without a gap. *)
Definition packed_offset {T : Type} (im : ImageView T) (i j : nat) : Z :=
  (Z.of_nat j * im_ncol im + Z.of_nat i)%Z.

(** The cache has not seen the key: it builds the record. *)
Definition cache_miss `{MathLib} `{SpergelBounds} `{SBSpergel.SpergelCache}
  (nu : double) (gs : GSParams) : Prop :=
  SBSpergel.cache_get nu gs = SBSpergel.SpergelInfo_new nu gs.

(** The profile is a handle on a Spergel profile, or on a delta function. *)
Definition is_spergel (p : SBProfile) : Prop :=
  exists impl maxk stepk positive negative,
    p = SBSpergel_handle impl maxk stepk positive negative.

Definition is_delta (p : SBProfile) : Prop :=
  exists impl maxk stepk positive negative,
    p = SBDeltaFunction_handle impl maxk stepk positive negative.

(** ** Sample data *)

Module Sample.

(** The default parameters of GalSim. *)
Definition params : GSParams :=
  {| folding_threshold := 0.005;
     stepk_minimum_hlr := 5;
     maxk_threshold := 0.001;
     shoot_accuracy := 0.00001 |}.

Definition profA : SBProfile :=
  Other {| o_gsparams := Some params;
           o_getFlux := 1; o_centroid := mkPosition 0 0;
           o_maxK := 10; o_stepK := 1;
           o_isAxisymmetric := true; o_hasHardEdges := false;
           o_isAnalyticX := true; o_isAnalyticK := true;
           o_getPositiveFlux := 1; o_getNegativeFlux := 0 |}.

Definition profB : SBProfile :=
  Other {| o_gsparams := Some params;
           o_getFlux := 3; o_centroid := mkPosition 4 8;
           o_maxK := 20; o_stepK := 0.5;
           o_isAxisymmetric := false; o_hasHardEdges := true;
           o_isAnalyticX := true; o_isAnalyticK := true;
           o_getPositiveFlux := 3; o_getNegativeFlux := 0 |}.

(** A profile without flux. *)
Definition profC : SBProfile :=
  Other {| o_gsparams := Some params;
           o_getFlux := 0; o_centroid := mkPosition 0 0;
           o_maxK := 5; o_stepK := 2;
           o_isAxisymmetric := true; o_hasHardEdges := false;
           o_isAnalyticX := true; o_isAnalyticK := false;
           o_getPositiveFlux := 0; o_getNegativeFlux := 0 |}.

(** Profiles whose [maxK] is negative, and one whose [stepK] is zero. *)
Definition profD : SBProfile :=
  Other {| o_gsparams := Some params;
           o_getFlux := 1; o_centroid := mkPosition 0 0;
           o_maxK := -1; o_stepK := 1;
           o_isAxisymmetric := true; o_hasHardEdges := false;
           o_isAnalyticX := true; o_isAnalyticK := true;
           o_getPositiveFlux := 1; o_getNegativeFlux := 0 |}.

Definition profE : SBProfile :=
  Other {| o_gsparams := Some params;
           o_getFlux := 1; o_centroid := mkPosition 0 0;
           o_maxK := -2; o_stepK := 0;
           o_isAxisymmetric := true; o_hasHardEdges := false;
           o_isAnalyticX := true; o_isAnalyticK := true;
           o_getPositiveFlux := 1; o_getNegativeFlux := 0 |}.

Definition profF : SBProfile :=
  Other {| o_gsparams := Some params;
           o_getFlux := 1; o_centroid := mkPosition 0 0;
           o_maxK := -2; o_stepK := 2;
           o_isAxisymmetric := true; o_hasHardEdges := false;
           o_isAnalyticX := true; o_isAnalyticK := true;
           o_getPositiveFlux := 1; o_getNegativeFlux := 0 |}.

(** A generator that replays a script: a draw yields every trial when the
    success probability is at least one, none when it is at most zero,
    and otherwise the next number of the script, cut to the trials. *)
Definition scripted : Deviates :=
  {| rng := list Z;
     BinomialDeviate := fun u n p =>
       let k := if d_le 1 p then n
                else if d_le p 0 then 0%Z
                else Z.max 0 (Z.min n (hd 0%Z u)) in
       (k, tl u) |}.

(** Members that shoot all their photons at their centroid, each with the
    member's absolute flux over the photon count as weight. *)
Definition point_shoot : @MemberShoot scripted :=
  {| SBProfile_shoot := fun p n u =>
       ({| photons :=
             repeat (mkPhoton (pos_x (centroid p)) (pos_y (centroid p))
                       (absoluteFlux p / IZR n)) (Z.to_nat n);
           _is_correlated := false |}, u) |}.

(** The bounds of the Spergel index in GalSim. *)
Definition bounds : SpergelBounds :=
  {| minimum_spergel_nu := -0.85; maximum_spergel_nu := 4 |}.

(** A stand-in for the mathematics library under which the flux enclosed
    by the radius [u] is [u / 8], whatever the index. *)
Definition mathlib : MathLib :=
  {| tgamma := fun _ => 1;
     pow := fun _ _ => 1;
     cyl_bessel_k := fun _ u => (1 - u / 8) / 2 |}.

(** A root finder that is exact on affine functions: it leaves the bracket
    alone and returns the zero of the line through the values at 0 and 1
    when the function vanishes there. *)
Definition affine_solver : Solver.RootFinder :=
  {| Solver.defaultTolerance := 1e-7;
     Solver.extend_lower_with_limit := fun _ lb ub _ => Ok (lb, ub);
     Solver.extend_upper := fun _ lb ub => Ok (lb, ub);
     Solver.find_root := fun g _ _ _ _ =>
       let x := - g 0 / (g 1 - g 0) in
       if d_eq (g x) 0 then Ok x
       else Throw (SBError "no root in the bracket") |}.

(** A stand-in for the mathematics library at the index 0 under which
    the profile of unit flux has the constant density [1 / pi] and
    encloses the flux [u * u] within the radius [u]: the power is right
    for the exponents 0 and 1, [K_0] is the constant 2 and
    [u K_1(u) = 1 - u * u]. *)
Definition disc_mathlib : MathLib :=
  {| tgamma := fun _ => 1;
     pow := fun x y => if d_eq y 1 then x else 1;
     cyl_bessel_k := fun nu u => if d_eq nu 1 then (1 - u * u) / u else 2 |}.

(** A root finder that is exact on the functions [u * u - t]: it leaves
    the bracket alone and returns the square root of [t], which it reads
    off the value at 1, when the function vanishes there. *)
Definition square_solver : Solver.RootFinder :=
  {| Solver.defaultTolerance := 1e-7;
     Solver.extend_lower_with_limit := fun _ lb ub _ => Ok (lb, ub);
     Solver.extend_upper := fun _ lb ub => Ok (lb, ub);
     Solver.find_root := fun g _ _ _ _ =>
       let x := sqrt (1 - g 1) in
       if d_eq (g x) 0 then Ok x
       else Throw (SBError "no root in the bracket") |}.

(** A cache that misses on every key. *)
Definition cold_cache : SBSpergel.SpergelCache :=
  {| SBSpergel.cache_get := @SBSpergel.SpergelInfo_new mathlib bounds |}.

(** A sampler that puts every photon at the origin. *)
Definition origin_sampler : @SBSpergel.SamplerShoot scripted :=
  {| SBSpergel.OneDimensionalDeviate_shoot := fun _ n u =>
       ({| photons := repeat (mkPhoton 0 0 (1 / IZR n)) (Z.to_nat n);
           _is_correlated := false |}, u) |}.

(** Members that evaluate to their flux times a plane through the
    position, in real and in Fourier space, and whose grid fills evaluate
    at the lattice points. *)
Definition plane_eval : MemberEval :=
  {| SBProfile_xValue := fun q p => getFlux q * (1 + pos_x p + 2 * pos_y p);
     SBProfile_kValue := fun q k =>
       mkComplex (getFlux q * pos_x k) (getFlux q * pos_y k);
     SBProfile_fillXValue := fun q _ _ _ x0 dx _ y0 dy _ i j =>
       getFlux q * (1 + (x0 + INR i * dx) + 2 * (y0 + INR j * dy));
     SBProfile_fillXValue_sheared := fun q _ _ _ x0 dx dxy y0 dy dyx i j =>
       getFlux q * (1 + (x0 + INR i * dx + INR j * dxy)
                    + 2 * (y0 + INR i * dyx + INR j * dy));
     SBProfile_fillKValue := fun q _ _ _ kx0 dkx _ ky0 dky _ i j =>
       mkComplex (getFlux q * (kx0 + INR i * dkx)) (getFlux q * (ky0 + INR j * dky));
     SBProfile_fillKValue_sheared := fun q _ _ _ kx0 dkx dkxy ky0 dky dkyx i j =>
       mkComplex (getFlux q * (kx0 + INR i * dkx + INR j * dkxy))
                 (getFlux q * (ky0 + INR i * dkyx + INR j * dky)) |}.


(** Quadrant fills that are never reached by a fill from the corner. *)
Definition no_quadrant : SBSpergelEval.QuadrantFill :=
  {| SBSpergelEval.fillXImageQuadrant := fun _ _ _ _ _ _ _ _ => Undefined;
     SBSpergelEval.fillKImageQuadrant := fun _ _ _ _ _ _ _ _ => Undefined |}.

(** An image of three columns and two rows whose rows lie four apart. *)
Definition image {T : Type} (blank : T) : ImageView T :=
  {| im_data := fun _ => blank; im_ncol := 3; im_nrow := 2;
     im_nskip := 1; im_step := 1 |}.

(** A root finder that finds nothing. *)
Definition failing_solver : Solver.RootFinder :=
  {| Solver.defaultTolerance := 1e-7;
     Solver.extend_lower_with_limit := fun _ _ _ _ =>
       Throw (SBError "no bracket");
     Solver.extend_upper := fun _ _ _ => Throw (SBError "no bracket");
     Solver.find_root := fun _ _ _ _ _ => Throw (SBError "no root in the bracket") |}.
End Sample.

(** * Properties of the composite profile *)

Module SBAddFacts.

Import SBAdd.

(** *** Comparisons *)

Lemma d_le_true a b : d_le a b = true <-> a <= b.
Proof. unfold d_le; destruct (Rle_dec a b); split; intros; try easy; lra. Qed.

Lemma d_lt_true a b : d_lt a b = true <-> a < b.
Proof. unfold d_lt; destruct (Rlt_dec a b); split; intros; try easy; lra. Qed.

Lemma d_gt_true a b : d_gt a b = true <-> a > b.
Proof. unfold d_gt; destruct (Rgt_dec a b); split; intros; try easy; lra. Qed.

Lemma d_eq_true a b : d_eq a b = true <-> a = b.
Proof. unfold d_eq; destruct (Req_dec_T a b); split; intros; try easy; lra. Qed.

Lemma d_le_false a b : d_le a b = false <-> b < a.
Proof. unfold d_le; destruct (Rle_dec a b); split; intros; try easy; lra. Qed.

Lemma d_lt_false a b : d_lt a b = false <-> b <= a.
Proof. unfold d_lt; destruct (Rlt_dec a b); split; intros; try easy; lra. Qed.

Lemma d_gt_false a b : d_gt a b = false <-> a <= b.
Proof. unfold d_gt; destruct (Rgt_dec a b); split; intros; try easy; lra. Qed.

Lemma d_eq_false a b : d_eq a b = false <-> a <> b.
Proof. unfold d_eq; destruct (Req_dec_T a b); split; intros; try easy; lra. Qed.

(** *** The loop of [initialize] *)

Lemma accumulate_plist l : forall acc,
  _plist (fold_left accumulate l acc) = _plist acc.
Proof. induction l as [|p l IH]; intros acc; simpl; [reflexivity|]. now rewrite IH. Qed.

Lemma accumulate_gsparams l : forall acc,
  gsparams (fold_left accumulate l acc) = gsparams acc.
Proof. induction l as [|p l IH]; intros acc; simpl; [reflexivity|]. now rewrite IH. Qed.

Lemma accumulate_sumflux l : forall acc,
  _sumflux (fold_left accumulate l acc) = _sumflux acc + sum_of getFlux l.
Proof.
  induction l as [|p l IH]; intros acc; simpl; [lra|].
  rewrite IH; simpl; lra.
Qed.

Lemma accumulate_sumfx l : forall acc,
  _sumfx (fold_left accumulate l acc)
  = _sumfx acc + sum_of (fun p => getFlux p * pos_x (centroid p)) l.
Proof.
  induction l as [|p l IH]; intros acc; simpl; [lra|].
  rewrite IH; simpl; lra.
Qed.

Lemma accumulate_sumfy l : forall acc,
  _sumfy (fold_left accumulate l acc)
  = _sumfy acc + sum_of (fun p => getFlux p * pos_y (centroid p)) l.
Proof.
  induction l as [|p l IH]; intros acc; simpl; [lra|].
  rewrite IH; simpl; lra.
Qed.

Lemma accumulate_allAxisymmetric l : forall acc,
  _allAxisymmetric (fold_left accumulate l acc)
  = _allAxisymmetric acc && forallb isAxisymmetric l.
Proof.
  induction l as [|p l IH]; intros acc; simpl; [now rewrite andb_true_r|].
  rewrite IH; simpl; now rewrite andb_assoc.
Qed.

Lemma accumulate_allAnalyticX l : forall acc,
  _allAnalyticX (fold_left accumulate l acc)
  = _allAnalyticX acc && forallb isAnalyticX l.
Proof.
  induction l as [|p l IH]; intros acc; simpl; [now rewrite andb_true_r|].
  rewrite IH; simpl; now rewrite andb_assoc.
Qed.

Lemma accumulate_allAnalyticK l : forall acc,
  _allAnalyticK (fold_left accumulate l acc)
  = _allAnalyticK acc && forallb isAnalyticK l.
Proof.
  induction l as [|p l IH]; intros acc; simpl; [now rewrite andb_true_r|].
  rewrite IH; simpl; now rewrite andb_assoc.
Qed.

Lemma accumulate_anyHardEdges l : forall acc,
  _anyHardEdges (fold_left accumulate l acc)
  = _anyHardEdges acc || existsb hasHardEdges l.
Proof.
  induction l as [|p l IH]; intros acc; simpl; [now rewrite orb_false_r|].
  rewrite IH; simpl; now rewrite orb_assoc.
Qed.

(** The running maximum never decreases, bounds every member seen, and is
    the starting value or the [maxK] of a member. *)
Lemma accumulate_maxMaxK l : forall acc,
  let v := _maxMaxK (fold_left accumulate l acc) in
  _maxMaxK acc <= v
  /\ (forall p, In p l -> maxK p <= v)
  /\ (v = _maxMaxK acc \/ In v (map maxK l)).
Proof.
  induction l as [|p l IH]; intros acc; simpl.
  - repeat split; [lra | tauto | now left].
  - specialize (IH (accumulate acc p)); simpl in IH.
    destruct IH as (Hge & Hub & Hin).
    destruct (d_gt (maxK p) (_maxMaxK acc)) eqn:E.
    + apply d_gt_true in E. repeat split.
      * lra.
      * intros q [<-|Hq]; [lra | now apply Hub].
      * destruct Hin as [->|Hin]; right; [now left | now right].
    + apply d_gt_false in E. repeat split.
      * lra.
      * intros q [<-|Hq]; [lra | now apply Hub].
      * destruct Hin as [->|Hin]; [now left | right; now right].
Qed.

(** Once the running minimum is positive, and while the members have a
    positive [stepK], it is the smallest value seen. *)
Lemma accumulate_minStepK_pos l : forall acc,
  0 < _minStepK acc ->
  (forall p, In p l -> 0 < stepK p) ->
  let v := _minStepK (fold_left accumulate l acc) in
  v <= _minStepK acc
  /\ (forall p, In p l -> v <= stepK p)
  /\ (v = _minStepK acc \/ In v (map stepK l)).
Proof.
  induction l as [|p l IH]; intros acc Hpos Hl; simpl.
  - repeat split; [lra | tauto | now left].
  - assert (Hle : d_le (_minStepK acc) 0 = false) by (apply d_le_false; lra).
    assert (Hp : 0 < stepK p) by (apply Hl; now left).
    assert (Hrest : forall q, In q l -> 0 < stepK q) by (intros q Hq; apply Hl; now right).
    specialize (IH (accumulate acc p)); simpl in IH.
    rewrite Hle in IH; simpl in IH.
    destruct (d_lt (stepK p) (_minStepK acc)) eqn:E.
    + apply d_lt_true in E.
      destruct (IH Hp Hrest) as (Hge & Hlb & Hin).
      repeat split.
      * lra.
      * intros q [<-|Hq]; [lra | now apply Hlb].
      * destruct Hin as [->|Hin]; right; [now left | now right].
    + apply d_lt_false in E.
      destruct (IH Hpos Hrest) as (Hge & Hlb & Hin).
      repeat split.
      * lra.
      * intros q [<-|Hq]; [lra | now apply Hlb].
      * destruct Hin as [->|Hin]; [now left | right; now right].
Qed.

(** The reductions of [initialize] over any member list. *)
Lemma initialize_plist gs plist : _plist (initialize gs plist) = plist.
Proof. unfold initialize; now rewrite accumulate_plist. Qed.

Lemma initialize_maxK gs plist :
  plist <> [] ->
  (forall p, In p plist -> 0 <= maxK p) ->
  is_maximum (_maxMaxK (initialize gs plist)) (map maxK plist).
Proof.
  intros Hne Hpos. unfold initialize.
  match goal with |- is_maximum (_maxMaxK (fold_left _ _ ?a)) _ =>
    destruct (accumulate_maxMaxK plist a) as (Hge & Hub & Hin) end.
  simpl in Hge, Hin.
  split.
  - destruct Hin as [H0|Hin]; [|exact Hin].
    destruct plist as [|p l]; [congruence|].
    assert (maxK p = 0).
    { specialize (Hub p (or_introl eq_refl)). specialize (Hpos p (or_introl eq_refl)).
      rewrite H0 in Hub. lra. }
    rewrite H0. left. exact H.
  - intros x Hx. apply in_map_iff in Hx. destruct Hx as (p & <- & Hp). now apply Hub.
Qed.

Lemma initialize_stepK gs plist :
  plist <> [] ->
  (forall p, In p plist -> 0 < stepK p) ->
  is_minimum (_minStepK (initialize gs plist)) (map stepK plist).
Proof.
  intros Hne Hpos. unfold initialize.
  destruct plist as [|p l]; [congruence|].
  assert (Hp : 0 < stepK p) by (apply Hpos; now left).
  cbn [fold_left].
  match goal with |- is_minimum (_minStepK (fold_left _ _ ?a)) _ =>
    destruct (accumulate_minStepK_pos l a) as (Hge & Hlb & Hin) end.
  - simpl. unfold d_le. destruct (Rle_dec 0 0); [simpl; exact Hp | lra].
  - intros q Hq; apply Hpos; now right.
  - assert (E : _minStepK (accumulate
        {| gsparams := gs; _plist := p :: l; _sumflux := 0; _sumfx := 0; _sumfy := 0;
           _maxMaxK := 0; _minStepK := 0; _allAxisymmetric := true;
           _allAnalyticX := true; _allAnalyticK := true; _anyHardEdges := false |} p)
        = stepK p).
    { simpl. unfold d_le. destruct (Rle_dec 0 0); [reflexivity | lra]. }
    rewrite E in Hge, Hin.
    split.
    + destruct Hin as [->|Hin]; [now left | now right].
    + intros x [<-|Hx]; [exact Hge|].
      apply in_map_iff in Hx. destruct Hx as (q & <- & Hq). now apply Hlb.
Qed.

(** The sums of [initialize], in the order the loop adds them up. *)
Lemma accumulate_sums l : forall acc,
  _sumflux (fold_left accumulate l acc)
  = fold_left (fun s p => s + getFlux p) l (_sumflux acc)
  /\ _sumfx (fold_left accumulate l acc)
     = fold_left (fun s p => s + getFlux p * pos_x (centroid p)) l (_sumfx acc)
  /\ _sumfy (fold_left accumulate l acc)
     = fold_left (fun s p => s + getFlux p * pos_y (centroid p)) l (_sumfy acc).
Proof.
  induction l as [|p l IH]; intros acc; [repeat split|].
  cbn [fold_left]. destruct (IH (accumulate acc p)) as (H1 & H2 & H3).
  rewrite H1, H2, H3. repeat split.
Qed.

(** C1, as the code has it.  The reduced properties of a constructed
    composite are one-pass reductions over its member list: the flux is
    the sum of the members' fluxes, accumulated from zero in member
    order, the centroid the flux-weighted sum of the members' centroids
    over the total flux, the three "all" flags the conjunction and the
    hard-edge flag the disjunction of the members' flags.  [maxK] is the
    maximum of the members' [maxK] for a composite that has a member and
    whose members have no negative [maxK], and [stepK] is the minimum of
    the members' [stepK] for a composite that has a member and whose
    members all have a positive [stepK]. *)
Theorem composite_reductions (slist : list SBProfile) (gs : GSParamsPtr)
  (sba : SBAddImpl) :
  SBAddImpl_new slist gs = Ok sba ->
  let members := getObjs sba in
  getFlux (Add sba) = accumulated getFlux members
  /\ centroid (Add sba)
     = mkPosition
         (accumulated (fun p => getFlux p * pos_x (centroid p)) members
          / accumulated getFlux members)
         (accumulated (fun p => getFlux p * pos_y (centroid p)) members
          / accumulated getFlux members)
  /\ (members <> [] -> (forall p, In p members -> 0 <= maxK p) ->
      is_maximum (maxK (Add sba)) (map maxK members))
  /\ (members <> [] -> (forall p, In p members -> 0 < stepK p) ->
      is_minimum (stepK (Add sba)) (map stepK members))
  /\ isAxisymmetric (Add sba) = forallb isAxisymmetric members
  /\ isAnalyticX (Add sba) = forallb isAnalyticX members
  /\ isAnalyticK (Add sba) = forallb isAnalyticK members
  /\ hasHardEdges (Add sba) = existsb hasHardEdges members.
Proof.
  unfold SBAddImpl_new, bind.
  intros Hnew.
  assert (Hsba : exists gs', sba = initialize gs' (fold_left add slist [])).
  { destruct gs as [g|]; [|destruct (front slist)]; inversion Hnew; eauto. }
  destruct Hsba as (gs' & ->). clear Hnew.
  cbn zeta. unfold getObjs. rewrite initialize_plist.
  set (plist := fold_left add slist []).
  simpl. unfold SBAddImpl_getFlux, SBAddImpl_centroid, SBAddImpl_maxK, SBAddImpl_stepK,
    SBAddImpl_isAxisymmetric, SBAddImpl_isAnalyticX, SBAddImpl_isAnalyticK,
    SBAddImpl_hasHardEdges.
  destruct (accumulate_sums plist
              {| gsparams := gs';
                 _plist := plist;
                 _sumflux := 0; _sumfx := 0; _sumfy := 0;
                 _maxMaxK := 0; _minStepK := 0;
                 _allAxisymmetric := true; _allAnalyticX := true;
                 _allAnalyticK := true; _anyHardEdges := false |})
    as (Hflux & Hfx & Hfy).
  cbn [_sumflux _sumfx _sumfy] in Hflux, Hfx, Hfy.
  fold (initialize gs' plist) in Hflux, Hfx, Hfy.
  repeat split.
  - exact Hflux.
  - rewrite Hflux, Hfx, Hfy. reflexivity.
  - apply initialize_maxK; assumption.
  - intros x Hx. eapply initialize_maxK; eassumption.
  - apply initialize_stepK; assumption.
  - intros x Hx. eapply initialize_stepK; eassumption.
  - unfold initialize; now rewrite accumulate_allAxisymmetric.
  - unfold initialize; now rewrite accumulate_allAnalyticX.
  - unfold initialize; now rewrite accumulate_allAnalyticK.
  - unfold initialize; now rewrite accumulate_anyHardEdges.
Qed.


(** The reductions on the composite of the sample profiles [profA] and
    [profB]. *)
Lemma composite_reductions_witness :
  exists sba,
    SBAddImpl_new [Sample.profA; Sample.profB] None = Ok sba
    /\ getObjs sba = [Sample.profA; Sample.profB]
    /\ getFlux (Add sba) = 4
    /\ centroid (Add sba) = mkPosition 3 6
    /\ is_maximum (maxK (Add sba)) [10; 20]
    /\ is_minimum (stepK (Add sba)) [1; 0.5]
    /\ isAxisymmetric (Add sba) = false
    /\ hasHardEdges (Add sba) = true.
Proof.
  eexists. split; [reflexivity|].
  match goal with |- getObjs ?s = _ /\ _ =>
    pose proof (composite_reductions [Sample.profA; Sample.profB] None s eq_refl) as H;
    assert (Hm : getObjs s = [Sample.profA; Sample.profB])
      by (unfold getObjs; now rewrite initialize_plist)
  end.
  cbn zeta in H. rewrite Hm in H.
  destruct H as (Hflux & Hcen & Hmax & Hmin & Hax & _ & _ & Hhe).
  split; [exact Hm|].
  split; [rewrite Hflux; unfold accumulated; simpl; lra|].
  split; [rewrite Hcen; unfold accumulated; simpl; f_equal; field|].
  split.
  { apply Hmax; [discriminate|]. intros p [<-|[<-|[]]]; simpl; lra. }
  split.
  { apply Hmin; [discriminate|]. intros p [<-|[<-|[]]]; simpl; lra. }
  split; [rewrite Hax; reflexivity | rewrite Hhe; reflexivity].
Defined.

(** The composite of [profD], [profE] and [profF], whose [maxK] are -1,
    -2 and -2 and whose [stepK] are 1, 0 and 2: its [maxK] is 0, which
    is no [maxK] of a member, and its [stepK] is 2, while the smallest
    positive [stepK] of a member is 1. *)
Lemma reductions_of_limits_not_positive :
  exists sba,
    SBAddImpl_new [Sample.profD; Sample.profE; Sample.profF] None = Ok sba
    /\ map maxK (getObjs sba) = [-1; -2; -2]
    /\ maxK (Add sba) = 0
    /\ ~ is_maximum (maxK (Add sba)) (map maxK (getObjs sba))
    /\ map stepK (getObjs sba) = [1; 0; 2]
    /\ stepK (Add sba) = 2
    /\ is_minimum 1 [1; 2]
    /\ ~ is_minimum (stepK (Add sba)) [1; 2].
Proof.
  eexists. split; [reflexivity|].
  match goal with |- map maxK (getObjs ?s) = _ /\ _ =>
    assert (Hm : getObjs s = [Sample.profD; Sample.profE; Sample.profF])
      by (unfold getObjs; now rewrite initialize_plist);
    assert (Hmax : maxK (Add s) = 0);
    [| assert (Hmin : stepK (Add s) = 2) ]
  end.
  - cbn [maxK]. unfold SBAddImpl_maxK, initialize.
    cbn [fold_left add as_SBAddImpl Sample.profD Sample.profE Sample.profF app].
    cbn [accumulate _maxMaxK].
    change (maxK Sample.profD) with (-1). change (maxK Sample.profE) with (-2).
    change (maxK Sample.profF) with (-2).
    replace (d_gt (-1) 0) with false by (symmetry; apply d_gt_false; lra).
    cbv iota.
    replace (d_gt (-2) 0) with false by (symmetry; apply d_gt_false; lra).
    cbv iota.
    replace (d_gt (-2) 0) with false by (symmetry; apply d_gt_false; lra).
    reflexivity.
  - cbn [stepK]. unfold SBAddImpl_stepK, initialize.
    cbn [fold_left add as_SBAddImpl Sample.profD Sample.profE Sample.profF app].
    cbn [accumulate _minStepK].
    change (stepK Sample.profD) with 1. change (stepK Sample.profE) with 0.
    change (stepK Sample.profF) with 2.
    replace (d_le 0 0) with true by (symmetry; apply d_le_true; lra).
    cbn [orb]. cbv iota.
    replace (d_le 1 0) with false by (symmetry; apply d_le_false; lra).
    replace (d_lt 0 1) with true by (symmetry; apply d_lt_true; lra).
    cbn [orb]. cbv iota.
    replace (d_le 0 0) with true by (symmetry; apply d_le_true; lra).
    reflexivity.
  - rewrite Hm, Hmax, Hmin. cbn [map].
    change (maxK Sample.profD) with (-1). change (maxK Sample.profE) with (-2).
    change (maxK Sample.profF) with (-2).
    change (stepK Sample.profD) with 1. change (stepK Sample.profE) with 0.
    change (stepK Sample.profF) with 2.
    split; [reflexivity|]. split; [reflexivity|]. split.
    { intros [Hin _]. destruct Hin as [H|[H|[H|[]]]]; lra. }
    split; [reflexivity|]. split; [reflexivity|]. split.
    { split; [now left|]. intros x [<-|[<-|[]]]; lra. }
    intros [_ Hle]. specialize (Hle 1 (or_introl eq_refl)). lra.
Qed.

(** *** Flattening *)

Lemma add_summands plist rhs : add plist rhs = plist ++ summands rhs.
Proof. unfold add, summands. now destruct (as_SBAddImpl rhs). Qed.

Lemma fold_add slist : forall plist,
  fold_left add slist plist = plist ++ flat_map summands slist.
Proof.
  induction slist as [|p slist IH]; intros plist; simpl.
  - now rewrite app_nil_r.
  - now rewrite IH, add_summands, app_assoc.
Qed.

Lemma SBAddImpl_new_inv slist gs sba :
  SBAddImpl_new slist gs = Ok sba ->
  exists gs', sba = initialize gs' (flat_map summands slist).
Proof.
  unfold SBAddImpl_new, bind. rewrite fold_add. simpl.
  destruct gs as [g|]; [|destruct (front slist)]; intros Hnew; inversion Hnew; eauto.
Qed.

Lemma SBAddImpl_new_members slist gs sba :
  SBAddImpl_new slist gs = Ok sba -> getObjs sba = flat_map summands slist.
Proof.
  intros Hnew. apply SBAddImpl_new_inv in Hnew. destruct Hnew as (gs' & ->).
  unfold getObjs. apply initialize_plist.
Qed.

(** Construction from a list that has a first profile succeeds. *)
Lemma SBAddImpl_new_cons p slist gs :
  exists sba, SBAddImpl_new (p :: slist) gs = Ok sba.
Proof. unfold SBAddImpl_new. destruct gs; simpl; eauto. Qed.

Lemma summands_simple p : is_SBAdd p = false -> summands p = [p].
Proof. unfold is_SBAdd, summands. destruct (as_SBAddImpl p); [discriminate | reflexivity]. Qed.

Lemma summands_composite sba : summands (Add sba) = getObjs sba.
Proof. reflexivity. Qed.

Lemma constructed_flat p :
  constructed p -> forall m, In m (summands p) -> is_SBAdd m = false.
Proof.
  induction 1 as [o | slist gs sba Hc IH Hnew]; intros m Hm.
  - destruct Hm as [<-|[]]. reflexivity.
  - rewrite summands_composite, (SBAddImpl_new_members _ _ _ Hnew) in Hm.
    apply in_flat_map in Hm. destruct Hm as (p & Hp & Hm).
    now apply (IH p Hp).
Qed.

(** C2. Construction flattens.  A composite built from [A] and a composite
    of [B] and [C] has the member list of the composite built from [A],
    [B] and [C], which is the three-member list of [A], [B] and [C] when
    none of them is a composite; and no member of a composite that
    construction can produce is a composite. *)
Theorem construction_flattens :
  (forall (A B C : SBProfile) (gs1 gs2 gs3 : GSParamsPtr),
     exists BC nested direct,
       SBAdd_new [B; C] gs1 = Ok BC
       /\ SBAddImpl_new [A; BC] gs2 = Ok nested
       /\ SBAddImpl_new [A; B; C] gs3 = Ok direct
       /\ getObjs nested = getObjs direct
       /\ (is_SBAdd A = false -> is_SBAdd B = false -> is_SBAdd C = false ->
           getObjs nested = [A; B; C]))
  /\ (forall sba : SBAddImpl,
        constructed (Add sba) ->
        forall m, In m (getObjs sba) -> is_SBAdd m = false).
Proof.
  split.
  - intros A B C gs1 gs2 gs3.
    destruct (SBAddImpl_new_cons B [C] gs1) as (bc & Hbc).
    destruct (SBAddImpl_new_cons A [Add bc] gs2) as (nested & Hnested).
    destruct (SBAddImpl_new_cons A [B; C] gs3) as (direct & Hdirect).
    exists (Add bc), nested, direct.
    assert (Hflat : getObjs nested = summands A ++ summands B ++ summands C).
    { rewrite (SBAddImpl_new_members _ _ _ Hnested). simpl.
      rewrite summands_composite, (SBAddImpl_new_members _ _ _ Hbc). simpl.
      now rewrite !app_nil_r. }
    repeat split.
    + unfold SBAdd_new. now rewrite Hbc.
    + exact Hnested.
    + exact Hdirect.
    + rewrite Hflat, (SBAddImpl_new_members _ _ _ Hdirect). simpl.
      now rewrite app_nil_r.
    + intros HA HB HC. rewrite Hflat.
      now rewrite (summands_simple _ HA), (summands_simple _ HB), (summands_simple _ HC).
  - intros sba Hc m Hm. now apply (constructed_flat _ Hc).
Qed.

(** Flattening on the three sample profiles. *)
Lemma construction_flattens_witness :
  (exists BC nested,
     SBAdd_new [Sample.profB; Sample.profC] None = Ok BC
     /\ SBAddImpl_new [Sample.profA; BC] None = Ok nested
     /\ constructed (Add nested)
     /\ getObjs nested = [Sample.profA; Sample.profB; Sample.profC])
  /\ Forall (fun m => is_SBAdd m = false)
       [Sample.profA; Sample.profB; Sample.profC].
Proof.
  destruct construction_flattens as (Hflat & Hmem).
  destruct (Hflat Sample.profA Sample.profB Sample.profC None None None)
    as (BC & nested & direct & HBC & Hnested & Hdirect & Heq & H3).
  specialize (H3 eq_refl eq_refl eq_refl).
  assert (Hc : constructed (Add nested)).
  { unfold SBAdd_new, bind in HBC.
    destruct (SBAddImpl_new [Sample.profB; Sample.profC] None) as [bc| |] eqn:Hbc;
      try discriminate.
    inversion HBC; subst BC.
    apply (constructed_add [Sample.profA; Add bc] None); [|exact Hnested].
    intros p [<-|[<-|[]]].
    - apply constructed_other.
    - apply (constructed_add [Sample.profB; Sample.profC] None); [|exact Hbc].
      intros q [<-|[<-|[]]]; apply constructed_other. }
  split.
  - exists BC, nested. repeat split; assumption.
  - rewrite <- H3. apply Forall_forall. intros m Hm. now apply (Hmem nested Hc).
Defined.

(** *** The empty member list *)

(** The claim of the specification, that an empty member list is rejected,
    fails: with parameters given, construction succeeds. *)
Lemma empty_list_accepted :
  ~ throws (SBAddImpl_new [] (Some Sample.params))
  /\ exists sba, SBAddImpl_new [] (Some Sample.params) = Ok sba /\ getObjs sba = [].
Proof.
  split.
  - intros (e & He). discriminate He.
  - eexists. split; reflexivity.
Qed.

(** C9, as the code has it.  The constructor validates nothing and never
    throws.  On an empty member list with parameters given it builds a
    composite without members, whose sums and band limits are zero, whose
    "all" flags hold and which has no hard edges; on an empty list
    without parameters it reads the front of the empty list, which is
    undefined. *)
Theorem empty_list_construction :
  (forall (slist : list SBProfile) (gs : GSParamsPtr),
     ~ throws (SBAddImpl_new slist gs))
  /\ (forall g : GSParams,
        SBAddImpl_new [] (Some g)
        = Ok {| gsparams := Some g; _plist := [];
                _sumflux := 0; _sumfx := 0; _sumfy := 0;
                _maxMaxK := 0; _minStepK := 0;
                _allAxisymmetric := true; _allAnalyticX := true;
                _allAnalyticK := true; _anyHardEdges := false |})
  /\ SBAddImpl_new [] None = Undefined.
Proof.
  repeat split.
  intros slist gs (e & He). unfold SBAddImpl_new, bind in He.
  destruct gs as [g|]; [discriminate|].
  destruct (front slist) eqn:Hf; try discriminate.
  destruct slist; discriminate.
Qed.


(** *** Photon shooting *)

Section ShootFacts.
Context `{MemberShoot}.

Lemma fold_left_sum (f : SBProfile -> double) l : forall a,
  fold_left (fun result pptr => result + f pptr) l a = a + sum_of f l.
Proof.
  induction l as [|p l IH]; intros a; simpl; [lra|].
  rewrite IH. lra.
Qed.

Lemma sum_of_plus (f g : SBProfile -> double) l :
  sum_of f l + sum_of g l = sum_of (fun p => f p + g p) l.
Proof. induction l as [|p l IH]; simpl; [lra|]. rewrite <- IH. lra. Qed.

(** The total absolute flux of [shoot] is the sum of the members'
    absolute fluxes. *)
Lemma totalAbsoluteFlux_sum (sba : SBAddImpl) :
  SBAddImpl_getPositiveFlux sba + SBAddImpl_getNegativeFlux sba
  = sum_of absoluteFlux (getObjs sba).
Proof.
  unfold SBAddImpl_getPositiveFlux, SBAddImpl_getNegativeFlux, getObjs.
  cbn [getPositiveFlux getNegativeFlux].
  rewrite (fold_left_sum getPositiveFlux), (fold_left_sum getNegativeFlux).
  rewrite !Rplus_0_l. apply sum_of_plus.
Qed.

Lemma photons_scaleFlux pa scale :
  photons (scaleFlux pa scale) = rescale scale (photons pa).
Proof. reflexivity. Qed.

(** The loop against the allocation of the specification: while the
    remaining absolute flux is the sum over the members not yet processed,
    the loop appends the sub-samples of the allocation, in order, leaves
    the generator where the allocation leaves it, and does not touch the
    correlation flag. *)
Lemma shoot_loop_allocate (fluxPerPhoton : double) (pptr : list SBProfile) :
  forall st : shoot_state,
    remainingAbsoluteFlux st = sum_of absoluteFlux pptr ->
    let run := allocate fluxPerPhoton pptr (remainingN st) (gen st) in
    let st' := shoot_loop fluxPerPhoton pptr st in
    photons (result st') = photons (result st) ++ flat_map alloc_photons (fst run)
    /\ gen st' = snd run
    /\ _is_correlated (result st') = _is_correlated (result st).
Proof.
  induction pptr as [|p nextPtr IH]; intros st Hflux.
  - simpl. now rewrite app_nil_r.
  - cbn [shoot_loop allocate]. cbn zeta.
    fold (absoluteFlux p). rewrite Hflux.
    set (draw := match nextPtr with
                 | [] => (remainingN st, gen st)
                 | _ :: _ => BinomialDeviate (gen st) (remainingN st)
                               (absoluteFlux p / sum_of absoluteFlux (p :: nextPtr))
                 end).
    destruct draw as [thisN u1].
    rewrite Z.gtb_ltb.
    set (drawn := if (0 <? thisN)%Z
                  then let '(thisPA, u2) := SBProfile_shoot p thisN u1 in
                       (append (result st)
                          (scaleFlux thisPA (fluxPerPhoton * IZR thisN / absoluteFlux p)), u2)
                  else (result st, u1)).
    set (sub := if (0 <? thisN)%Z
                then let '(pa, u) := SBProfile_shoot p thisN u1 in
                     (rescale (fluxPerPhoton * IZR thisN / absoluteFlux p) (photons pa), u)
                else ([], u1)).
    assert (Hdrawn : photons (fst drawn) = photons (result st) ++ fst sub
                     /\ snd drawn = snd sub
                     /\ _is_correlated (fst drawn) = _is_correlated (result st)).
    { subst drawn sub. destruct (0 <? thisN)%Z.
      - destruct (SBProfile_shoot p thisN u1) as [pa u2]. simpl. auto.
      - simpl. now rewrite app_nil_r. }
    destruct drawn as [result' u2]. destruct sub as [photons' u2'].
    simpl in Hdrawn. destruct Hdrawn as (Hph & <- & Hcorr).
    cbn [remainingN remainingAbsoluteFlux].
    assert (Hrest : sum_of absoluteFlux (p :: nextPtr) - absoluteFlux p
                    = sum_of absoluteFlux nextPtr) by (simpl; lra).
    rewrite Hrest.
    destruct (remainingN st - thisN <=? 0)%Z.
    + simpl. rewrite Hph, app_nil_r. auto.
    + destruct (d_le (sum_of absoluteFlux nextPtr) 0).
      * simpl. rewrite Hph, app_nil_r. auto.
      * simpl.
        specialize (IH {| result := result';
                          remainingAbsoluteFlux := sum_of absoluteFlux nextPtr;
                          remainingN := (remainingN st - thisN)%Z;
                          gen := u2 |} eq_refl).
        cbn [remainingN gen result] in IH. cbn zeta in IH.
        destruct (allocate fluxPerPhoton nextPtr (remainingN st - thisN) u2) as [more u3].
        destruct IH as (IHph & IHgen & IHcorr).
        simpl. rewrite IHph, Hph, <- app_assoc. simpl in IHgen. rewrite IHcorr. auto.
Qed.


(** The flag of the photons of [shoot] is decided by the size of the
    member list. *)
Lemma shoot_isCorrelated (sba : SBAddImpl) (N : Z) (u : rng) :
  isCorrelated (fst (shoot sba N u)) = (1 <? List.length (getObjs sba))%nat.
Proof.
  unfold shoot, isCorrelated. cbn [fst].
  match goal with |- context [shoot_loop ?f ?l ?s] =>
    destruct (shoot_loop_allocate f l s) as (_ & _ & Hcorr)
  end.
  - cbn [remainingAbsoluteFlux]. apply totalAbsoluteFlux_sum.
  - unfold getObjs. destruct (1 <? List.length (_plist sba))%nat; [reflexivity|].
    rewrite Hcorr. reflexivity.
Qed.

(** C4, as the code has it.  [shoot] marks the photons it returns as
    correlated exactly when the composite has more than one member, and
    leaves them uncorrelated when it has at most one, whatever number of
    members contributed photons. *)
Theorem shoot_correlated_by_size (sba : SBAddImpl) (N : Z) (u : rng) :
  (isCorrelated (fst (shoot sba N u)) = true
   <-> (1 < List.length (getObjs sba))%nat)
  /\ (isCorrelated (fst (shoot sba N u)) = false
      <-> (List.length (getObjs sba) <= 1)%nat).
Proof.
  rewrite shoot_isCorrelated.
  destruct (Nat.ltb_spec 1 (List.length (getObjs sba))); split; split;
    intros; try (discriminate || reflexivity || lia).
Qed.

End ShootFacts.

(** *** Runs on the sample data *)


Lemma scripted_draw_sure (u : list Z) (n : Z) (p : double) :
  1 <= p ->
  @BinomialDeviate Sample.scripted u n p = (n, tl u).
Proof.
  intros Hp. cbn [BinomialDeviate Sample.scripted].
  replace (d_le 1 p) with true by (symmetry; apply d_le_true; lra).
  reflexivity.
Qed.

Lemma absoluteFlux_profA : absoluteFlux Sample.profA = 1.
Proof. unfold absoluteFlux; simpl; lra. Qed.

Lemma absoluteFlux_profB : absoluteFlux Sample.profB = 3.
Proof. unfold absoluteFlux; simpl; lra. Qed.

Lemma absoluteFlux_profC : absoluteFlux Sample.profC = 0.
Proof. unfold absoluteFlux; simpl; lra. Qed.


(** Of four photons shot from the composite of [profA] and the fluxless
    [profC], the first member draws all four, and it alone contributes. *)
Lemma sample_run_AC :
  @contributors
    (fst (@allocate Sample.scripted Sample.point_shoot
            (sum_of absoluteFlux [Sample.profA; Sample.profC] / IZR 4)
            [Sample.profA; Sample.profC] 4 []))
  = [Sample.profA].
Proof.
  cbn [allocate sum_of fold_right].
  rewrite absoluteFlux_profA, absoluteFlux_profC.
  rewrite scripted_draw_sure by lra.
  reflexivity.
Qed.


(** The claim of the specification, that the photons are marked
    correlated exactly when more than one member contributed, fails: the
    composite of [profA] and the fluxless [profC] has two members of which
    one contributes, and its photons are marked correlated. *)
Lemma correlated_with_one_contributor :
  let sba := initialize None [Sample.profA; Sample.profC] in
  let run := @allocate Sample.scripted Sample.point_shoot
               (sum_of absoluteFlux (getObjs sba) / IZR 4) (getObjs sba) 4 [] in
  isCorrelated (fst (@shoot Sample.scripted Sample.point_shoot sba 4 [])) = true
  /\ contributors (fst run) = [Sample.profA]
  /\ ~ (isCorrelated (fst (@shoot Sample.scripted Sample.point_shoot sba 4 [])) = true
        <-> (1 < List.length (contributors (fst run)))%nat).
Proof.
  cbn zeta.
  assert (Hc : isCorrelated (fst (@shoot Sample.scripted Sample.point_shoot
                 (initialize None [Sample.profA; Sample.profC]) 4 [])) = true).
  { rewrite shoot_isCorrelated. unfold getObjs. now rewrite initialize_plist. }
  assert (Hr : contributors (fst (@allocate Sample.scripted Sample.point_shoot
                 (sum_of absoluteFlux (getObjs (initialize None [Sample.profA; Sample.profC]))
                  / IZR 4)
                 (getObjs (initialize None [Sample.profA; Sample.profC])) 4 []))
               = [Sample.profA]).
  { unfold getObjs. rewrite initialize_plist. exact sample_run_AC. }
  split; [exact Hc|]. split; [exact Hr|].
  rewrite Hr. intros [Hlt _]. specialize (Hlt Hc). simpl in Hlt. lia.
Qed.

End SBAddFacts.

(** * Properties of the Spergel profile *)

Module SBSpergelFacts.

Import Solver SBSpergel.
Import SBAddFacts.

Section InfoFacts.
Context {ML : MathLib} {SB : SpergelBounds} {RF : RootFinder}.

(** A record that the constructor returns has an index within the bounds
    and holds what the initialiser list computes. *)
Lemma SpergelInfo_new_inv (nu : double) (gs : GSParams) (info : SpergelInfo) :
  SpergelInfo_new nu gs = Ok info ->
  minimum_spergel_nu <= nu <= maximum_spergel_nu
  /\ info = {| _nu := nu; _gsparams := gs;
               _gamma_nup1 := tgamma (nu + 1);
               _gamma_nup2 := tgamma (nu + 1) * (nu + 1);
               _xnorm0 := if d_gt nu 0
                          then Finite (tgamma (nu + 1) / (2 * nu) * pow 2 nu)
                          else INFINITY;
               _maxk := 0; _stepk := 0; _re := 0;
               _radial := None; _sampler := None |}.
Proof.
  unfold SpergelInfo_new.
  destruct (d_lt nu minimum_spergel_nu) eqn:Hlo; [discriminate|].
  destruct (d_gt nu maximum_spergel_nu) eqn:Hhi; [discriminate|].
  apply d_lt_false in Hlo. apply d_gt_false in Hhi. simpl.
  intros Hnew. inversion Hnew. split; [lra | reflexivity].
Qed.

Lemma SpergelInfo_new_valid (nu : double) (gs : GSParams) :
  minimum_spergel_nu <= nu <= maximum_spergel_nu ->
  exists info, SpergelInfo_new nu gs = Ok info.
Proof.
  intros [Hlo Hhi]. unfold SpergelInfo_new.
  replace (d_lt nu minimum_spergel_nu) with false by (symmetry; apply d_lt_false; lra).
  replace (d_gt nu maximum_spergel_nu) with false by (symmetry; apply d_gt_false; lra).
  simpl. eauto.
Qed.

Lemma xValue_origin (info : SpergelInfo) : xValue info 0 = _xnorm0 info.
Proof.
  unfold xValue.
  replace (d_eq 0 0) with true by (symmetry; now apply d_eq_true).
  reflexivity.
Qed.

(** C7, as the code has it.  At the origin [xValue] returns the constant
    [_xnorm0] that the constructor computed; for every valid index this
    constant is [Gamma(nu+1) / (2 nu) * 2^nu], a finite value, when
    [nu > 0], and is [INFINITY] when [nu <= 0]. *)
Theorem xValue_at_origin (nu : double) (gs : GSParams) (info : SpergelInfo) :
  SpergelInfo_new nu gs = Ok info ->
  xValue info 0 = _xnorm0 info
  /\ (0 < nu -> xValue info 0 = Finite (tgamma (nu + 1) / (2 * nu) * pow 2 nu))
  /\ (nu <= 0 -> xValue info 0 = INFINITY)
  /\ (isfinite (xValue info 0) = true <-> 0 < nu).
Proof.
  intros Hnew. apply SpergelInfo_new_inv in Hnew. destruct Hnew as (_ & ->).
  rewrite xValue_origin. cbn [_xnorm0].
  destruct (d_gt nu 0) eqn:Hnu.
  - apply d_gt_true in Hnu. repeat split; intros; try reflexivity; try lra.
  - apply d_gt_false in Hnu. repeat split; intros; try reflexivity; try lra.
    discriminate.
Qed.

End InfoFacts.

(** The value at the origin for the indices 0.5 and -0.5. *)
Lemma xValue_at_origin_witness :
  (exists info,
     @SpergelInfo_new Sample.mathlib Sample.bounds 0.5 Sample.params = Ok info
     /\ @xValue Sample.mathlib info 0 = Finite (1 / (2 * 0.5) * 1))
  /\ (exists info,
        @SpergelInfo_new Sample.mathlib Sample.bounds (-0.5) Sample.params = Ok info
        /\ @xValue Sample.mathlib info 0 = INFINITY).
Proof.
  split.
  - destruct (@SpergelInfo_new_valid Sample.mathlib Sample.bounds 0.5 Sample.params)
      as (info & Hinfo); [simpl; lra|].
    exists info. split; [exact Hinfo|].
    destruct (@xValue_at_origin Sample.mathlib Sample.bounds 0.5 Sample.params info Hinfo)
      as (_ & Hpos & _).
    apply Hpos. lra.
  - destruct (@SpergelInfo_new_valid Sample.mathlib Sample.bounds (-0.5) Sample.params)
      as (info & Hinfo); [simpl; lra|].
    exists info. split; [exact Hinfo|].
    destruct (@xValue_at_origin Sample.mathlib Sample.bounds (-0.5) Sample.params info Hinfo)
      as (_ & _ & Hneg & _).
    apply Hneg. lra.
Defined.

(** The claim of the specification, that the constant returned at the
    origin is finite for every valid index, fails at the valid index
    -0.5. *)
Lemma xValue_origin_not_finite :
  exists info,
    @SpergelInfo_new Sample.mathlib Sample.bounds (-0.5) Sample.params = Ok info
    /\ @minimum_spergel_nu Sample.bounds <= -0.5 <= @maximum_spergel_nu Sample.bounds
    /\ isfinite (@xValue Sample.mathlib info 0) = false.
Proof.
  destruct (@SpergelInfo_new_valid Sample.mathlib Sample.bounds (-0.5) Sample.params)
    as (info & Hinfo); [simpl; lra|].
  exists info. split; [exact Hinfo|]. split; [simpl; lra|].
  apply SpergelInfo_new_inv in Hinfo. destruct Hinfo as (_ & ->).
  rewrite xValue_origin. cbn [_xnorm0].
  replace (d_gt (-0.5) 0) with false by (symmetry; apply d_gt_false; lra).
  reflexivity.
Qed.

(** *** The sample solver *)

(** Under the sample mathematics library and solver the radius that
    encloses the flux fraction [f] is [8 f]. *)
Lemma sample_flux_radius (info : SpergelInfo) (f : double) :
  _nu info + 1 <> 0 ->
  _gamma_nup2 info = _nu info + 1 ->
  @calculateFluxRadius Sample.mathlib Sample.affine_solver info f = Ok (8 * f).
Proof.
  intros Hnu Hg2.
  assert (Hg : forall u,
    @SpergelIntegratedFlux_call Sample.mathlib
      (mkSpergelIntegratedFlux (_nu info) (_gamma_nup2 info) f) u = u / 8 - f).
  { intros u. unfold SpergelIntegratedFlux_call. cbn. rewrite Hg2. field. exact Hnu. }
  unfold calculateFluxRadius, bracketLowerWithLimit, bracketUpper, root, bind.
  set (g := @SpergelIntegratedFlux_call Sample.mathlib
              (mkSpergelIntegratedFlux (_nu info) (_gamma_nup2 info) f)) in *.
  assert (Hroot : forall lb ub tol m_,
            @find_root Sample.affine_solver g lb ub tol m_ = Ok (8 * f)).
  { intros. cbn [find_root Sample.affine_solver].
    assert (Hd : g 1 - g 0 = / 8) by (rewrite !Hg; lra).
    assert (H0 : g 0 = - f) by (rewrite Hg; lra).
    assert (Hx : - g 0 / (g 1 - g 0) = 8 * f) by (rewrite Hd, H0; field).
    rewrite Hx.
    replace (d_eq (g (8 * f)) 0) with true; [reflexivity|].
    symmetry. apply d_eq_true. rewrite Hg. field. }
  destruct (d_lt f 0.5);
    cbv beta iota delta [extend_lower_with_limit extend_upper Sample.affine_solver
      setBounds setMethod setXTolerance Solve_new func lBound uBound xTolerance m fst snd];
    rewrite Hroot; reflexivity.
Qed.

Section DerivedConstants.
Context {ML : MathLib} {SB : SpergelBounds} {RF : RootFinder}.

(** *** Memoization *)

(** The flux radius depends on the index and on Gamma(nu+2) only. *)
Lemma calculateFluxRadius_set_re (info : SpergelInfo) (v f : double) :
  calculateFluxRadius (set_re info v) f = calculateFluxRadius info f.
Proof. reflexivity. Qed.

Lemma calculateFluxRadius_set_stepk (info : SpergelInfo) (v f : double) :
  calculateFluxRadius (set_stepk info v) f = calculateFluxRadius info f.
Proof. reflexivity. Qed.


Lemma getHLR_fresh (info : SpergelInfo) (HLR : double) :
  _re info = 0 ->
  calculateFluxRadius info 0.5 = Ok HLR ->
  getHLR info = Ok (HLR, set_re info HLR).
Proof.
  intros Hre Hcalc. unfold getHLR.
  replace (d_eq (_re info) 0) with true by (symmetry; now apply d_eq_true).
  rewrite Hcalc. reflexivity.
Qed.

(** [stepK] on a record that has not computed it yet. *)
Lemma stepK_fresh (info : SpergelInfo) (R_ : double) :
  _stepk info = 0 ->
  calculateFluxRadius info (1 - folding_threshold (_gsparams info)) = Ok R_ ->
  stepK info
  = Ok (M_PI / std_max R_ (stepk_minimum_hlr (_gsparams info)),
        set_stepk info (M_PI / std_max R_ (stepk_minimum_hlr (_gsparams info)))).
Proof.
  intros Hstepk Hcalc. unfold stepK.
  replace (d_eq (_stepk info) 0) with true by (symmetry; now apply d_eq_true).
  rewrite Hcalc. reflexivity.
Qed.

Lemma std_max_left (a b : double) : b <= a -> std_max a b = a.
Proof.
  intros Hle. unfold std_max.
  replace (d_lt a b) with false by (symmetry; apply d_lt_false; lra). reflexivity.
Qed.

Lemma std_max_right (a b : double) : a < b -> std_max a b = b.
Proof.
  intros Hlt. unfold std_max.
  replace (d_lt a b) with true by (symmetry; apply d_lt_true; lra). reflexivity.
Qed.

(** C6, against the claim.  On a record fresh from the constructor,
    [stepK] is [pi / max(R, stepk_minimum_hlr)], where [R] encloses
    [1 - folding_threshold] of the flux: the floor is the configured
    multiple itself, not the multiple of the half-light radius.  When [R]
    lies between the two, the code returns [pi / R], which differs from
    the [pi / (stepk_minimum_hlr * HLR)] of the claim. *)
Theorem stepK_floor_ignores_half_light_radius
  (nu : double) (gs : GSParams) (info : SpergelInfo) (R_ HLR : double) :
  SpergelInfo_new nu gs = Ok info ->
  calculateFluxRadius info (1 - folding_threshold gs) = Ok R_ ->
  calculateFluxRadius info 0.5 = Ok HLR ->
  0 < R_ ->
  stepk_minimum_hlr gs <= R_ < stepk_minimum_hlr gs * HLR ->
  exists info1 info2,
    stepK info = Ok (M_PI / R_, info1)
    /\ getHLR info = Ok (HLR, info2)
    /\ M_PI / std_max R_ (stepk_minimum_hlr gs * HLR)
       = M_PI / (stepk_minimum_hlr gs * HLR)
    /\ M_PI / R_ <> M_PI / std_max R_ (stepk_minimum_hlr gs * HLR).
Proof.
  intros Hnew HR HH Hpos [Hlo Hhi].
  apply SpergelInfo_new_inv in Hnew. destruct Hnew as (_ & ->).
  eexists. eexists. split; [|split; [|split]].
  - rewrite (stepK_fresh _ R_); [|reflexivity|exact HR].
    cbn [_gsparams]. rewrite std_max_left by exact Hlo. reflexivity.
  - apply getHLR_fresh; [reflexivity | exact HH].
  - now rewrite std_max_right.
  - rewrite std_max_right by exact Hhi.
    assert (Hpi : 0 < M_PI) by apply PI_RGT_0.
    set (c := stepk_minimum_hlr gs * HLR) in *.
    intros Heq.
    assert (E1 : M_PI / R_ * (R_ * c) = M_PI * c) by (field; lra).
    assert (E2 : M_PI / c * (R_ * c) = M_PI * R_) by (field; lra).
    rewrite Heq, E2 in E1. nra.
Qed.

(** *** The round trip *)

Lemma calculateFluxRadius_root (info : SpergelInfo) (f R_ : double) :
  returns_the_root ->
  calculateFluxRadius info f = Ok R_ ->
  exists x0, calculateIntegratedFlux info x0 = f /\ Rabs (R_ - x0) <= 1e-25.
Proof.
  intros Hroot. unfold calculateFluxRadius, bind.
  destruct (if d_lt f 0.5 then _ else _) as [solver| |] eqn:Hbr; try discriminate.
  destruct (root solver) as [r| |] eqn:Hr; try discriminate.
  intros Hok. inversion Hok; subst r.
  assert (Hs : func solver
               = SpergelIntegratedFlux_call
                   (mkSpergelIntegratedFlux (_nu info) (_gamma_nup2 info) f)
               /\ xTolerance solver = 1e-25).
  { destruct (d_lt f 0.5).
    - unfold bracketLowerWithLimit, bind in Hbr.
      destruct (extend_lower_with_limit _ _ _ _) as [bd| |]; try discriminate.
      inversion Hbr. split; reflexivity.
    - unfold bracketUpper, bind in Hbr.
      destruct (extend_upper _ _ _) as [bd| |]; try discriminate.
      inversion Hbr. split; reflexivity. }
  destruct Hs as (Hf & Htol).
  unfold root in Hr. rewrite Hf, Htol in Hr.
  apply Hroot in Hr; [|lra].
  destruct Hr as (x0 & Hx0 & Hnear).
  exists x0. split; [|exact Hnear].
  unfold calculateIntegratedFlux.
  unfold SpergelIntegratedFlux_call in *. cbn [sif_nu sif_gamma_nup2 sif_target] in *.
  lra.
Qed.

(** *** The constructor of [SBSpergelImpl] *)

Section ImplFacts.
Context {SC : SpergelCache}.

Lemma SBSpergelImpl_new_inv (nu size : double) (rType : RadiusType)
  (flux : double) (gs : GSParams) (impl : SBSpergelImpl) :
  SBSpergelImpl_new nu size rType flux gs = Ok impl ->
  exists (info0 : SpergelInfo) (HLR : double),
    cache_get nu gs = Ok info0
    /\ getHLR info0 = Ok (HLR, _info impl)
    /\ _inv_r0 impl = 1 / _r0 impl
    /\ _r0_sq impl = _r0 impl * _r0 impl
    /\ match rType with
       | HALF_LIGHT_RADIUS => impl_re impl = size /\ _r0 impl = size / HLR
       | SCALE_RADIUS => _r0 impl = size /\ impl_re impl = size * HLR
       end.
Proof.
  unfold SBSpergelImpl_new, bind.
  destruct (cache_get nu gs) as [info0| |] eqn:Hcache; try discriminate.
  destruct (getHLR info0) as [[HLR info1]| |] eqn:Hhlr; destruct rType;
    try discriminate;
    cbn [fst snd]; intros Hok; injection Hok as <-; cbn;
    exists info0, HLR; repeat split; try reflexivity; exact Hhlr.
Qed.


(** C5. The round trip through the two derived-constant operations.  Let
    the root finder return the root of its function within its tolerance,
    which [calculateFluxRadius] sets to 1e-25, and let the enclosed flux
    move by [eps] at most over that distance from the radius enclosing
    [f].  Then the flux integrated up to the radius that
    [calculateFluxRadius] returns for [f] is [f] up to [eps], for a shape
    record and for a profile instance with a scale radius that is not
    zero. *)
Theorem flux_radius_round_trip (eps : double) :
  returns_the_root ->
  (forall (info : SpergelInfo) (f R_ : double),
     flux_within info f eps ->
     calculateFluxRadius info f = Ok R_ ->
     Rabs (calculateIntegratedFlux info R_ - f) <= eps)
  /\ (forall (nu size : double) (rType : RadiusType) (flux : double)
        (gs : GSParams) (impl : SBSpergelImpl) (f R_ : double),
        SBSpergelImpl_new nu size rType flux gs = Ok impl ->
        _r0 impl <> 0 ->
        flux_within (_info impl) f eps ->
        SBSpergelImpl_calculateFluxRadius impl f = Ok R_ ->
        Rabs (SBSpergelImpl_calculateIntegratedFlux impl R_ - f) <= eps).
Proof.
  intros Hroot.
  assert (Hinfo : forall (info : SpergelInfo) (f R_ : double),
            flux_within info f eps ->
            calculateFluxRadius info f = Ok R_ ->
            Rabs (calculateIntegratedFlux info R_ - f) <= eps).
  { intros info f R_ Hwithin Hcalc.
    destruct (calculateFluxRadius_root info f R_ Hroot Hcalc) as (x0 & Hx0 & Hnear).
    exact (Hwithin x0 R_ Hx0 Hnear). }
  split; [exact Hinfo|].
  intros nu size rType flux gs impl f R_ Hnew Hr0 Hwithin Hcalc.
  apply SBSpergelImpl_new_inv in Hnew.
  destruct Hnew as (_ & _ & _ & _ & Hinv & _).
  unfold SBSpergelImpl_calculateFluxRadius, bind in Hcalc.
  destruct (calculateFluxRadius (_info impl) f) as [R0| |] eqn:HR0; try discriminate.
  inversion Hcalc; subst R_.
  unfold SBSpergelImpl_calculateIntegratedFlux. rewrite Hinv.
  replace (R0 * _r0 impl * (1 / _r0 impl)) with R0 by (field; exact Hr0).
  exact (Hinfo _ _ _ Hwithin HR0).
Qed.

End ImplFacts.

End DerivedConstants.

(** *** The linear inner part of the sampled radial function *)

Section LinearDensity.
Variables a b : double.

Lemma linear_flux_derivative (x : R) :
  derivable_pt_lim (linear_flux a b) x (2 * PI * x * (a + b * x)).
Proof.
  pose proof (derivable_pt_lim_id x) as Hid.
  pose proof (derivable_pt_lim_mult _ _ _ _ _ Hid Hid) as Hsq.
  pose proof (derivable_pt_lim_mult _ _ _ _ _ Hsq Hid) as Hcube.
  pose proof (derivable_pt_lim_scal _ (PI * a) _ _ Hsq) as Ha.
  pose proof (derivable_pt_lim_scal _ (2 * PI / 3 * b) _ _ Hcube) as Hb.
  pose proof (derivable_pt_lim_plus _ _ _ _ _ Ha Hb) as Hsum.
  unfold mult_real_fct, mult_fct, plus_fct, id in Hsum.
  replace (2 * PI * x * (a + b * x))
    with (PI * a * (1 * x + x * 1)
          + 2 * PI / 3 * b * ((1 * x + x * 1) * x + x * x * 1))
    by (field).
  exact Hsum.
Qed.

Lemma linear_flux_derivable : derivable (linear_flux a b).
Proof. intros x. exists (2 * PI * x * (a + b * x)). apply linear_flux_derivative. Qed.

Lemma linear_flux_derive (x : R) :
  derive (linear_flux a b) linear_flux_derivable x = 2 * PI * x * (a + b * x).
Proof. unfold derive. apply derive_pt_eq_0. apply linear_flux_derivative. Qed.

Lemma linear_density_continuous : continuity (fun r => 2 * PI * r * (a + b * r)).
Proof. reg. Qed.

Lemma linear_flux_C1 : continuity (derive (linear_flux a b) linear_flux_derivable).
Proof.
  intros x.
  apply (continuity_pt_locally_ext (fun r => 2 * PI * r * (a + b * r)) _ 1 x);
    [lra | | apply linear_density_continuous].
  intros y _. symmetry. apply linear_flux_derive.
Qed.

(** The integral of [2 pi r (a + b r)] from 0 to a radius. *)
Lemma linear_density_integral (R_ : R)
  (pr : Riemann_integrable (fun r => 2 * PI * r * (a + b * r)) 0 R_) :
  0 <= R_ -> RiemannInt pr = linear_flux a b R_.
Proof.
  intros HR.
  set (F := mkC1 linear_flux_C1).
  assert (prF : Riemann_integrable (derive F (diff0 F)) 0 R_).
  { apply continuity_implies_RiemannInt; [exact HR|]. intros x _. apply linear_flux_C1. }
  rewrite (RiemannInt_P18 pr prF HR).
  - rewrite (FTC_Riemann F prF). simpl. unfold linear_flux. ring.
  - intros x _. symmetry. apply linear_flux_derive.
Qed.

Lemma linear_density_enclosed (R_ flux : double) :
  0 <= R_ ->
  (enclosed_flux (fun r => a + b * r) R_ flux <-> linear_flux a b R_ = flux).
Proof.
  intros HR. unfold enclosed_flux. split.
  - intros (pr & Hpr). now rewrite <- (linear_density_integral R_ pr HR).
  - intros Hflux.
    assert (pr : Riemann_integrable (fun r => 2 * PI * r * (a + b * r)) 0 R_).
    { apply continuity_implies_RiemannInt; [exact HR|].
      intros x _. apply linear_density_continuous. }
    exists pr. now rewrite (linear_density_integral R_ pr HR).
Qed.

End LinearDensity.

(** The two conditions on the linear part determine its coefficients. *)
Lemma linear_part_solution (R_min knur flux a b : double) :
  0 < R_min ->
  b = 3 / R_min * (knur - flux / (M_PI * R_min * R_min)) ->
  a = knur - R_min * b ->
  (linear_flux a b R_min = flux /\ a + b * R_min = knur)
  /\ (forall a' b' : double,
        linear_flux a' b' R_min = flux -> a' + b' * R_min = knur ->
        a' = a /\ b' = b).
Proof.
  intros HR Hb Ha.
  assert (Hpi : 0 < PI) by apply PI_RGT_0.
  assert (Hflux : linear_flux a b R_min = flux).
  { subst a. subst b. unfold linear_flux, M_PI. field. lra. }
  assert (Hval : a + b * R_min = knur) by (subst a; ring).
  split; [split; assumption|].
  intros a' b' Hflux' Hval'.
  assert (Hb' : b' = b).
  { unfold linear_flux in Hflux, Hflux'.
    assert (Ha' : a' = knur - b' * R_min) by lra.
    assert (Ha0 : a = knur - b * R_min) by lra.
    rewrite Ha' in Hflux'. rewrite Ha0 in Hflux.
    assert (Hdiff : PI / 3 * (R_min * R_min * R_min) * (b' - b) = 0).
    {
      replace (PI / 3 * (R_min * R_min * R_min) * (b' - b))
        with ((PI * (knur - b * R_min) * (R_min * R_min)
               + 2 * PI / 3 * b * (R_min * R_min * R_min))
              - (PI * (knur - b' * R_min) * (R_min * R_min)
                 + 2 * PI / 3 * b' * (R_min * R_min * R_min))) by field.
      rewrite Hflux, Hflux'. ring. }
    assert (Hc : 0 < PI / 3 * (R_min * R_min * R_min)).
    { apply Rmult_lt_0_compat; [lra|].
      apply Rmult_lt_0_compat; [apply Rmult_lt_0_compat|]; lra. }
    apply Rmult_integral in Hdiff. destruct Hdiff as [Hz|Hz]; lra. }
  split; [|exact Hb'].
  subst b'. lra.
Qed.

Section SamplerFacts.
Context {ML : MathLib} {RF : RootFinder} {DV : Deviates} {SS : SamplerShoot}.

Lemma setup_sampler_negative (info info' : SpergelInfo) :
  _sampler info = None ->
  _nu info <= 0 ->
  setup_sampler info = Ok info' ->
  exists R_max R_min : double,
    calculateFluxRadius info (1 - shoot_accuracy (_gsparams info)) = Ok R_max
    /\ calculateFluxRadius info (shoot_accuracy (_gsparams info)) = Ok R_min
    /\ let knur := cyl_bessel_k (_nu info) R_min * pow R_min (_nu info) in
       let b := 3 / R_min
                * (knur - shoot_accuracy (_gsparams info) / (M_PI * R_min * R_min)) in
       let a := knur - R_min * b in
       let radial := SpergelNuNegativeRadialFunction (_nu info) R_min a b in
       info' = set_sampler info radial
                 (mkOneDimensionalDeviate radial [0; R_min; R_max] true (_gsparams info)).
Proof.
  intros Hnone Hnu. unfold setup_sampler. rewrite Hnone. unfold bind.
  destruct (calculateFluxRadius info (1 - shoot_accuracy (_gsparams info)))
    as [R_max| |]; try discriminate.
  replace (d_gt (_nu info) 0) with false by (symmetry; apply d_gt_false; lra).
  destruct (calculateFluxRadius info (shoot_accuracy (_gsparams info)))
    as [R_min| |]; try discriminate.
  intros Hok. inversion Hok. exists R_max, R_min. repeat split.
Qed.

(** The coefficients of the linear inner part.  For an index that is not
    positive, the first [shoot] on a shape
    record installs a radial function that is linear, [a + b r], up to
    the radius [R_min] that encloses [shoot_accuracy] of the flux.  Its
    coefficients are the ones computed directly,
    [b = 3 / R_min * (K_nu(R_min) R_min^nu - shoot_accuracy / (pi R_min^2))]
    and [a = K_nu(R_min) R_min^nu - b R_min]; for a positive [R_min] the
    linear part encloses the flux [shoot_accuracy] within [R_min], takes
    the value [K_nu(R_min) R_min^nu] at [R_min], and no other
    coefficients meet these two conditions. *)
Lemma shoot_linear_inner_part (info info' : SpergelInfo) (N : Z) (ud ud' : rng)
  (result : PhotonArray) :
  _sampler info = None ->
  _nu info <= 0 ->
  shoot info N ud = Ok (result, ud', info') ->
  exists R_min a b : double,
    calculateFluxRadius info (shoot_accuracy (_gsparams info)) = Ok R_min
    /\ _radial info' = Some (SpergelNuNegativeRadialFunction (_nu info) R_min a b)
    /\ (forall r, r <= R_min ->
          FluxDensity_call (SpergelNuNegativeRadialFunction (_nu info) R_min a b) r
          = Finite (a + b * r))
    /\ b = 3 / R_min
           * (cyl_bessel_k (_nu info) R_min * pow R_min (_nu info)
              - shoot_accuracy (_gsparams info) / (PI * (R_min * R_min)))
    /\ a = cyl_bessel_k (_nu info) R_min * pow R_min (_nu info) - b * R_min
    /\ (0 < R_min ->
        enclosed_flux (fun r => a + b * r) R_min (shoot_accuracy (_gsparams info))
        /\ a + b * R_min = cyl_bessel_k (_nu info) R_min * pow R_min (_nu info)
        /\ (forall a' b' : double,
              enclosed_flux (fun r => a' + b' * r) R_min
                (shoot_accuracy (_gsparams info)) ->
              a' + b' * R_min = cyl_bessel_k (_nu info) R_min * pow R_min (_nu info) ->
              a' = a /\ b' = b)).
Proof.
  intros Hnone Hnu. unfold shoot, bind.
  destruct (setup_sampler info) as [info1| |] eqn:Hsetup; try discriminate.
  destruct (setup_sampler_negative info info1 Hnone Hnu Hsetup)
    as (R_max & R_min & _ & Hmin & Hinfo1).
  cbn zeta in Hinfo1. subst info1. cbn [_sampler set_sampler].
  destruct (OneDimensionalDeviate_shoot _ N ud) as [pa ud1].
  intros Hok. inversion Hok; subst.
  set (knur := cyl_bessel_k (_nu info) R_min * pow R_min (_nu info)).
  set (b := 3 / R_min
            * (knur - shoot_accuracy (_gsparams info) / (M_PI * R_min * R_min))).
  set (a := knur - R_min * b).
  exists R_min, a, b.
  split; [exact Hmin|]. split; [reflexivity|].
  split.
  { intros r Hr. cbn [FluxDensity_call].
    replace (d_le r R_min) with true by (symmetry; now apply d_le_true).
    reflexivity. }
  split.
  { subst b. unfold M_PI. now rewrite Rmult_assoc. }
  split.
  { unfold a, knur. ring. }
  intros Hpos.
  destruct (linear_part_solution R_min knur (shoot_accuracy (_gsparams info)) a b
              Hpos eq_refl eq_refl) as ((Hflux & Hval) & Huniq).
  split; [|split].
  - apply linear_density_enclosed; [lra | exact Hflux].
  - exact Hval.
  - intros a' b' Hflux' Hval'. apply Huniq; [|exact Hval'].
    apply linear_density_enclosed in Hflux'; [exact Hflux' | lra].
Qed.

(** The enclosed flux of a density that agrees with another one, and of a
    multiple of a density. *)
Lemma enclosed_flux_ext (f g : double -> double) (R_ F : double) :
  0 <= R_ -> (forall r, f r = g r) ->
  enclosed_flux f R_ F -> enclosed_flux g R_ F.
Proof.
  intros HR Hext (pr & Hpr).
  assert (pr' : Riemann_integrable (fun r => 2 * PI * r * g r) 0 R_).
  { apply (Riemann_integrable_ext (f := fun r => 2 * PI * r * f r)); [|exact pr].
    intros x _. now rewrite Hext. }
  exists pr'. rewrite <- Hpr. apply RiemannInt_P18; [exact HR|].
  intros x _. now rewrite Hext.
Qed.

Lemma enclosed_flux_scaled (g : double -> double) (X R_ F : double) :
  0 <= R_ -> X <> 0 ->
  enclosed_flux (fun r => X * g r) R_ F -> enclosed_flux g R_ (F / X).
Proof.
  intros HR HX (pr & Hpr).
  pose proof (RiemannInt_P14 0 R_ 0) as pr0.
  pose proof (RiemannInt_P10 (/ X) pr0 pr) as pr1.
  assert (Hsame : forall x,
            2 * PI * x * g x = fct_cte 0 x + / X * (2 * PI * x * (X * g x))).
  { intros x. unfold fct_cte. field. exact HX. }
  assert (pr' : Riemann_integrable (fun r => 2 * PI * r * g r) 0 R_).
  { apply (Riemann_integrable_ext
             (f := fun x => fct_cte 0 x + / X * (2 * PI * x * (X * g x))));
      [|exact pr1].
    intros x _. symmetry. apply Hsame. }
  exists pr'.
  rewrite (RiemannInt_P18 pr' pr1 HR) by (intros x _; apply Hsame).
  rewrite (RiemannInt_P12 pr0 pr pr1 HR), RiemannInt_P15, Hpr. field. exact HX.
Qed.

Lemma enclosed_flux_unique (g : double -> double) (R_ F1 F2 : double) :
  enclosed_flux g R_ F1 -> enclosed_flux g R_ F2 -> F1 = F2.
Proof.
  intros (pr1 & H1) (pr2 & H2). rewrite <- H1, <- H2. apply RiemannInt_P5.
Qed.

(** C8, as the code has it.  For an index that is not positive, let
    [R_min] be the radius that [calculateFluxRadius] returns for
    [shoot_accuracy], and let it be the radius within which the profile
    of unit flux encloses the flux [shoot_accuracy].  The radial function
    that the first [shoot] installs is [a + b r] up to [R_min] and
    [K_nu(r) r^nu] beyond it.  The linear part takes the value
    [K_nu(R_min) R_min^nu] at [R_min] and encloses the flux
    [shoot_accuracy] within [R_min]; the function [K_nu(r) r^nu] that it
    replaces encloses [shoot_accuracy / getXNorm] there.  So the linear
    part does not enclose the flux of the function it replaces, unless
    [getXNorm] is 1: the flux condition is taken from the profile of unit
    flux, the value condition from the function without its
    normalisation. *)
Theorem linear_inner_part_flux_mismatch (info info' : SpergelInfo) (N : Z)
  (ud ud' : rng) (result : PhotonArray) (R_min : double) :
  _sampler info = None ->
  _nu info <= 0 ->
  shoot info N ud = Ok (result, ud', info') ->
  calculateFluxRadius info (shoot_accuracy (_gsparams info)) = Ok R_min ->
  0 < R_min ->
  enclosed_flux (unit_flux_density info) R_min (shoot_accuracy (_gsparams info)) ->
  getXNorm info <> 0 ->
  getXNorm info <> 1 ->
  shoot_accuracy (_gsparams info) <> 0 ->
  exists a b : double,
    _radial info' = Some (SpergelNuNegativeRadialFunction (_nu info) R_min a b)
    /\ (forall r, r <= R_min ->
          FluxDensity_call (SpergelNuNegativeRadialFunction (_nu info) R_min a b) r
          = Finite (a + b * r))
    /\ (forall r, R_min < r ->
          FluxDensity_call (SpergelNuNegativeRadialFunction (_nu info) R_min a b) r
          = Finite (cyl_bessel_k (_nu info) r * pow r (_nu info)))
    /\ a + b * R_min = cyl_bessel_k (_nu info) R_min * pow R_min (_nu info)
    /\ enclosed_flux (fun r => a + b * r) R_min (shoot_accuracy (_gsparams info))
    /\ enclosed_flux (fun r => cyl_bessel_k (_nu info) r * pow r (_nu info)) R_min
         (shoot_accuracy (_gsparams info) / getXNorm info)
    /\ shoot_accuracy (_gsparams info) / getXNorm info
       <> shoot_accuracy (_gsparams info)
    /\ ~ enclosed_flux (fun r => cyl_bessel_k (_nu info) r * pow r (_nu info)) R_min
           (shoot_accuracy (_gsparams info)).
Proof.
  intros Hnone Hnu Hshoot Hmin HR Hunit HX0 HX1 Hacc.
  destruct (shoot_linear_inner_part info info' N ud ud' result Hnone Hnu Hshoot)
    as (R_min' & a & b & Hmin' & Hradial & Hinner & _ & _ & Hlin).
  rewrite Hmin in Hmin'. injection Hmin' as <-.
  destruct (Hlin HR) as (Henc & Hval & _).
  assert (Htrue : enclosed_flux
                    (fun r => cyl_bessel_k (_nu info) r * pow r (_nu info)) R_min
                    (shoot_accuracy (_gsparams info) / getXNorm info)).
  { apply enclosed_flux_scaled; [lra | exact HX0 | exact Hunit]. }
  assert (Hneq : shoot_accuracy (_gsparams info) / getXNorm info
                 <> shoot_accuracy (_gsparams info)).
  { intros Heq. apply HX1.
    assert (H : shoot_accuracy (_gsparams info)
                = shoot_accuracy (_gsparams info) / getXNorm info * getXNorm info)
      by (field; exact HX0).
    rewrite Heq in H.
    apply (Rmult_eq_reg_l (shoot_accuracy (_gsparams info))); [lra | exact Hacc]. }
  exists a, b. split; [exact Hradial|]. split; [exact Hinner|]. split.
  { intros r Hr. cbn [FluxDensity_call].
    now replace (d_le r R_min) with false by (symmetry; now apply d_le_false). }
  split; [exact Hval|]. split; [exact Henc|]. split; [exact Htrue|].
  split; [exact Hneq|].
  intros Hsame. apply Hneq. exact (enclosed_flux_unique _ _ _ _ Htrue Hsame).
Qed.

End SamplerFacts.

(** *** Runs on the sample data *)

Section SampleRuns.

#[local] Existing Instance Sample.mathlib.
#[local] Existing Instance Sample.bounds.
#[local] Existing Instance Sample.affine_solver.
#[local] Existing Instance Sample.cold_cache.
#[local] Existing Instance Sample.scripted.
#[local] Existing Instance Sample.origin_sampler.

Lemma sample_returns_the_root : returns_the_root.
Proof.
  intros g lb ub tol m_ r Htol. cbn [find_root Sample.affine_solver].
  destruct (d_eq (g (- g 0 / (g 1 - g 0))) 0) eqn:Hz; [|discriminate].
  apply d_eq_true in Hz. intros Hok. injection Hok as <-.
  exists (- g 0 / (g 1 - g 0)). split; [exact Hz|].
  unfold Rminus. rewrite Rplus_opp_r, Rabs_R0. lra.
Qed.

(** The records that the constructor returns under the sample library. *)
Lemma sample_info (nu : double) (info : SpergelInfo) :
  SpergelInfo_new nu Sample.params = Ok info ->
  _nu info = nu /\ _gsparams info = Sample.params
  /\ _stepk info = 0 /\ _re info = 0 /\ _sampler info = None
  /\ forall f, calculateFluxRadius info f = Ok (8 * f).
Proof.
  intros Hnew. apply SpergelInfo_new_inv in Hnew. destruct Hnew as ((Hlo & _) & ->).
  repeat split. intros f. apply sample_flux_radius.
  - cbn [_nu]. cbn in Hlo. lra.
  - cbn. lra.
Qed.

Lemma sample_integrated_flux (nu : double) (info : SpergelInfo) (r : double) :
  SpergelInfo_new nu Sample.params = Ok info ->
  calculateIntegratedFlux info r = r / 8.
Proof.
  intros Hnew. apply SpergelInfo_new_inv in Hnew. destruct Hnew as ((Hlo & _) & ->).
  unfold calculateIntegratedFlux, SpergelIntegratedFlux_call. cbn. cbn in Hlo.
  field. lra.
Qed.

Lemma sample_flux_within (nu : double) (info : SpergelInfo) (f : double) :
  SpergelInfo_new nu Sample.params = Ok info ->
  flux_within info f 1e-25.
Proof.
  intros Hnew x0 r Hx0 Hnear.
  rewrite (sample_integrated_flux nu info r Hnew).
  rewrite (sample_integrated_flux nu info x0 Hnew) in Hx0. rewrite <- Hx0.
  replace (r / 8 - x0 / 8) with ((r - x0) * / 8) by field.
  rewrite Rabs_mult, (Rabs_pos_eq (/ 8)) by lra.
  pose proof (Rabs_pos (r - x0)). lra.
Qed.

(** The floor of [stepK] at the index 0.5 with the default parameters: the radius that encloses 0.995 of the flux is
    7.96 and the half-light radius is 4, so that the floor of the claim
    would be 20. *)
Lemma stepK_floor_ignores_half_light_radius_witness :
  exists info info1 info2 : SpergelInfo,
    SpergelInfo_new 0.5 Sample.params = Ok info
    /\ stepK info = Ok (M_PI / (8 * (1 - 0.005)), info1)
    /\ getHLR info = Ok (8 * 0.5, info2)
    /\ M_PI / (8 * (1 - 0.005)) <> M_PI / std_max (8 * (1 - 0.005)) (5 * (8 * 0.5)).
Proof.
  destruct (SpergelInfo_new_valid 0.5 Sample.params) as (info & Hinfo);
    [cbn; lra|].
  destruct (sample_info 0.5 info Hinfo) as (_ & _ & _ & _ & _ & Hflux).
  destruct (stepK_floor_ignores_half_light_radius 0.5 Sample.params info
              (8 * (1 - 0.005)) (8 * 0.5) Hinfo (Hflux _) (Hflux _))
    as (info1 & info2 & Hstep & Hhlr & _ & Hneq).
  - lra.
  - cbn. lra.
  - exists info, info1, info2. repeat split; assumption.
Defined.

(** The round trip at the index 0.5 and the flux fraction 0.5, for the
    shape record and for an instance of half-light radius 3. *)
Lemma flux_radius_round_trip_witness :
  (exists info : SpergelInfo,
     SpergelInfo_new 0.5 Sample.params = Ok info
     /\ calculateFluxRadius info 0.5 = Ok (8 * 0.5)
     /\ Rabs (calculateIntegratedFlux info (8 * 0.5) - 0.5) <= 1e-25)
  /\ (exists impl : SBSpergelImpl,
        SBSpergelImpl_new 0.5 3 HALF_LIGHT_RADIUS 1 Sample.params = Ok impl
        /\ SBSpergelImpl_calculateFluxRadius impl 0.5 = Ok (8 * 0.5 * (3 / (8 * 0.5)))
        /\ Rabs (SBSpergelImpl_calculateIntegratedFlux impl (8 * 0.5 * (3 / (8 * 0.5)))
                 - 0.5) <= 1e-25).
Proof.
  destruct (flux_radius_round_trip 1e-25 sample_returns_the_root) as (Hinfo & Himpl).
  destruct (SpergelInfo_new_valid 0.5 Sample.params) as (info & Hnew); [cbn; lra|].
  destruct (sample_info 0.5 info Hnew) as (_ & _ & _ & Hre & _ & Hflux).
  split.
  - exists info. split; [exact Hnew|]. split; [apply Hflux|].
    apply Hinfo; [exact (sample_flux_within 0.5 info 0.5 Hnew) | apply Hflux].
  - pose proof (getHLR_fresh info (8 * 0.5) Hre (Hflux _)) as Hhlr.
    assert (Hnewimpl : exists impl,
              SBSpergelImpl_new 0.5 3 HALF_LIGHT_RADIUS 1 Sample.params = Ok impl
              /\ _r0 impl = 3 / (8 * 0.5)
              /\ _info impl = set_re info (8 * 0.5)).
    { unfold SBSpergelImpl_new, bind. cbn [cache_get Sample.cold_cache].
      rewrite Hnew, Hhlr. cbn [fst snd]. eexists. split; [reflexivity|].
      split; reflexivity. }
    destruct Hnewimpl as (impl & Himplnew & Hr0 & Hinfo').
    assert (Hcalc : SBSpergelImpl_calculateFluxRadius impl 0.5
                    = Ok (8 * 0.5 * (3 / (8 * 0.5)))).
    { unfold SBSpergelImpl_calculateFluxRadius, bind.
      rewrite Hinfo', calculateFluxRadius_set_re, Hflux, Hr0. reflexivity. }
    exists impl. split; [exact Himplnew|]. split; [exact Hcalc|].
    apply (Himpl 0.5 3 HALF_LIGHT_RADIUS 1 Sample.params impl 0.5 _ Himplnew).
    + rewrite Hr0. lra.
    + rewrite Hinfo'. intros x0 r.
      change (calculateIntegratedFlux (set_re info (8 * 0.5)))
        with (calculateIntegratedFlux info).
      exact (sample_flux_within 0.5 info 0.5 Hnew x0 r).
    + exact Hcalc.
Defined.


(** The sampled radial function at the index -0.5: the inner radius is
    0.00008, and the linear part encloses the flux 0.00001 within it. *)
Lemma shoot_linear_inner_part_witness :
  exists (info info' : SpergelInfo) (result : PhotonArray) (a b : double),
    SpergelInfo_new (-0.5) Sample.params = Ok info
    /\ shoot info 10 [] = Ok (result, [], info')
    /\ _radial info'
       = Some (SpergelNuNegativeRadialFunction (-0.5) (8 * 0.00001) a b)
    /\ enclosed_flux (fun r => a + b * r) (8 * 0.00001) 0.00001
    /\ a + b * (8 * 0.00001)
       = cyl_bessel_k (-0.5) (8 * 0.00001) * pow (8 * 0.00001) (-0.5).
Proof.
  destruct (SpergelInfo_new_valid (-0.5) Sample.params) as (info & Hnew); [cbn; lra|].
  destruct (sample_info (-0.5) info Hnew) as (Hnu & Hgs & _ & _ & Hnone & Hflux).
  assert (Hshoot : exists result info', shoot info 10 [] = Ok (result, [], info')).
  { unfold shoot, setup_sampler, bind. rewrite Hnone, !Hflux, Hnu.
    replace (d_gt (-0.5) 0) with false by (symmetry; apply d_gt_false; lra).
    cbn [_sampler set_sampler OneDimensionalDeviate_shoot Sample.origin_sampler].
    eexists. eexists. reflexivity. }
  destruct Hshoot as (result & info' & Hshoot).
  destruct (shoot_linear_inner_part (DV := Sample.scripted)
              (SS := Sample.origin_sampler) info info' 10 [] [] result Hnone) as
    (R_min & a & b & Hmin & Hradial & _ & _ & _ & Hlin).
  - rewrite Hnu. lra.
  - exact Hshoot.
  - rewrite Hflux in Hmin. injection Hmin as <-.
    rewrite Hgs, Hnu in *. cbn [shoot_accuracy Sample.params] in *.
    destruct Hlin as (Henc & Hval & _); [lra|].
    exists info, info', result, a, b. repeat split; assumption.
Defined.

End SampleRuns.

(** *** Runs on a profile of constant density *)

Section DiscRuns.

#[local] Existing Instance Sample.disc_mathlib.
#[local] Existing Instance Sample.bounds.
#[local] Existing Instance Sample.square_solver.
#[local] Existing Instance Sample.scripted.
#[local] Existing Instance Sample.origin_sampler.

Lemma d_eq_refl (a b : double) : a = b -> d_eq a b = true.
Proof. intros H. now apply d_eq_true. Qed.

Lemma d_eq_neq (a b : double) : a <> b -> d_eq a b = false.
Proof. intros H. now apply d_eq_false. Qed.

(** Under the stand-in library the record of the index 0 integrates the
    flux [u * u] up to a radius [u] that is not zero. *)
Lemma disc_integrated_flux (t u : double) :
  u <> 0 ->
  SpergelIntegratedFlux_call (mkSpergelIntegratedFlux 0 (1 * (0 + 1)) t) u
  = u * u - t.
Proof.
  intros Hu. unfold SpergelIntegratedFlux_call.
  cbn [sif_nu sif_gamma_nup2 sif_target pow cyl_bessel_k Sample.disc_mathlib].
  rewrite (d_eq_refl (0 + 1) 1) by lra. field. exact Hu.
Qed.

Lemma disc_flux_radius (info : SpergelInfo) (t : double) :
  _nu info = 0 -> _gamma_nup2 info = 1 * (0 + 1) -> 0 < t ->
  calculateFluxRadius info t = Ok (sqrt t).
Proof.
  intros Hnu Hg Ht.
  assert (Hs : 0 < sqrt t) by now apply sqrt_lt_R0.
  unfold calculateFluxRadius, bracketLowerWithLimit, bracketUpper, root, bind.
  rewrite Hnu, Hg.
  set (g := SpergelIntegratedFlux_call (mkSpergelIntegratedFlux 0 (1 * (0 + 1)) t)).
  assert (Hroot : forall lb ub tol m_, find_root g lb ub tol m_ = Ok (sqrt t)).
  { intros. cbn [find_root Sample.square_solver].
    assert (H1 : 1 - g 1 = t) by (unfold g; rewrite disc_integrated_flux; lra).
    rewrite H1.
    rewrite (d_eq_refl (g (sqrt t)) 0); [reflexivity|].
    unfold g. rewrite disc_integrated_flux by lra.
    rewrite sqrt_sqrt by lra. lra. }
  destruct (d_lt t 0.5);
    cbv beta iota delta [extend_lower_with_limit extend_upper Sample.square_solver
      setBounds setMethod setXTolerance Solve_new func lBound uBound xTolerance m
      fst snd];
    rewrite Hroot; reflexivity.
Qed.

(** The sampled radial function at the index 0 under the stand-in
    library, for which [getXNorm] is [1 / (2 pi)]: the linear part
    encloses the flux 0.00001 within the inner radius, the constant
    function 2 that it replaces encloses [0.00001 / getXNorm]. *)
Lemma linear_inner_part_flux_mismatch_witness :
  exists (info info' : SpergelInfo) (result : PhotonArray) (a b : double),
    SpergelInfo_new 0 Sample.params = Ok info
    /\ shoot info 10 [] = Ok (result, [], info')
    /\ getXNorm info = 1 / 1 / (2 * PI)
    /\ _radial info' = Some (SpergelNuNegativeRadialFunction 0 (sqrt 0.00001) a b)
    /\ enclosed_flux (fun r => a + b * r) (sqrt 0.00001) 0.00001
    /\ enclosed_flux (fun r => cyl_bessel_k 0 r * pow r 0) (sqrt 0.00001)
         (0.00001 / getXNorm info)
    /\ 0.00001 / getXNorm info <> 0.00001.
Proof.
  destruct (SpergelInfo_new_valid 0 Sample.params) as (info & Hnew); [cbn; lra|].
  pose proof Hnew as Hinv. apply SpergelInfo_new_inv in Hinv.
  destruct Hinv as (_ & Hinfo).
  assert (Hnu : _nu info = 0) by (now rewrite Hinfo).
  assert (Hgs : _gsparams info = Sample.params) by (now rewrite Hinfo).
  assert (Hnone : _sampler info = None) by (now rewrite Hinfo).
  assert (Hflux : forall t, 0 < t -> calculateFluxRadius info t = Ok (sqrt t)).
  { intros t Ht. apply disc_flux_radius; [exact Hnu | now rewrite Hinfo | exact Ht]. }
  assert (HX : getXNorm info = 1 / 1 / (2 * PI)).
  { rewrite Hinfo. unfold getXNorm, M_PI.
    cbn [_nu _gamma_nup1 pow tgamma Sample.disc_mathlib].
    now rewrite (d_eq_neq (- 0) 1) by lra. }
  assert (Hpi : 0 < PI) by apply PI_RGT_0.
  assert (Hpi2 : 1 < PI / 2) by apply PI2_1.
  assert (Hshoot : exists result info', shoot info 10 [] = Ok (result, [], info')).
  { unfold shoot, setup_sampler, bind.
    rewrite Hnone, Hgs. cbn [shoot_accuracy Sample.params].
    rewrite !Hflux by lra. rewrite Hnu.
    replace (d_gt 0 0) with false by (symmetry; apply d_gt_false; lra).
    cbn [_sampler set_sampler OneDimensionalDeviate_shoot Sample.origin_sampler].
    eexists. eexists. reflexivity. }
  destruct Hshoot as (result & info' & Hshoot).
  assert (HR : 0 < sqrt 0.00001) by (apply sqrt_lt_R0; lra).
  destruct (linear_inner_part_flux_mismatch (DV := Sample.scripted)
              (SS := Sample.origin_sampler) info info' 10 [] [] result
              (sqrt 0.00001) Hnone)
    as (a & b & Hradial & _ & _ & _ & Henc & Htrue & Hneq & _).
  - rewrite Hnu. lra.
  - exact Hshoot.
  - rewrite Hgs. apply Hflux. cbn. lra.
  - exact HR.
  - rewrite Hgs. cbn [shoot_accuracy Sample.params].
    apply (enclosed_flux_ext (fun r => / PI + 0 * r)); [lra | |].
    + intros r. unfold unit_flux_density. rewrite HX, Hnu.
      cbn [pow cyl_bessel_k Sample.disc_mathlib].
      rewrite (d_eq_neq 0 1) by lra. field. lra.
    + apply linear_density_enclosed; [lra|].
      unfold linear_flux.
      replace (PI * / PI * (sqrt 0.00001 * sqrt 0.00001)
               + 2 * PI / 3 * 0 * (sqrt 0.00001 * sqrt 0.00001 * sqrt 0.00001))
        with (sqrt 0.00001 * sqrt 0.00001) by (field; lra).
      apply sqrt_sqrt. lra.
  - rewrite HX. intros H0.
    assert (Heq : 1 / 1 / (2 * PI) = / (2 * PI)) by (field; lra).
    assert (0 < / (2 * PI)) by (apply Rinv_0_lt_compat; lra).
    lra.
  - rewrite HX. intros H1.
    assert (Heq : 1 / 1 / (2 * PI) = / (2 * PI)) by (field; lra).
    assert (Hlt : / (2 * PI) < / 1) by (apply Rinv_lt_contravar; lra).
    rewrite Rinv_1 in Hlt. lra.
  - rewrite Hgs. cbn. lra.
  - rewrite Hgs, Hnu in *. cbn [shoot_accuracy Sample.params] in *.
    exists info, info', result, a, b. repeat split; assumption.
Defined.

End DiscRuns.

End SBSpergelFacts.

(** * The sizes of a Spergel instance on binary64 numbers *)

Module Binary64Facts.

Import PrimFloat.
Local Open Scope float_scope.


End Binary64Facts.

(** * Further properties of the composite profile *)

From Stdlib Require Import Permutation.

Module SBAddMore.

Import SBAdd SBAddEval SBAddFacts.

(** *** Sums *)

Lemma sum_of_app (f : SBProfile -> double) (l1 l2 : list SBProfile) :
  sum_of f (l1 ++ l2) = sum_of f l1 + sum_of f l2.
Proof. induction l1 as [|p l1 IH]; simpl; [lra|]. rewrite IH. lra. Qed.


Lemma sum_of_ext (f g : SBProfile -> double) (l : list SBProfile) :
  (forall p, In p l -> f p = g p) -> sum_of f l = sum_of g l.
Proof.
  induction l as [|p l IH]; intros Hfg; simpl; [reflexivity|].
  rewrite (Hfg p (or_introl eq_refl)), IH; [reflexivity|].
  intros q Hq. apply Hfg. now right.
Qed.


Lemma cadd_comm (a b : complex) : cadd a b = cadd b a.
Proof. unfold cadd. f_equal; ring. Qed.



Section EvalFacts.
Context {ME : MemberEval}.




End EvalFacts.

(** *** The reductions as functions of the member list *)

Lemma accumulate_maxMaxK_fold l : forall acc,
  _maxMaxK (fold_left accumulate l acc)
  = fold_left Rmax (map maxK l) (_maxMaxK acc).
Proof.
  induction l as [|p l IH]; intros acc; simpl; [reflexivity|].
  rewrite IH. simpl. f_equal.
  unfold d_gt, Rmax.
  destruct (Rgt_dec (maxK p) (_maxMaxK acc)), (Rle_dec (_maxMaxK acc) (maxK p));
    try reflexivity; lra.
Qed.

Lemma initialize_maxMaxK gs l :
  _maxMaxK (initialize gs l) = max_with_zero (map maxK l).
Proof.
  unfold initialize. rewrite accumulate_maxMaxK_fold. simpl.
  unfold max_with_zero. apply fold_symmetric.
  - intros x y z. apply Rmax_assoc.
  - intros y. apply Rmax_comm.
Qed.

Lemma initialize_sums gs l :
  _sumflux (initialize gs l) = sum_of getFlux l
  /\ _sumfx (initialize gs l) = sum_of (fun p => getFlux p * pos_x (centroid p)) l
  /\ _sumfy (initialize gs l) = sum_of (fun p => getFlux p * pos_y (centroid p)) l.
Proof.
  unfold initialize.
  rewrite accumulate_sumflux, accumulate_sumfx, accumulate_sumfy. simpl.
  repeat split; lra.
Qed.

Lemma initialize_flags gs l :
  _allAxisymmetric (initialize gs l) = forallb isAxisymmetric l
  /\ _allAnalyticX (initialize gs l) = forallb isAnalyticX l
  /\ _allAnalyticK (initialize gs l) = forallb isAnalyticK l
  /\ _anyHardEdges (initialize gs l) = existsb hasHardEdges l.
Proof.
  unfold initialize.
  rewrite accumulate_allAxisymmetric, accumulate_allAnalyticX,
    accumulate_allAnalyticK, accumulate_anyHardEdges.
  repeat split; reflexivity.
Qed.




Lemma max_with_zero_perm l1 l2 :
  Permutation l1 l2 -> max_with_zero l1 = max_with_zero l2.
Proof.
  induction 1; simpl.
  - reflexivity.
  - fold (max_with_zero l). fold (max_with_zero l'). now rewrite IHPermutation.
  - fold (max_with_zero l). rewrite !Rmax_assoc. f_equal. apply Rmax_comm.
  - congruence.
Qed.

Lemma forallb_perm (f : SBProfile -> bool) l1 l2 :
  Permutation l1 l2 -> forallb f l1 = forallb f l2.
Proof.
  induction 1; simpl; try congruence.
  destruct (f x), (f y); reflexivity.
Qed.

Lemma existsb_perm (f : SBProfile -> bool) l1 l2 :
  Permutation l1 l2 -> existsb f l1 = existsb f l2.
Proof.
  induction 1; simpl; try congruence.
  destruct (f x), (f y); reflexivity.
Qed.





Lemma is_minimum_unique (v w : double) (l : list double) :
  is_minimum v l -> is_minimum w l -> v = w.
Proof.
  intros (Hv & Hlv) (Hw & Hlw).
  specialize (Hlv w Hw). specialize (Hlw v Hv). lra.
Qed.

Lemma is_minimum_perm (v : double) (l1 l2 : list double) :
  Permutation l1 l2 -> is_minimum v l1 -> is_minimum v l2.
Proof.
  intros Hperm (Hin & Hle). split.
  - eapply Permutation_in; eassumption.
  - intros x Hx. apply Hle. eapply Permutation_in; [apply Permutation_sym|]; eassumption.
Qed.

(** The reduced members of a composite whose member list is a permutation
    of the member list of another. *)
Lemma initialize_perm gs1 gs2 (l1 l2 : list SBProfile) :
  Permutation l1 l2 ->
  let sba1 := initialize gs1 l1 in
  let sba2 := initialize gs2 l2 in
  _maxMaxK sba1 = _maxMaxK sba2
  /\ _allAxisymmetric sba1 = _allAxisymmetric sba2
  /\ _allAnalyticX sba1 = _allAnalyticX sba2
  /\ _allAnalyticK sba1 = _allAnalyticK sba2
  /\ _anyHardEdges sba1 = _anyHardEdges sba2
  /\ ((forall p, In p l1 -> 0 < stepK p) -> _minStepK sba1 = _minStepK sba2).
Proof.
  intros Hperm. cbn zeta.
  destruct (initialize_flags gs1 l1) as (-> & -> & -> & ->).
  destruct (initialize_flags gs2 l2) as (-> & -> & -> & ->).
  rewrite !initialize_maxMaxK.
  repeat split;
    try (apply forallb_perm; exact Hperm); try (apply existsb_perm; exact Hperm).
  - apply max_with_zero_perm. now apply Permutation_map.
  - intros Hpos. destruct l1 as [|p l1].
    + apply Permutation_nil in Hperm. subst l2. reflexivity.
    + assert (Hne2 : l2 <> []).
      { intros ->. apply Permutation_sym, Permutation_nil in Hperm. discriminate. }
      assert (Hpos2 : forall q, In q l2 -> 0 < stepK q).
      { intros q Hq. apply Hpos. eapply Permutation_in; [apply Permutation_sym|]; eassumption. }
      apply (is_minimum_unique _ _ (map stepK l2)).
      * apply (is_minimum_perm _ (map stepK (p :: l1))); [now apply Permutation_map|].
        apply initialize_stepK; [discriminate | exact Hpos].
      * apply initialize_stepK; assumption.
Qed.

Section OrderFacts.
Context {ME : MemberEval}.

(** X2. The band limits and the flags of a composite do not depend on
    the order of the profiles it is built from: two composites built
    from lists that are permutations of each other have member lists
    that are permutations of each other, the same [maxK] and the same
    four flags, and the same [stepK] when the members have a positive
    [stepK].  The sums that a composite holds are accumulated in member
    order and are not part of this statement. *)
Theorem limits_and_flags_ignore_member_order (slist1 slist2 : list SBProfile)
  (gs1 gs2 : GSParamsPtr) (sba1 sba2 : SBAddImpl) :
  Permutation slist1 slist2 ->
  SBAddImpl_new slist1 gs1 = Ok sba1 ->
  SBAddImpl_new slist2 gs2 = Ok sba2 ->
  Permutation (getObjs sba1) (getObjs sba2)
  /\ maxK (Add sba1) = maxK (Add sba2)
  /\ isAxisymmetric (Add sba1) = isAxisymmetric (Add sba2)
  /\ isAnalyticX (Add sba1) = isAnalyticX (Add sba2)
  /\ isAnalyticK (Add sba1) = isAnalyticK (Add sba2)
  /\ hasHardEdges (Add sba1) = hasHardEdges (Add sba2)
  /\ ((forall q, In q (getObjs sba1) -> 0 < stepK q) ->
      stepK (Add sba1) = stepK (Add sba2)).
Proof.
  intros Hperm Hnew1 Hnew2.
  assert (Hmem : Permutation (getObjs sba1) (getObjs sba2)).
  { rewrite (SBAddImpl_new_members _ _ _ Hnew1), (SBAddImpl_new_members _ _ _ Hnew2).
    now apply Permutation_flat_map. }
  split; [exact Hmem|].
  apply SBAddImpl_new_inv in Hnew1. destruct Hnew1 as (g1 & ->).
  apply SBAddImpl_new_inv in Hnew2. destruct Hnew2 as (g2 & ->).
  unfold getObjs in Hmem. rewrite !initialize_plist in Hmem.
  unfold getObjs. rewrite !initialize_plist.
  destruct (initialize_perm g1 g2 _ _ Hmem)
    as (Hmax & Hax & HaX & HaK & Hhe & Hstep).
  cbn [maxK stepK isAxisymmetric isAnalyticX isAnalyticK hasHardEdges].
  unfold SBAddImpl_maxK, SBAddImpl_stepK,
    SBAddImpl_isAxisymmetric, SBAddImpl_isAnalyticX, SBAddImpl_isAnalyticK,
    SBAddImpl_hasHardEdges.
  rewrite Hmax, Hax, HaX, HaK, Hhe.
  repeat split; try reflexivity; assumption.
Qed.

End OrderFacts.

(** The composite of [profB] and [profA] against the composite of [profA]
    and [profB]. *)
Lemma limits_and_flags_ignore_member_order_witness :
  exists sba1 sba2 : SBAddImpl,
    SBAddImpl_new [Sample.profA; Sample.profB] None = Ok sba1
    /\ SBAddImpl_new [Sample.profB; Sample.profA] None = Ok sba2
    /\ getObjs sba1 = [Sample.profA; Sample.profB]
    /\ getObjs sba2 = [Sample.profB; Sample.profA]
    /\ maxK (Add sba1) = maxK (Add sba2)
    /\ hasHardEdges (Add sba1) = hasHardEdges (Add sba2)
    /\ stepK (Add sba1) = stepK (Add sba2).
Proof.
  destruct (SBAddImpl_new_cons Sample.profA [Sample.profB] None) as (sba1 & H1).
  destruct (SBAddImpl_new_cons Sample.profB [Sample.profA] None) as (sba2 & H2).
  exists sba1, sba2.
  destruct (limits_and_flags_ignore_member_order
              [Sample.profA; Sample.profB] [Sample.profB; Sample.profA]
              None None sba1 sba2 (perm_swap _ _ []) H1 H2)
    as (_ & Hmax & _ & _ & _ & Hhe & Hs).
  pose proof (SBAddImpl_new_members _ _ _ H1) as Hm1.
  pose proof (SBAddImpl_new_members _ _ _ H2) as Hm2.
  cbn in Hm1, Hm2.
  repeat split; try assumption.
  apply Hs. rewrite Hm1. intros q [<-|[<-|[]]]; simpl; lra.
Defined.

(** *** Composites of composites *)






(** *** Grid filling *)

Section FillFacts.
Variable T : Type.
Variable plus : T -> T -> T.
Variable F : SBProfile -> nat -> nat -> (nat -> nat -> T) -> nat -> nat -> T.

(** The loop over the members after the first: when their fills overwrite
    the scratch matrix, each adds its own elements to [val]. *)
Lemma fill_rest_elem (rest : list SBProfile) :
  (forall q, In q rest -> overwrites (F q)) ->
  forall (val val2 : MatrixView T) (old : nat -> nat -> T),
    colsize val2 = colsize val -> rowsize val2 = rowsize val ->
    let out := fill_rest plus (fun q => fill_view (F q)) rest val val2 in
    colsize out = colsize val /\ rowsize out = rowsize val
    /\ forall i j, (i < colsize val)%nat -> (j < rowsize val)%nat ->
         elem out i j
         = fold_left (fun acc q => plus acc (F q (colsize val) (rowsize val) old i j))
             rest (elem val i j).
Proof.
  unfold fill_rest.
  induction rest as [|q rest IH]; intros Hover val val2 old Hc Hr; cbn zeta.
  - simpl. repeat split; reflexivity.
  - cbn [fold_left fst snd].
    set (val2' := fill_view (F q) val2).
    set (val' := add_view plus val val2').
    assert (Hrest : forall q', In q' rest -> overwrites (F q'))
      by (intros q' Hq'; apply Hover; now right).
    destruct (IH Hrest val' val2' old) as (Hc' & Hr' & Hel); try (subst val' val2'; simpl; assumption).
    cbn zeta in Hc', Hr', Hel.
    split; [exact Hc'|]. split; [exact Hr'|].
    intros i j Hi Hj.
    rewrite (Hel i j Hi Hj). f_equal.
    subst val' val2'. simpl. f_equal. rewrite Hc, Hr.
    apply Hover; [now left | exact Hi | exact Hj].
Qed.

Lemma fill_members_elem (plist : list SBProfile) (val : MatrixView T)
  (garbage : nat -> nat -> T) :
  (forall q, In q plist -> overwrites (F q)) ->
  match plist with
  | [] => fill_members plus (fun q => fill_view (F q)) plist val garbage = Undefined
  | q :: rest =>
      filled_with (fill_members plus (fun q => fill_view (F q)) plist val garbage) val
        (fun i j =>
           fold_left
             (fun acc q' => plus acc (F q' (colsize val) (rowsize val) (elem val) i j))
             rest (F q (colsize val) (rowsize val) (elem val) i j))
  end.
Proof.
  intros Hover. destruct plist as [|q rest]; [reflexivity|].
  unfold fill_members, filled_with.
  destruct rest as [|q2 rest].
  - eexists. split; [reflexivity|]. repeat split; reflexivity.
  - eexists. split; [reflexivity|].
    assert (Hrest : forall q', In q' (q2 :: rest) -> overwrites (F q'))
      by (intros q' Hq'; apply Hover; now right).
    destruct (fill_rest_elem (q2 :: rest) Hrest (fill_view (F q) val)
                (mkMatrixView (colsize (fill_view (F q) val))
                   (rowsize (fill_view (F q) val)) garbage)
                (elem val) eq_refl eq_refl) as (Hc & Hr & Hel).
    cbn zeta in Hc, Hr, Hel.
    split; [exact Hc|]. split; [exact Hr|].
    intros i j Hi Hj. exact (Hel i j Hi Hj).
Qed.

(** When the fills of the members evaluate a point function on a lattice,
    the fill of the composite accumulates the point values as the point
    evaluation of the composite does. *)
Lemma fill_members_points (value : SBProfile -> Position -> T)
  (lattice : nat -> nat -> Position) (q : SBProfile) (rest : list SBProfile)
  (val : MatrixView T) (garbage : nat -> nat -> T) :
  fills_at_points F value lattice (q :: rest) ->
  filled_with (fill_members plus (fun q => fill_view (F q)) (q :: rest) val garbage) val
    (fun i j =>
       fold_left (fun acc q' => plus acc (value q' (lattice i j))) rest
         (value q (lattice i j))).
Proof.
  intros Hpts.
  assert (Hover : forall q', In q' (q :: rest) -> overwrites (F q')).
  { intros q' Hq' c r old1 old2 i j Hi Hj.
    now rewrite (Hpts q' Hq' c r old1 i j Hi Hj), (Hpts q' Hq' c r old2 i j Hi Hj). }
  destruct (fill_members_elem (q :: rest) val garbage Hover) as (m & Hm & Hc & Hr & Hel).
  exists m. split; [exact Hm|]. split; [exact Hc|]. split; [exact Hr|].
  intros i j Hi Hj. rewrite (Hel i j Hi Hj).
  rewrite (Hpts q (or_introl eq_refl) _ _ _ i j Hi Hj).
  assert (Hfold : forall l a,
            (forall q', In q' l -> In q' (q :: rest)) ->
            fold_left (fun acc q' => plus acc (F q' (colsize val) (rowsize val) (elem val) i j)) l a
            = fold_left (fun acc q' => plus acc (value q' (lattice i j))) l a).
  { induction l as [|q' l IH]; intros a Hin; simpl; [reflexivity|].
    rewrite (Hpts q' (Hin q' (or_introl eq_refl)) _ _ _ i j Hi Hj).
    apply IH. intros q'' Hq''. apply Hin. now right. }
  apply Hfold. intros q' Hq'. now right.
Qed.

End FillFacts.

Section CompositeFill.
Context {ME : MemberEval}.



(** X6. Grid fills agree with point evaluation.  When the grid fill of
    every member of a composite evaluates the member at the lattice
    points, in real or in Fourier space, on an axis-aligned or on a
    sheared lattice, then the grid fill of the composite holds at every
    lattice point the value of the composite at that point. *)
Theorem composite_fill_agrees_with_points (sba : SBAddImpl)
  (lattice : nat -> nat -> Position)
  (x0 dx : double) (izero : Z) (y0 dy : double) (jzero : Z) (dxy dyx : double) :
  getObjs sba <> [] ->
  (forall (val : MatrixView double) (garbage : nat -> nat -> double),
     fills_at_points
       (fun q c r old => SBProfile_fillXValue q c r old x0 dx izero y0 dy jzero)
       SBProfile_xValue lattice (getObjs sba) ->
     exists m, fillXValue sba val garbage x0 dx izero y0 dy jzero = Ok m
       /\ forall i j, (i < colsize val)%nat -> (j < rowsize val)%nat ->
            xValue sba (lattice i j) = Ok (elem m i j))
  /\ (forall (val : MatrixView double) (garbage : nat -> nat -> double),
      fills_at_points
        (fun q c r old => SBProfile_fillXValue_sheared q c r old x0 dx dxy y0 dy dyx)
        SBProfile_xValue lattice (getObjs sba) ->
      exists m, fillXValue_sheared sba val garbage x0 dx dxy y0 dy dyx = Ok m
        /\ forall i j, (i < colsize val)%nat -> (j < rowsize val)%nat ->
             xValue sba (lattice i j) = Ok (elem m i j))
  /\ (forall (val : MatrixView complex) (garbage : nat -> nat -> complex),
      fills_at_points
        (fun q c r old => SBProfile_fillKValue q c r old x0 dx izero y0 dy jzero)
        SBProfile_kValue lattice (getObjs sba) ->
      exists m, fillKValue sba val garbage x0 dx izero y0 dy jzero = Ok m
        /\ forall i j, (i < colsize val)%nat -> (j < rowsize val)%nat ->
             kValue sba (lattice i j) = Ok (elem m i j))
  /\ (forall (val : MatrixView complex) (garbage : nat -> nat -> complex),
      fills_at_points
        (fun q c r old => SBProfile_fillKValue_sheared q c r old x0 dx dxy y0 dy dyx)
        SBProfile_kValue lattice (getObjs sba) ->
      exists m, fillKValue_sheared sba val garbage x0 dx dxy y0 dy dyx = Ok m
        /\ forall i j, (i < colsize val)%nat -> (j < rowsize val)%nat ->
             kValue sba (lattice i j) = Ok (elem m i j)).
Proof.
  unfold getObjs, fillXValue, fillXValue_sheared, fillKValue, fillKValue_sheared,
    xValue, kValue.
  destruct (_plist sba) as [|q rest]; [congruence|]. intros _.
  repeat split; intros val garbage Hpts.
  - destruct (fill_members_points double Rplus _ _ lattice q rest val garbage Hpts)
      as (m & Hm & _ & _ & Hel).
    exists m. split; [exact Hm|]. intros i j Hi Hj. now rewrite (Hel i j Hi Hj).
  - destruct (fill_members_points double Rplus _ _ lattice q rest val garbage Hpts)
      as (m & Hm & _ & _ & Hel).
    exists m. split; [exact Hm|]. intros i j Hi Hj. now rewrite (Hel i j Hi Hj).
  - destruct (fill_members_points complex cadd _ _ lattice q rest val garbage Hpts)
      as (m & Hm & _ & _ & Hel).
    exists m. split; [exact Hm|]. intros i j Hi Hj. now rewrite (Hel i j Hi Hj).
  - destruct (fill_members_points complex cadd _ _ lattice q rest val garbage Hpts)
      as (m & Hm & _ & _ & Hel).
    exists m. split; [exact Hm|]. intros i j Hi Hj. now rewrite (Hel i j Hi Hj).
Qed.

End CompositeFill.



Lemma composite_fill_agrees_with_points_witness :
  let sba := initialize None [Sample.profA; Sample.profB] in
  let val := mkMatrixView 2 2 (fun _ _ => 0) in
  exists m,
    @fillXValue Sample.plane_eval sba val (fun _ _ => 7) 0 1 0 0 1 0 = Ok m
    /\ @xValue Sample.plane_eval sba (mkPosition (0 + INR 1 * 1) (0 + INR 1 * 1))
       = Ok (elem m 1%nat 1%nat).
Proof.
  cbn zeta.
  destruct (@composite_fill_agrees_with_points Sample.plane_eval
              (initialize None [Sample.profA; Sample.profB])
              (fun i j => mkPosition (0 + INR i * 1) (0 + INR j * 1))
              0 1 0 0 1 0 0 0) as (Hx & _).
  - unfold getObjs. rewrite initialize_plist. discriminate.
  - destruct (Hx (mkMatrixView 2 2 (fun _ _ => 0)) (fun _ _ => 7)) as (m & Hm & Hel).
    + intros q _ c r old i j _ _. reflexivity.
    + exists m. split; [exact Hm|]. apply (Hel 1%nat 1%nat); simpl; lia.
Defined.

(** *** Photon shooting: counts and fluxes *)

Lemma getTotalFlux_append (pa rhs : PhotonArray) :
  getTotalFlux (append pa rhs) = getTotalFlux pa + getTotalFlux rhs.
Proof.
  unfold getTotalFlux, append. cbn [photons].
  induction (photons pa) as [|p l IH]; simpl; [lra|]. rewrite IH. lra.
Qed.

Lemma getTotalFlux_scaleFlux (pa : PhotonArray) (scale : double) :
  getTotalFlux (scaleFlux pa scale) = getTotalFlux pa * scale.
Proof.
  unfold getTotalFlux, scaleFlux. cbn [photons].
  induction (photons pa) as [|p l IH]; simpl; [lra|]. rewrite IH. lra.
Qed.

Lemma photons_unit_scale (pa : PhotonArray) :
  photons (scaleFlux pa 1) = photons pa.
Proof.
  unfold scaleFlux. cbn [photons].
  induction (photons pa) as [|p l IH]; simpl; [reflexivity|].
  rewrite IH. destruct p as [x y f]. simpl. now rewrite Rmult_1_r.
Qed.

Section CountFacts.
Context {DV : Deviates} {MS : MemberShoot}.

(** What the loop of [shoot] conserves: the photons shot and the photons
    left to shoot add up to the same number throughout, and the flux shot
    is the flux per photon times the photons shot. *)
Lemma shoot_loop_conserves (fluxPerPhoton : double) (pptr : list SBProfile) :
  draws_within_trials ->
  shoots_as_asked pptr ->
  forall st : shoot_state,
    (0 <= remainingN st)%Z ->
    let st' := shoot_loop fluxPerPhoton pptr st in
    (0 <= remainingN st' <= remainingN st)%Z
    /\ (List.length (photons (result st')) + Z.to_nat (remainingN st')
        = List.length (photons (result st)) + Z.to_nat (remainingN st))%nat
    /\ (shoots_its_flux pptr ->
        (forall q, In q pptr -> absoluteFlux q <> 0) ->
        getTotalFlux (result st')
        = getTotalFlux (result st)
          + fluxPerPhoton * IZR (remainingN st - remainingN st'))
    /\ (pptr <> [] ->
        remainingAbsoluteFlux st = sum_of absoluteFlux pptr ->
        (forall q, In q pptr -> 0 < absoluteFlux q) ->
        remainingN st' = 0%Z).
Proof.
  intros Hdraw.
  induction pptr as [|p nextPtr IH]; intros Hasked st Hrem.
  - cbn. repeat split; try lia.
    + intros _ _. rewrite Z.sub_diag. simpl. lra.
    + congruence.
  - cbn [shoot_loop]. cbn zeta. fold (absoluteFlux p).
    set (draw := match nextPtr with
                 | [] => (remainingN st, gen st)
                 | _ :: _ => BinomialDeviate (gen st) (remainingN st)
                               (absoluteFlux p / remainingAbsoluteFlux st)
                 end).
    assert (Hk : (0 <= fst draw <= remainingN st)%Z).
    { subst draw. destruct nextPtr; [simpl; lia | now apply Hdraw]. }
    assert (Hlast : nextPtr = [] -> fst draw = remainingN st).
    { intros ->. reflexivity. }
    destruct draw as [thisN u1]. cbn [fst] in Hk, Hlast.
    set (drawn := if (thisN >? 0)%Z
                  then let '(thisPA, u2) := SBProfile_shoot p thisN u1 in
                       (append (result st)
                          (scaleFlux thisPA (fluxPerPhoton * IZR thisN / absoluteFlux p)), u2)
                  else (result st, u1)).
    assert (Hdrawn :
      List.length (photons (fst drawn))
      = (List.length (photons (result st)) + Z.to_nat thisN)%nat
      /\ (shoots_its_flux (p :: nextPtr) -> absoluteFlux p <> 0 ->
          getTotalFlux (fst drawn) = getTotalFlux (result st) + fluxPerPhoton * IZR thisN)).
    { subst drawn. destruct (Z.gtb_spec thisN 0) as [Hpos|Hnonpos].
      - pose proof (Hasked p (or_introl eq_refl) thisN u1 Hpos) as Hlen.
        destruct (SBProfile_shoot p thisN u1) as [pa u2] eqn:Hshoot.
        cbn [fst] in *. split.
        + unfold append, scaleFlux. cbn [photons].
          rewrite length_app, length_map, Hlen. reflexivity.
        + intros Hflux Hnz.
          pose proof (Hflux p (or_introl eq_refl) thisN u1 Hpos) as Hf.
          rewrite Hshoot in Hf. cbn [fst] in Hf.
          rewrite getTotalFlux_append, getTotalFlux_scaleFlux, Hf. field. exact Hnz.
      - cbn [fst]. assert (thisN = 0%Z) by lia. subst thisN. simpl. split; [lia|].
        intros _ _. lra. }
    destruct drawn as [result' u2]. cbn [fst] in Hdrawn.
    destruct Hdrawn as (Hlen & Hflux).
    cbn [remainingN remainingAbsoluteFlux result].
    assert (Hasked' : shoots_as_asked nextPtr)
      by (intros q Hq; apply Hasked; now right).
    set (st1 := {| result := result';
                   remainingAbsoluteFlux := remainingAbsoluteFlux st - absoluteFlux p;
                   remainingN := (remainingN st - thisN)%Z;
                   gen := u2 |}).
    assert (Hstop :
      (0 <= remainingN st1 <= remainingN st)%Z
      /\ (List.length (photons (result st1)) + Z.to_nat (remainingN st1)
          = List.length (photons (result st)) + Z.to_nat (remainingN st))%nat
      /\ (shoots_its_flux (p :: nextPtr) ->
          (forall q, In q (p :: nextPtr) -> absoluteFlux q <> 0) ->
          getTotalFlux (result st1)
          = getTotalFlux (result st)
            + fluxPerPhoton * IZR (remainingN st - remainingN st1))).
    { subst st1. cbn [remainingN result]. split; [lia|]. split.
      - rewrite Hlen. rewrite <- Nat.add_assoc, <- Z2Nat.inj_add by lia.
        do 2 f_equal. lia.
      - intros Hf Hnz. rewrite (Hflux Hf (Hnz p (or_introl eq_refl))).
        do 3 f_equal. lia. }
    destruct Hstop as (Hr1 & Hl1 & Hf1).
    destruct (Z.leb_spec (remainingN st - thisN) 0) as [Hdone|Hmore].
    + fold st1. repeat split; try (apply Hr1); try exact Hl1; try exact Hf1.
      intros _ _ _. subst st1. cbn [remainingN] in *. lia.
    + destruct (d_le (remainingAbsoluteFlux st - absoluteFlux p) 0) eqn:Hfluxleft.
      * fold st1. repeat split; try (apply Hr1); try exact Hl1; try exact Hf1.
        intros _ Hsum Hpos. exfalso.
        apply d_le_true in Hfluxleft. rewrite Hsum in Hfluxleft. simpl in Hfluxleft.
        destruct nextPtr as [|q rest].
        -- specialize (Hlast eq_refl). lia.
        -- assert (Hq : 0 < absoluteFlux q) by (apply Hpos; right; now left).
           assert (Hrest : 0 <= sum_of absoluteFlux rest).
           { clear - Hpos. induction rest as [|q' rest IH]; simpl; [lra|].
             assert (0 < absoluteFlux q') by (apply Hpos; right; right; now left).
             assert (0 <= sum_of absoluteFlux rest).
             { apply IH. intros q'' [Hq''|[Hq''|Hq'']]; apply Hpos;
                 [now left | right; now left | right; right; now right]. }
             lra. }
           simpl in Hfluxleft. lra.
      * fold st1.
        destruct (IH Hasked' st1) as (Hr2 & Hl2 & Hf2 & Hz2).
        { subst st1. cbn [remainingN]. lia. }
        cbn zeta in Hr2, Hl2, Hf2, Hz2.
        repeat split; try lia.
        -- intros Hf Hnz.
           rewrite Hf2.
           ++ rewrite Hf1 by assumption.
              rewrite Rplus_assoc, <- Rmult_plus_distr_l, <- plus_IZR.
              do 3 f_equal. lia.
           ++ intros q Hq. apply Hf. now right.
           ++ intros q Hq. apply Hnz. now right.
        -- intros _ Hsum Hpos.
           destruct nextPtr as [|q rest].
           ++ specialize (Hlast eq_refl). subst st1. cbn [remainingN] in *. lia.
           ++ apply Hz2; [discriminate | | intros q' Hq'; apply Hpos; now right].
              subst st1. cbn [remainingAbsoluteFlux]. rewrite Hsum. simpl. lra.
Qed.

(** X7. The number of photons.  When binomial draws lie within their
    trials and every member returns as many photons as it is asked for,
    [shoot] with a count [N >= 0] returns at most [N] photons, and
    exactly [N] photons when the composite has a member and all its
    members have a positive absolute flux. *)
Theorem shoot_photon_count (sba : SBAddImpl) (N : Z) (u : rng) :
  draws_within_trials ->
  shoots_as_asked (getObjs sba) ->
  (0 <= N)%Z ->
  (List.length (photons (fst (shoot sba N u))) <= Z.to_nat N)%nat
  /\ (getObjs sba <> [] ->
      (forall q, In q (getObjs sba) -> 0 < absoluteFlux q) ->
      List.length (photons (fst (shoot sba N u))) = Z.to_nat N).
Proof.
  intros Hdraw Hasked HN. unfold shoot. cbn [fst].
  set (fpp := (SBAddImpl_getPositiveFlux sba + SBAddImpl_getNegativeFlux sba) / IZR N).
  set (st0 := {| result := PhotonArray_new 0;
                 remainingAbsoluteFlux :=
                   SBAddImpl_getPositiveFlux sba + SBAddImpl_getNegativeFlux sba;
                 remainingN := N; gen := u |}).
  destruct (shoot_loop_conserves fpp (_plist sba) Hdraw Hasked st0 HN)
    as (Hr & Hl & _ & Hz).
  cbn zeta in Hr, Hl, Hz.
  assert (Hlen : forall b : bool,
            List.length (photons (if b then setCorrelated (result (shoot_loop fpp (_plist sba) st0))
                                  else result (shoot_loop fpp (_plist sba) st0)))
            = List.length (photons (result (shoot_loop fpp (_plist sba) st0))))
    by (intros []; reflexivity).
  rewrite Hlen. subst st0. cbn [result remainingN PhotonArray_new photons] in Hl.
  simpl in Hl. split; [lia|].
  intros Hne Hpos. rewrite Hz in Hl; [simpl in Hl; lia | exact Hne | | exact Hpos].
  cbn [remainingAbsoluteFlux]. apply totalAbsoluteFlux_sum.
Qed.


(** The loop on a single member. *)
Lemma shoot_loop_single (fluxPerPhoton : double) (q : SBProfile) (st : shoot_state) :
  shoot_loop fluxPerPhoton [q] st
  = let drawn :=
      if (remainingN st >? 0)%Z then
        (append (result st)
           (scaleFlux (fst (SBProfile_shoot q (remainingN st) (gen st)))
              (fluxPerPhoton * IZR (remainingN st) / absoluteFlux q)),
         snd (SBProfile_shoot q (remainingN st) (gen st)))
      else (result st, gen st) in
    {| result := fst drawn;
       remainingAbsoluteFlux := remainingAbsoluteFlux st - absoluteFlux q;
       remainingN := (remainingN st - remainingN st)%Z;
       gen := snd drawn |}.
Proof.
  cbn [shoot_loop]. cbn zeta. fold (absoluteFlux q).
  destruct (remainingN st >? 0)%Z.
  - destruct (SBProfile_shoot q (remainingN st) (gen st)) as [pa u2]. cbn [fst snd].
    destruct (_ <=? 0)%Z; [reflexivity|]. destruct (d_le _ 0); reflexivity.
  - cbn [fst snd].
    destruct (_ <=? 0)%Z; [reflexivity|]. destruct (d_le _ 0); reflexivity.
Qed.

(** X9. A composite of a single member hands the count on to that
    member.  For a count [N > 0] the photons are the ones the member
    returns for [N] and the generator of the call, in the member's
    order and with its positions, each weight multiplied by the factor
    the loop computes, the total absolute flux over [N], times [N], over
    the absolute flux of the member; the generator is left as the member
    leaves it, and no binomial draw is made.  For a count [N <= 0] no
    photon is returned and the generator is not used.  In both cases the
    photons are not marked correlated. *)
Theorem single_member_shoot (sba : SBAddImpl) (q : SBProfile) (N : Z) (u : rng) :
  getObjs sba = [q] ->
  ((0 < N)%Z ->
   photons (fst (shoot sba N u))
   = photons (scaleFlux (fst (SBProfile_shoot q N u))
                ((getPositiveFlux (Add sba) + getNegativeFlux (Add sba)) / IZR N
                 * IZR N / absoluteFlux q))
   /\ List.length (photons (fst (shoot sba N u)))
      = List.length (photons (fst (SBProfile_shoot q N u)))
   /\ snd (shoot sba N u) = snd (SBProfile_shoot q N u))
  /\ ((N <= 0)%Z -> photons (fst (shoot sba N u)) = [] /\ snd (shoot sba N u) = u)
  /\ isCorrelated (fst (shoot sba N u)) = false.
Proof.
  intros Hq. unfold getObjs in Hq. unfold shoot, isCorrelated.
  unfold SBAddImpl_getPositiveFlux, SBAddImpl_getNegativeFlux.
  set (total := getPositiveFlux (Add sba) + getNegativeFlux (Add sba)).
  rewrite Hq. rewrite shoot_loop_single.
  cbn [List.length Nat.ltb Nat.leb fst snd remainingN gen result].
  split; [|split].
  - intros HN.
    replace (N >? 0)%Z with true by (symmetry; apply Z.gtb_lt; lia).
    cbn [fst snd]. unfold append. cbn [photons PhotonArray_new repeat Z.to_nat app].
    split; [reflexivity|]. split; [|reflexivity].
    unfold scaleFlux. cbn [photons]. apply length_map.
  - intros HN.
    replace (N >? 0)%Z with false by (symmetry; rewrite Z.gtb_ltb; apply Z.ltb_ge; lia).
    split; reflexivity.
  - destruct (N >? 0)%Z; reflexivity.
Qed.

End CountFacts.

(** *** Runs on the sample data *)

Lemma sample_draws_within : @draws_within_trials Sample.scripted.
Proof.
  intros u n p Hn. cbn [BinomialDeviate Sample.scripted fst].
  destruct (d_le 1 p); [lia|]. destruct (d_le p 0); lia.
Qed.

Lemma sample_shoots_as_asked (l : list SBProfile) :
  @shoots_as_asked Sample.scripted Sample.point_shoot l.
Proof.
  intros q _ n u Hn. cbn [SBProfile_shoot Sample.point_shoot fst photons].
  apply repeat_length.
Qed.



Lemma sample_AB_positive :
  forall q, In q [Sample.profA; Sample.profB] -> 0 < absoluteFlux q.
Proof.
  intros q [<-|[<-|[]]]; [rewrite absoluteFlux_profA | rewrite absoluteFlux_profB]; lra.
Qed.

(** Four photons shot from the composite of [profA] and [profB]: their
    number. *)
Lemma shoot_photon_count_witness :
  let sba := initialize None [Sample.profA; Sample.profB] in
  List.length (photons (fst (@shoot Sample.scripted Sample.point_shoot sba 4 [1%Z])))
  = 4%nat.
Proof.
  cbn zeta.
  destruct (@shoot_photon_count Sample.scripted Sample.point_shoot
              (initialize None [Sample.profA; Sample.profB]) 4 [1%Z]
              sample_draws_within (sample_shoots_as_asked _)) as (_ & Hexact); [lia|].
  apply Hexact; unfold getObjs; rewrite initialize_plist;
    [discriminate | exact sample_AB_positive].
Defined.


(** Four photons shot from the composite of [profA] alone. *)
Lemma single_member_shoot_witness :
  let sba := initialize None [Sample.profA] in
  List.length (photons (fst (@shoot Sample.scripted Sample.point_shoot sba 4 [])))
  = List.length
      (photons (fst (@SBProfile_shoot Sample.scripted Sample.point_shoot
                       Sample.profA 4 [])))
  /\ snd (@shoot Sample.scripted Sample.point_shoot sba 4 []) = []
  /\ isCorrelated (fst (@shoot Sample.scripted Sample.point_shoot sba 4 [])) = false.
Proof.
  cbn zeta.
  destruct (@single_member_shoot Sample.scripted Sample.point_shoot
              (initialize None [Sample.profA]) Sample.profA 4 [])
    as (Hpos & _ & Hcorr).
  - unfold getObjs. now rewrite initialize_plist.
  - destruct Hpos as (_ & Hlen & Hgen); [lia|].
    split; [exact Hlen|]. split; [exact Hgen | exact Hcorr].
Defined.

End SBAddMore.

(** * Further properties of the Spergel profile *)

Module SBSpergelMore.

Import Solver SBSpergel.
Import SBAddFacts SBSpergelFacts.

(** *** The loops over the memory of an image *)

Section Loops.
Context {A B T : Type}.
Variables (row : B -> A) (value : A -> T) (next : A -> A) (next_row : B -> B).

Lemma store_same (mem : Z -> T) (ptr : Z) (v : T) : store mem ptr v ptr = v.
Proof. unfold store. now rewrite Z.eqb_refl. Qed.

Lemma store_other (mem : Z -> T) (ptr o : Z) (v : T) :
  o <> ptr -> store mem ptr v o = mem o.
Proof. intros Ho. unfold store. now apply Z.eqb_neq in Ho as ->. Qed.

(** The inner loop leaves the pointer behind the [m] elements it wrote. *)
Lemma write_run_ptr (m : nat) (a : A) (ptr : Z) (mem : Z -> T) :
  fst (write_run value next m a ptr mem) = (ptr + Z.of_nat m)%Z.
Proof.
  revert a ptr mem. induction m as [|m IH]; intros a ptr mem; cbn [write_run].
  - cbn. lia.
  - rewrite IH. lia.
Qed.

Lemma write_run_frame (m : nat) (a : A) (ptr : Z) (mem : Z -> T) (o : Z) :
  (o < ptr \/ ptr + Z.of_nat m <= o)%Z ->
  snd (write_run value next m a ptr mem) o = mem o.
Proof.
  revert a ptr mem. induction m as [|m IH]; intros a ptr mem Ho; cbn [write_run];
    [reflexivity|].
  rewrite IH by lia. apply store_other. lia.
Qed.

Lemma write_run_at (m : nat) (a : A) (ptr : Z) (mem : Z -> T) (i : nat) :
  (i < m)%nat ->
  snd (write_run value next m a ptr mem) (ptr + Z.of_nat i)%Z
  = value (Nat.iter i next a).
Proof.
  revert a ptr mem i. induction m as [|m IH]; intros a ptr mem i Hi; [lia|].
  cbn [write_run]. destruct i as [|i].
  - rewrite write_run_frame by lia.
    replace (ptr + Z.of_nat 0)%Z with ptr by lia. apply store_same.
  - replace (ptr + Z.of_nat (S i))%Z with (ptr + 1 + Z.of_nat i)%Z by lia.
    rewrite IH by lia. now rewrite Nat.iter_succ_r.
Qed.

(** The outer loop changes nothing outside the rows it writes. *)
Lemma write_rows_frame (advance : Z) (n m : nat) (b : B) (ptr : Z)
  (mem : Z -> T) (o : Z) :
  (forall j i : nat, (j < n)%nat -> (i < m)%nat ->
     o <> (ptr + Z.of_nat j * (Z.of_nat m + advance) + Z.of_nat i)%Z) ->
  snd (write_rows row value next next_row advance n m b ptr mem) o = mem o.
Proof.
  revert b ptr mem. induction n as [|n IH]; intros b ptr mem Ho; cbn [write_rows];
    [reflexivity|].
  pose proof (write_run_ptr m (row b) ptr mem) as Hptr.
  pose proof (write_run_frame m (row b) ptr mem o) as Hframe.
  destruct (write_run value next m (row b) ptr mem) as [ptr1 mem1].
  cbn [fst snd] in Hptr, Hframe. subst ptr1.
  rewrite IH.
  - apply Hframe.
    destruct (Z_lt_dec o ptr) as [|Hlo]; [now left|].
    destruct (Z_le_dec (ptr + Z.of_nat m) o) as [|Hhi]; [now right|].
    exfalso. apply (Ho 0%nat (Z.to_nat (o - ptr))); lia.
  - intros j i Hj Hi. specialize (Ho (S j) i).
    rewrite Nat2Z.inj_succ, Z.mul_succ_l in Ho.
    intros ->. apply Ho; lia.
Qed.

(** When the pointer is not moved backwards at the end of a row, row [j]
    holds in its element [i] the value of the loop variables after [j]
    turns of the outer and [i] turns of the inner loop. *)
Lemma write_rows_at (advance : Z) (n m : nat) (b : B) (ptr : Z)
  (mem : Z -> T) (j i : nat) :
  (0 <= advance)%Z -> (j < n)%nat -> (i < m)%nat ->
  snd (write_rows row value next next_row advance n m b ptr mem)
    (ptr + Z.of_nat j * (Z.of_nat m + advance) + Z.of_nat i)%Z
  = value (Nat.iter i next (row (Nat.iter j next_row b))).
Proof.
  intros Hadv. revert b ptr mem j.
  induction n as [|n IH]; intros b ptr mem j Hj Hi; [lia|].
  cbn [write_rows].
  pose proof (write_run_ptr m (row b) ptr mem) as Hptr.
  pose proof (write_run_at m (row b) ptr mem i Hi) as Hat.
  destruct (write_run value next m (row b) ptr mem) as [ptr1 mem1].
  cbn [fst snd] in Hptr, Hat. subst ptr1.
  destruct j as [|j].
  - rewrite write_rows_frame.
    + replace (ptr + Z.of_nat 0 * (Z.of_nat m + advance) + Z.of_nat i)%Z
        with (ptr + Z.of_nat i)%Z by lia.
      exact Hat.
    + intros j' i' _ Hi'.
      assert (0 <= Z.of_nat j' * (Z.of_nat m + advance))%Z
        by (apply Z.mul_nonneg_nonneg; lia).
      lia.
  - replace (ptr + Z.of_nat (S j) * (Z.of_nat m + advance) + Z.of_nat i)%Z
      with (ptr + Z.of_nat m + advance
            + Z.of_nat j * (Z.of_nat m + advance) + Z.of_nat i)%Z
      by (rewrite Nat2Z.inj_succ, Z.mul_succ_l; lia).
    rewrite IH by lia. now rewrite Nat.iter_succ_r.
Qed.

End Loops.

(** The loop variables of the fills after [i] turns. *)
Lemma iter_step_fst (d : double) (a : double * double) (i : nat) :
  Nat.iter i (fun a : double * double => (fst a + d, snd a)) a
  = (stepped (fst a) d i, snd a).
Proof.
  unfold stepped. induction i as [|i IH]; [now destruct a|].
  rewrite !Nat.iter_succ, IH. reflexivity.
Qed.

Lemma iter_step_both (d e : double) (a : double * double) (i : nat) :
  Nat.iter i (fun a : double * double => (fst a + d, snd a + e)) a
  = (stepped (fst a) d i, stepped (snd a) e i).
Proof.
  unfold stepped. induction i as [|i IH]; [now destruct a|].
  rewrite !Nat.iter_succ, IH. reflexivity.
Qed.

Lemma in_image_ncol {T : Type} (im : ImageView T) (i j : nat) :
  in_image im i j -> Z.of_nat (Z.to_nat (im_ncol im)) = im_ncol im.
Proof. intros [Hi _]. lia. Qed.

(** *** Grid fills *)

Section FillFacts.
Context {ML : MathLib} {QF : SBSpergelEval.QuadrantFill}.

(** X15. The real-space fill on an axis-aligned lattice whose first pixel
    is the corner ([izero = jzero = 0]).  For an image of unit step
    whose rows do not overlap, the fill returns and leaves the memory
    outside the pixels of the image, the gaps between its rows included,
    as it was.  In the pixel of column [i] and row [j] it stores
    [_xnorm] times the value of the shape at the radius
    [sqrt (x * x + y * y)], where [x] is [x0 * _inv_r0] after [i]
    additions of [dx * _inv_r0] and [y] is [y0 * _inv_r0] after [j]
    additions of [dy * _inv_r0]: the coordinates are scaled before they
    are stepped and squared. *)
Theorem fillXImage_lattice (impl : SBSpergelImpl) (im : ImageView double_ext)
  (x0 dx y0 dy : double) :
  im_step im = 1%Z ->
  (0 <= im_nskip im)%Z ->
  exists mem : Z -> double_ext,
    SBSpergelEval.fillXImage impl im x0 dx 0 y0 dy 0 = Ok mem
    /\ (forall i j, in_image im i j ->
          let x := stepped (x0 * _inv_r0 impl) (dx * _inv_r0 impl) i in
          let y := stepped (y0 * _inv_r0 impl) (dy * _inv_r0 impl) j in
          mem (pixel_offset im i j)
          = mul_ext (_xnorm impl)
              (SBSpergel.xValue (_info impl) (sqrt (x * x + y * y))))
    /\ (forall o, (forall i j, in_image im i j -> o <> pixel_offset im i j) ->
          mem o = im_data im o).
Proof.
  intros Hstep Hskip. unfold SBSpergelEval.fillXImage.
  rewrite Hstep. cbn [Z.eqb negb orb Pos.eqb].
  eexists. split; [reflexivity|]. split.
  - intros i j Hin. pose proof (in_image_ncol im i j Hin) as Hm.
    destruct Hin as [Hi Hj]. cbn zeta.
    replace (pixel_offset im i j)
      with (0 + Z.of_nat j * (Z.of_nat (Z.to_nat (im_ncol im)) + im_nskip im)
            + Z.of_nat i)%Z
      by (unfold pixel_offset; rewrite Hm; lia).
    rewrite write_rows_at by assumption.
    rewrite iter_step_fst. cbn [fst snd]. reflexivity.
  - intros o Ho. apply write_rows_frame. intros j i Hj Hi.
    pose proof (in_image_ncol im i j (conj Hi Hj)) as Hm.
    specialize (Ho i j (conj Hi Hj)).
    unfold pixel_offset in Ho. rewrite Hm. lia.
Qed.

(** X16. The real-space fill on a sheared lattice.  For an image of unit
    step whose rows do not overlap, the fill returns and leaves the
    memory outside the pixels of the image as it was.  In the pixel of
    column [i] and row [j] it stores [_xnorm] times the value of the
    shape at the radius [sqrt (x * x + y * y)], where [x] is
    [x0 * _inv_r0] after [j] additions of [dxy * _inv_r0] and [i]
    additions of [dx * _inv_r0], and [y] is [y0 * _inv_r0] after [j]
    additions of [dy * _inv_r0] and [i] additions of [dyx * _inv_r0]. *)
Theorem fillXImage_sheared_lattice (impl : SBSpergelImpl)
  (im : ImageView double_ext) (x0 dx dxy y0 dy dyx : double) :
  im_step im = 1%Z ->
  (0 <= im_nskip im)%Z ->
  exists mem : Z -> double_ext,
    SBSpergelEval.fillXImage_sheared impl im x0 dx dxy y0 dy dyx = Ok mem
    /\ (forall i j, in_image im i j ->
          let x := stepped (stepped (x0 * _inv_r0 impl) (dxy * _inv_r0 impl) j)
                     (dx * _inv_r0 impl) i in
          let y := stepped (stepped (y0 * _inv_r0 impl) (dy * _inv_r0 impl) j)
                     (dyx * _inv_r0 impl) i in
          mem (pixel_offset im i j)
          = mul_ext (_xnorm impl)
              (SBSpergel.xValue (_info impl) (sqrt (x * x + y * y))))
    /\ (forall o, (forall i j, in_image im i j -> o <> pixel_offset im i j) ->
          mem o = im_data im o).
Proof.
  intros Hstep Hskip. unfold SBSpergelEval.fillXImage_sheared.
  rewrite Hstep. cbn [Z.eqb negb Pos.eqb].
  eexists. split; [reflexivity|]. split.
  - intros i j Hin. pose proof (in_image_ncol im i j Hin) as Hm.
    destruct Hin as [Hi Hj]. cbn zeta.
    replace (pixel_offset im i j)
      with (0 + Z.of_nat j * (Z.of_nat (Z.to_nat (im_ncol im)) + im_nskip im)
            + Z.of_nat i)%Z
      by (unfold pixel_offset; rewrite Hm; lia).
    rewrite write_rows_at by assumption.
    rewrite iter_step_both, iter_step_both. cbn [fst snd]. reflexivity.
  - intros o Ho. apply write_rows_frame. intros j i Hj Hi.
    pose proof (in_image_ncol im i j (conj Hi Hj)) as Hm.
    specialize (Ho i j (conj Hi Hj)).
    unfold pixel_offset in Ho. rewrite Hm. lia.
Qed.

(** X17. The Fourier-space fill on an axis-aligned lattice whose first
    pixel is the corner.  For an image of unit step whose rows do not
    overlap, the fill returns and leaves the memory outside the pixels
    of the image as it was.  In the pixel of column [i] and row [j] it
    stores the flux times the value of the shape at
    [kx * kx + ky * ky], where [kx] is [kx0 * _r0] after [i] additions
    of [dkx * _r0] and [ky] is [ky0 * _r0] after [j] additions of
    [dky * _r0]. *)
Theorem fillKImage_lattice (impl : SBSpergelImpl) (im : ImageView complex)
  (kx0 dkx ky0 dky : double) :
  im_step im = 1%Z ->
  (0 <= im_nskip im)%Z ->
  exists mem : Z -> complex,
    SBSpergelEval.fillKImage impl im kx0 dkx 0 ky0 dky 0 = Ok mem
    /\ (forall i j, in_image im i j ->
          let kx := stepped (kx0 * _r0 impl) (dkx * _r0 impl) i in
          let ky := stepped (ky0 * _r0 impl) (dky * _r0 impl) j in
          mem (pixel_offset im i j)
          = complex_of
              (impl_flux impl * SBSpergel.kValue (_info impl) (kx * kx + ky * ky)))
    /\ (forall o, (forall i j, in_image im i j -> o <> pixel_offset im i j) ->
          mem o = im_data im o).
Proof.
  intros Hstep Hskip. unfold SBSpergelEval.fillKImage.
  rewrite Hstep. cbn [Z.eqb negb orb Pos.eqb].
  eexists. split; [reflexivity|]. split.
  - intros i j Hin. pose proof (in_image_ncol im i j Hin) as Hm.
    destruct Hin as [Hi Hj]. cbn zeta.
    replace (pixel_offset im i j)
      with (0 + Z.of_nat j * (Z.of_nat (Z.to_nat (im_ncol im)) + im_nskip im)
            + Z.of_nat i)%Z
      by (unfold pixel_offset; rewrite Hm; lia).
    rewrite write_rows_at by assumption.
    rewrite iter_step_fst. cbn [fst snd]. reflexivity.
  - intros o Ho. apply write_rows_frame. intros j i Hj Hi.
    pose proof (in_image_ncol im i j (conj Hi Hj)) as Hm.
    specialize (Ho i j (conj Hi Hj)).
    unfold pixel_offset in Ho. rewrite Hm. lia.
Qed.

(** X18. The Fourier-space fill on a sheared lattice does not step over
    the gap between rows.  For an image of unit step the fill returns
    and writes the value of row [j] and column [i] at the offset
    [j * ncol + i], whatever the skip of the image, and leaves all other
    memory as it was; this is the offset of the pixel when the skip is
    zero.  The value is the flux times the value of the shape at
    [kx * kx + ky * ky], where [kx] is [kx0 * _r0] after [j] additions
    of [dkxy * _r0] and [i] additions of [dkx * _r0], and [ky] is
    [ky0 * _r0] after [j] additions of [dky * _r0] and [i] additions of
    [dkyx * _r0]. *)
Theorem fillKImage_sheared_ignores_skip (impl : SBSpergelImpl)
  (im : ImageView complex) (kx0 dkx dkxy ky0 dky dkyx : double) :
  im_step im = 1%Z ->
  exists mem : Z -> complex,
    SBSpergelEval.fillKImage_sheared impl im kx0 dkx dkxy ky0 dky dkyx = Ok mem
    /\ (forall i j, in_image im i j ->
          let kx := stepped (stepped (kx0 * _r0 impl) (dkxy * _r0 impl) j)
                      (dkx * _r0 impl) i in
          let ky := stepped (stepped (ky0 * _r0 impl) (dky * _r0 impl) j)
                      (dkyx * _r0 impl) i in
          mem (packed_offset im i j)
          = complex_of
              (impl_flux impl * SBSpergel.kValue (_info impl) (kx * kx + ky * ky)))
    /\ (forall o, (forall i j, in_image im i j -> o <> packed_offset im i j) ->
          mem o = im_data im o)
    /\ (im_nskip im = 0%Z ->
        forall i j, packed_offset im i j = pixel_offset im i j).
Proof.
  intros Hstep. unfold SBSpergelEval.fillKImage_sheared.
  rewrite Hstep. cbn [Z.eqb negb Pos.eqb].
  eexists. split; [reflexivity|]. split; [|split].
  - intros i j Hin. pose proof (in_image_ncol im i j Hin) as Hm.
    destruct Hin as [Hi Hj]. cbn zeta.
    replace (packed_offset im i j)
      with (0 + Z.of_nat j * (Z.of_nat (Z.to_nat (im_ncol im)) + 0) + Z.of_nat i)%Z
      by (unfold packed_offset; rewrite Hm; lia).
    rewrite write_rows_at by (assumption || lia).
    rewrite iter_step_both, iter_step_both. cbn [fst snd]. reflexivity.
  - intros o Ho. apply write_rows_frame. intros j i Hj Hi.
    pose proof (in_image_ncol im i j (conj Hi Hj)) as Hm.
    specialize (Ho i j (conj Hi Hj)).
    unfold packed_offset in Ho. rewrite Hm. lia.
  - intros Hzero i j. unfold packed_offset, pixel_offset. rewrite Hzero. f_equal.
    f_equal. lia.
Qed.

End FillFacts.

(** *** The constructor *)

Section ConstructorFacts.
Context {ML : MathLib} {SB : SpergelBounds} {RF : RootFinder} {SC : SpergelCache}.

(** [getHLR] changes the half-light radius of the record at most. *)
Lemma getHLR_record (info info' : SpergelInfo) (v : double) :
  getHLR info = Ok (v, info') -> info' = set_re info v.
Proof.
  unfold getHLR. destruct (d_eq (_re info) 0).
  - unfold bind. destruct (calculateFluxRadius info 0.5); try discriminate.
    intros Hok. injection Hok as <- <-. reflexivity.
  - intros Hok. injection Hok as <- <-. now destruct info.
Qed.

Lemma SBSpergelImpl_new_fields (nu size : double) (rType : RadiusType)
  (flux : double) (gs : GSParams) (impl : SBSpergelImpl) :
  SBSpergelImpl_new nu size rType flux gs = Ok impl ->
  getFlux impl = flux /\ getNu impl = nu /\ impl_gsparams impl = gs
  /\ _shootnorm impl = flux * getXNorm (_info impl)
  /\ _xnorm impl = _shootnorm impl / _r0_sq impl.
Proof.
  unfold SBSpergelImpl_new, bind.
  destruct (cache_get nu gs) as [info0| |]; try discriminate.
  destruct (getHLR info0) as [[HLR info1]| |]; destruct rType; try discriminate;
    cbn [fst snd]; intros Hok; injection Hok as <-; cbn; repeat split.
Qed.

(** The shape record of an instance built on a key new to the cache. *)
Lemma constructed_on_miss (nu size : double) (rType : RadiusType)
  (flux : double) (gs : GSParams) (impl : SBSpergelImpl) :
  cache_miss nu gs ->
  SBSpergelImpl_new nu size rType flux gs = Ok impl ->
  minimum_spergel_nu <= nu <= maximum_spergel_nu
  /\ _nu (_info impl) = nu /\ _gsparams (_info impl) = gs
  /\ _gamma_nup1 (_info impl) = tgamma (nu + 1)
  /\ _xnorm0 (_info impl)
     = (if d_gt nu 0 then Finite (tgamma (nu + 1) / (2 * nu) * pow 2 nu)
        else INFINITY).
Proof.
  intros Hmiss Hnew.
  destruct (SBSpergelImpl_new_inv _ _ _ _ _ _ Hnew)
    as (info0 & HLR & Hcache & Hhlr & _).
  unfold cache_miss in Hmiss. rewrite Hmiss in Hcache.
  apply SpergelInfo_new_inv in Hcache. destruct Hcache as (Hrange & ->).
  apply getHLR_record in Hhlr. rewrite Hhlr. cbn.
  repeat split; lra || reflexivity.
Qed.

(** X10. The index is the only argument the constructor checks.  On a key
    new to the cache, an index below [minimum_spergel_nu] or above
    [maximum_spergel_nu] makes the constructor throw the error "Requested
    Spergel index out of range", whatever the size, the kind of radius
    and the flux; an instance is only ever returned for an index within
    the two bounds, which are themselves accepted; and for such an index
    the constructor returns an instance for every size and flux, zero and
    negative ones included, when the solver finds the half-light radius
    of the shape. *)
Theorem index_out_of_range_is_thrown (nu size : double) (rType : RadiusType)
  (flux : double) (gs : GSParams) :
  cache_miss nu gs ->
  (nu < minimum_spergel_nu \/ maximum_spergel_nu < nu ->
   SBSpergelImpl_new nu size rType flux gs
   = Throw (SBError "Requested Spergel index out of range"))
  /\ (forall impl, SBSpergelImpl_new nu size rType flux gs = Ok impl ->
        minimum_spergel_nu <= nu <= maximum_spergel_nu)
  /\ (minimum_spergel_nu <= nu <= maximum_spergel_nu ->
      forall info HLR,
        SpergelInfo_new nu gs = Ok info ->
        calculateFluxRadius info 0.5 = Ok HLR ->
        exists impl, SBSpergelImpl_new nu size rType flux gs = Ok impl).
Proof.
  intros Hmiss. split; [|split].
  - intros Hout. unfold SBSpergelImpl_new, bind. rewrite Hmiss.
    unfold SpergelInfo_new.
    destruct Hout as [Hlo|Hhi].
    + replace (d_lt nu minimum_spergel_nu) with true
        by (symmetry; now apply d_lt_true).
      reflexivity.
    + replace (d_gt nu maximum_spergel_nu) with true
        by (symmetry; now apply d_gt_true).
      now rewrite orb_true_r.
  - intros impl Hnew.
    now destruct (constructed_on_miss _ _ _ _ _ _ Hmiss Hnew) as (Hrange & _).
  - intros Hrange info HLR Hinfo Hcalc.
    assert (Hre : _re info = 0)
      by (apply SpergelInfo_new_inv in Hinfo; destruct Hinfo as (_ & ->); reflexivity).
    pose proof (getHLR_fresh info HLR Hre Hcalc) as Hhlr.
    unfold SBSpergelImpl_new, bind. rewrite Hmiss, Hinfo.
    destruct rType; rewrite Hhlr; cbn [fst snd]; eexists; reflexivity.
Qed.

End ConstructorFacts.

(** *** Memoization *)

Section MemoFacts.
Context {ML : MathLib}.

Lemma stepK_record (RF : RootFinder) (info info' : SpergelInfo) (k : double) :
  stepK info = Ok (k, info') -> info' = set_stepk info k.
Proof.
  unfold stepK. destruct (d_eq (_stepk info) 0).
  - unfold bind.
    destruct (calculateFluxRadius info (1 - folding_threshold (_gsparams info)));
      try discriminate.
    intros Hok. injection Hok as <- <-. reflexivity.
  - intros Hok. injection Hok as <- <-. now destruct info.
Qed.

Lemma maxK_record (info : SpergelInfo) :
  snd (maxK info) = set_maxk info (fst (maxK info)).
Proof.
  unfold maxK. destruct (d_eq (_maxk info) 0); cbn [fst snd]; [reflexivity|].
  now destruct info.
Qed.

(** [maxK] answers the same when asked again. *)
Lemma maxK_again (info : SpergelInfo) :
  maxK (snd (maxK info)) = (fst (maxK info), snd (maxK info)).
Proof.
  unfold maxK. destruct (d_eq (_maxk info) 0) eqn:Hzero;
    cbn [fst snd _maxk set_maxk _gsparams _nu].
  - destruct (d_eq (pow _ _) 0); reflexivity.
  - now rewrite Hzero.
Qed.

(** X11. The derived constants are computed once.  After [getHLR] and
    [stepK] have returned values that are not zero, the record answers
    [getHLR], [stepK] and [maxK] from what it stored: whatever root
    finder is in place afterwards, also one that fails, each returns the
    value it returned before and leaves the record as it is, and asking
    for one of the three does not disturb the other two. *)
Theorem derived_constants_are_memoized (RF1 RF2 : RootFinder)
  (info info1 info2 : SpergelInfo) (HLR k : double) :
  @getHLR ML RF1 info = Ok (HLR, info1) ->
  @stepK ML RF1 info1 = Ok (k, info2) ->
  HLR <> 0 -> k <> 0 ->
  let info3 := snd (maxK info2) in
  @getHLR ML RF2 info3 = Ok (HLR, info3)
  /\ @stepK ML RF2 info3 = Ok (k, info3)
  /\ maxK info3 = (fst (maxK info2), info3).
Proof.
  intros Hhlr Hstep Hre Hk info3.
  apply getHLR_record in Hhlr. apply stepK_record in Hstep.
  assert (H3 : info3 = set_maxk info2 (fst (maxK info2))) by apply maxK_record.
  assert (Hre3 : _re info3 = HLR) by (rewrite H3, Hstep, Hhlr; reflexivity).
  assert (Hk3 : _stepk info3 = k) by (rewrite H3, Hstep; reflexivity).
  split; [|split].
  - unfold getHLR. rewrite Hre3.
    now replace (d_eq HLR 0) with false by (symmetry; now apply d_eq_false).
  - unfold stepK. rewrite Hk3.
    now replace (d_eq k 0) with false by (symmetry; now apply d_eq_false).
  - apply maxK_again.
Qed.

End MemoFacts.

(** *** Photon shooting *)

Section ShootMore.
Context {ML : MathLib} {DV : Deviates} {SS : SamplerShoot}.

(** What [shoot] installs on a record without a sampler. *)
Lemma setup_sampler_fresh (RF : RootFinder) (info info' : SpergelInfo) :
  _sampler info = None ->
  setup_sampler info = Ok info' ->
  exists (R_max : double) (radial : FluxDensity) (range : list double),
    calculateFluxRadius info (1 - shoot_accuracy (_gsparams info)) = Ok R_max
    /\ info' = set_sampler info radial
                 (mkOneDimensionalDeviate radial range true (_gsparams info))
    /\ (0 < _nu info ->
        radial = SpergelNuPositiveRadialFunction (_nu info) (_xnorm0 info)
        /\ range = [0; R_max])
    /\ (_nu info <= 0 ->
        exists R_min a b : double,
          calculateFluxRadius info (shoot_accuracy (_gsparams info)) = Ok R_min
          /\ radial = SpergelNuNegativeRadialFunction (_nu info) R_min a b
          /\ range = [0; R_min; R_max]).
Proof.
  intros Hnone. unfold setup_sampler. rewrite Hnone. unfold bind.
  destruct (calculateFluxRadius info (1 - shoot_accuracy (_gsparams info)))
    as [R_max| |]; try discriminate.
  destruct (d_gt (_nu info) 0) eqn:Hnu.
  - apply d_gt_true in Hnu. intros Hok. injection Hok as <-.
    eexists. eexists. eexists. split; [reflexivity|]. split; [reflexivity|].
    split; [intros _; split; reflexivity | intros Hneg; lra].
  - apply d_gt_false in Hnu.
    destruct (calculateFluxRadius info (shoot_accuracy (_gsparams info)))
      as [R_min| |]; try discriminate.
    intros Hok. injection Hok as <-.
    eexists. eexists. eexists. split; [reflexivity|]. split; [reflexivity|].
    split; [intros Hpos; lra|].
    intros _. eexists. eexists. eexists.
    split; [reflexivity|]. split; reflexivity.
Qed.

Lemma setup_sampler_result (RF : RootFinder) (info info' : SpergelInfo) :
  setup_sampler info = Ok info' ->
  exists sampler,
    _sampler info' = Some sampler
    /\ _re info' = _re info /\ _stepk info' = _stepk info
    /\ _maxk info' = _maxk info.
Proof.
  destruct (_sampler info) as [sampler|] eqn:Hs.
  - unfold setup_sampler. rewrite Hs. intros Hok. injection Hok as <-.
    exists sampler. now repeat split.
  - intros Hsetup.
    destruct (setup_sampler_fresh RF info info' Hs Hsetup)
      as (R_max & radial & range & _ & -> & _).
    eexists. repeat split.
Qed.

(** X12. The sampler is built once.  A [shoot] that returns leaves a
    sampler in the record and returns the photons this sampler shoots;
    from then on [shoot] uses this sampler for every count and
    generator, calls no root finder, and leaves the record as it is.
    Installing the sampler changes none of the memoized constants. *)
Theorem sampler_is_built_once (RF1 RF2 : RootFinder) (info info' : SpergelInfo)
  (N : Z) (ud ud' : rng) (result : PhotonArray) :
  @shoot ML RF1 DV SS info N ud = Ok (result, ud', info') ->
  exists sampler : OneDimensionalDeviate,
    _sampler info' = Some sampler
    /\ OneDimensionalDeviate_shoot sampler N ud = (result, ud')
    /\ (forall (N2 : Z) (ud2 : rng),
          @shoot ML RF2 DV SS info' N2 ud2
          = Ok (OneDimensionalDeviate_shoot sampler N2 ud2, info'))
    /\ _re info' = _re info /\ _stepk info' = _stepk info
    /\ _maxk info' = _maxk info.
Proof.
  unfold shoot at 1. unfold bind.
  destruct (@setup_sampler ML RF1 info) as [info1| |] eqn:Hsetup; try discriminate.
  destruct (setup_sampler_result RF1 info info1 Hsetup)
    as (sampler & Hs & Hre & Hstepk & Hmaxk).
  rewrite Hs.
  destruct (OneDimensionalDeviate_shoot sampler N ud) as [pa ud1] eqn:Hshot.
  intros Hok. injection Hok as <- <- <-.
  exists sampler. split; [exact Hs|]. split; [exact Hshot|].
  split; [|now repeat split].
  intros N2 ud2. unfold shoot, bind, setup_sampler. rewrite Hs, Hs.
  now destruct (OneDimensionalDeviate_shoot sampler N2 ud2).
Qed.

(** X13. The sampled density is the profile.  The first [shoot] on a
    record installs a radial sampler over the radii from 0 to the radius
    that encloses all but [shoot_accuracy] of the flux.  For a positive
    index its density is [xValue] of the record at every radius, the
    origin included; for an index that is not positive the range is split
    at the radius [R_min] that encloses [shoot_accuracy] of the flux, and
    the density is [xValue] at every radius beyond [R_min]. *)
Theorem sampled_density_is_the_profile (RF : RootFinder) (info info' : SpergelInfo)
  (N : Z) (ud ud' : rng) (result : PhotonArray) :
  _sampler info = None ->
  shoot info N ud = Ok (result, ud', info') ->
  exists (R_max : double) (radial : FluxDensity) (range : list double),
    calculateFluxRadius info (1 - shoot_accuracy (_gsparams info)) = Ok R_max
    /\ _radial info' = Some radial
    /\ _sampler info'
       = Some (mkOneDimensionalDeviate radial range true (_gsparams info))
    /\ (0 < _nu info ->
        range = [0; R_max]
        /\ forall r, FluxDensity_call radial r = xValue info r)
    /\ (_nu info <= 0 ->
        exists R_min : double,
          calculateFluxRadius info (shoot_accuracy (_gsparams info)) = Ok R_min
          /\ range = [0; R_min; R_max]
          /\ forall r, R_min < r -> r <> 0 ->
               FluxDensity_call radial r = xValue info r).
Proof.
  intros Hnone. unfold shoot, bind.
  destruct (setup_sampler info) as [info1| |] eqn:Hsetup; try discriminate.
  destruct (setup_sampler_fresh RF info info1 Hnone Hsetup)
    as (R_max & radial & range & Hmax & -> & Hpos & Hneg).
  cbn [_sampler set_sampler].
  destruct (OneDimensionalDeviate_shoot _ N ud) as [pa ud1].
  intros Hok. injection Hok as <- <- <-.
  exists R_max, radial, range.
  split; [exact Hmax|]. split; [reflexivity|]. split; [reflexivity|]. split.
  - intros Hnu. destruct (Hpos Hnu) as (-> & ->). split; reflexivity.
  - intros Hnu. destruct (Hneg Hnu) as (R_min & a & b & Hmin & -> & ->).
    exists R_min. split; [exact Hmin|]. split; [reflexivity|].
    intros r Hr Hr0. cbn [FluxDensity_call]. unfold xValue.
    replace (d_le r R_min) with false by (symmetry; now apply d_le_false).
    now replace (d_eq r 0) with false by (symmetry; now apply d_eq_false).
Qed.




End ShootMore.

(** *** The centre of a constructed instance *)

Section ConstructedFills.
Context {ML : MathLib} {SB : SpergelBounds} {RF : RootFinder} {SC : SpergelCache}
        {QF : SBSpergelEval.QuadrantFill}.

(** X19. The value at the centre.  For an instance built on a key new to
    the cache, with a scale radius that is not zero, [xValue] at the
    origin is the normalisation [_xnorm] times
    [Gamma(nu+1) / (2 nu) * 2^nu] when the index is positive.  When the
    index is not positive it is not a finite number: plus infinity for a
    positive normalisation, minus infinity for a negative one, and not a
    number for an instance of flux zero. *)
Theorem xValue_at_centre (nu size : double) (rType : RadiusType) (flux : double)
  (gs : GSParams) (impl : SBSpergelImpl) :
  cache_miss nu gs ->
  SBSpergelImpl_new nu size rType flux gs = Ok impl ->
  getScaleRadius impl <> 0 ->
  (0 < nu ->
   SBSpergelEval.xValue impl (mkPosition 0 0)
   = Fin (_xnorm impl * (tgamma (nu + 1) / (2 * nu) * pow 2 nu)))
  /\ (nu <= 0 -> 0 < _xnorm impl ->
      SBSpergelEval.xValue impl (mkPosition 0 0) = PosInf)
  /\ (nu <= 0 -> _xnorm impl < 0 ->
      SBSpergelEval.xValue impl (mkPosition 0 0) = NegInf)
  /\ (nu <= 0 -> flux = 0 ->
      SBSpergelEval.xValue impl (mkPosition 0 0) = NaN).
Proof.
  intros Hmiss Hnew _.
  destruct (constructed_on_miss _ _ _ _ _ _ Hmiss Hnew) as (_ & _ & _ & _ & Hx0).
  destruct (SBSpergelImpl_new_fields _ _ _ _ _ _ Hnew) as (_ & _ & _ & Hshoot & Hxn).
  assert (Hval : SBSpergelEval.xValue impl (mkPosition 0 0)
                 = mul_ext (_xnorm impl) (_xnorm0 (_info impl))).
  { unfold SBSpergelEval.xValue. cbn [pos_x pos_y].
    replace (sqrt (0 * 0 + 0 * 0) * _inv_r0 impl) with 0
      by (replace (0 * 0 + 0 * 0) with 0 by ring; rewrite sqrt_0; ring).
    now rewrite xValue_origin. }
  rewrite Hval, Hx0. repeat split.
  - intros Hnu. now replace (d_gt nu 0) with true by (symmetry; now apply d_gt_true).
  - intros Hnu Hpos.
    replace (d_gt nu 0) with false by (symmetry; apply d_gt_false; lra).
    cbn [mul_ext].
    now replace (d_gt (_xnorm impl) 0) with true by (symmetry; now apply d_gt_true).
  - intros Hnu Hneg.
    replace (d_gt nu 0) with false by (symmetry; apply d_gt_false; lra).
    cbn [mul_ext].
    replace (d_gt (_xnorm impl) 0) with false by (symmetry; apply d_gt_false; lra).
    now replace (d_lt (_xnorm impl) 0) with true by (symmetry; now apply d_lt_true).
  - intros Hnu Hflux.
    replace (d_gt nu 0) with false by (symmetry; apply d_gt_false; lra).
    assert (Hzero : _xnorm impl = 0).
    { rewrite Hxn, Hshoot, Hflux. unfold Rdiv. ring. }
    rewrite Hzero. cbn [mul_ext].
    replace (d_gt 0 0) with false by (symmetry; apply d_gt_false; lra).
    now replace (d_lt 0 0) with false by (symmetry; apply d_lt_false; lra).
Qed.

End ConstructedFills.

(** *** Runs on the sample data *)

Section SampleRuns.

#[local] Existing Instance Sample.mathlib.
#[local] Existing Instance Sample.bounds.
#[local] Existing Instance Sample.affine_solver.
#[local] Existing Instance Sample.cold_cache.
#[local] Existing Instance Sample.scripted.
#[local] Existing Instance Sample.origin_sampler.
#[local] Existing Instance Sample.no_quadrant.

Lemma sample_miss (nu : double) : cache_miss nu Sample.params.
Proof. reflexivity. Qed.

(** The instances that the constructor returns under the sample library. *)
Lemma sample_build (nu size : double) (rType : RadiusType) (flux : double) :
  -0.85 <= nu <= 4 ->
  exists (impl : SBSpergelImpl) (info : SpergelInfo),
    SBSpergelImpl_new nu size rType flux Sample.params = Ok impl
    /\ SpergelInfo_new nu Sample.params = Ok info
    /\ _info impl = set_re info (8 * 0.5)
    /\ getScaleRadius impl
       = match rType with
         | SCALE_RADIUS => size
         | HALF_LIGHT_RADIUS => size / (8 * 0.5)
         end.
Proof.
  intros Hnu.
  destruct (SpergelInfo_new_valid nu Sample.params) as (info & Hnew); [cbn; lra|].
  destruct (sample_info nu info Hnew) as (_ & _ & _ & Hre & _ & Hflux).
  pose proof (getHLR_fresh info (8 * 0.5) Hre (Hflux _)) as Hhlr.
  unfold SBSpergelImpl_new, bind. cbn [cache_get Sample.cold_cache].
  rewrite Hnew. destruct rType; rewrite Hhlr; cbn [fst snd];
    eexists; exists info; repeat split; exact Hnew.
Qed.

(** The first [shoot] on a record of positive index. *)
Lemma sample_shoot (info : SpergelInfo) (N : Z) (ud : rng) :
  _sampler info = None ->
  0 < _nu info ->
  (forall f, calculateFluxRadius info f = Ok (8 * f)) ->
  exists (raw : PhotonArray) (info' : SpergelInfo),
    shoot info N ud = Ok (raw, ud, info').
Proof.
  intros Hnone Hnu Hflux. unfold shoot, setup_sampler, bind.
  rewrite Hnone, Hflux.
  replace (d_gt (_nu info) 0) with true by (symmetry; now apply d_gt_true).
  cbn [_sampler set_sampler OneDimensionalDeviate_shoot Sample.origin_sampler].
  eexists. eexists. reflexivity.
Qed.

(** An index of 5 is refused, the index 4 with the size zero and a
    negative flux is not. *)
Lemma index_out_of_range_is_thrown_witness :
  SBSpergelImpl_new 5 1 SCALE_RADIUS 1 Sample.params
  = Throw (SBError "Requested Spergel index out of range")
  /\ exists impl, SBSpergelImpl_new 4 0 SCALE_RADIUS (-1) Sample.params = Ok impl.
Proof.
  destruct (index_out_of_range_is_thrown 5 1 SCALE_RADIUS 1 Sample.params
              (sample_miss 5)) as (Hthrow & _).
  destruct (index_out_of_range_is_thrown 4 0 SCALE_RADIUS (-1) Sample.params
              (sample_miss 4)) as (_ & _ & Hok).
  split.
  - apply Hthrow. right. cbn. lra.
  - destruct (SpergelInfo_new_valid 4 Sample.params) as (info & Hinfo); [cbn; lra|].
    destruct (sample_info 4 info Hinfo) as (_ & _ & _ & _ & _ & Hflux).
    apply (Hok ltac:(cbn; lra) info (8 * 0.5) Hinfo). apply Hflux.
Defined.

(** The half-light radius and [stepK] of the index 0.5, computed with the
    sample solver, under a solver that fails. *)
Lemma derived_constants_are_memoized_witness :
  exists info3 : SpergelInfo,
    @getHLR Sample.mathlib Sample.failing_solver info3 = Ok (8 * 0.5, info3)
    /\ @stepK Sample.mathlib Sample.failing_solver info3
       = Ok (M_PI / (8 * (1 - 0.005)), info3).
Proof.
  destruct (SpergelInfo_new_valid 0.5 Sample.params) as (info & Hnew); [cbn; lra|].
  destruct (sample_info 0.5 info Hnew) as (_ & Hgs & Hstepk & Hre & _ & Hflux).
  pose proof (getHLR_fresh info (8 * 0.5) Hre (Hflux _)) as Hhlr.
  assert (Hstep : stepK (set_re info (8 * 0.5))
                  = Ok (M_PI / (8 * (1 - 0.005)),
                        set_stepk (set_re info (8 * 0.5))
                          (M_PI / (8 * (1 - 0.005))))).
  { rewrite (stepK_fresh (set_re info (8 * 0.5)) (8 * (1 - 0.005))).
    - cbn [_gsparams set_re]. rewrite Hgs. cbn [stepk_minimum_hlr Sample.params].
      rewrite std_max_left by lra. reflexivity.
    - exact Hstepk.
    - rewrite calculateFluxRadius_set_re. cbn [_gsparams set_re]. rewrite Hgs.
      apply Hflux. }
  assert (Hk : M_PI / (8 * (1 - 0.005)) <> 0).
  { assert (0 < M_PI / (8 * (1 - 0.005)))
      by (apply Rdiv_lt_0_compat; [apply PI_RGT_0 | lra]).
    lra. }
  destruct (derived_constants_are_memoized Sample.affine_solver
              Sample.failing_solver info _ _ _ _ Hhlr Hstep) as (H1 & H2 & _);
    [lra | exact Hk |].
  eexists. split; [exact H1 | exact H2].
Defined.

(** Two shots from the record of the index 0.5, the second under a solver
    that fails. *)
Lemma sampler_is_built_once_witness :
  exists (info info' : SpergelInfo) (sampler : OneDimensionalDeviate)
         (result : PhotonArray),
    SpergelInfo_new 0.5 Sample.params = Ok info
    /\ shoot info 10 [] = Ok (result, [], info')
    /\ @shoot Sample.mathlib Sample.failing_solver Sample.scripted
         Sample.origin_sampler info' 5 []
       = Ok (OneDimensionalDeviate_shoot sampler 5 [], info').
Proof.
  destruct (SpergelInfo_new_valid 0.5 Sample.params) as (info & Hnew); [cbn; lra|].
  destruct (sample_info 0.5 info Hnew) as (Hnu & _ & _ & _ & Hnone & Hflux).
  destruct (sample_shoot info 10 [] Hnone) as (raw & info' & Hshoot);
    [rewrite Hnu; lra | exact Hflux |].
  destruct (sampler_is_built_once (DV := Sample.scripted)
              (SS := Sample.origin_sampler) Sample.affine_solver Sample.failing_solver
              info info' 10 [] [] raw Hshoot) as (sampler & _ & _ & Hagain & _).
  exists info, info', sampler, raw.
  split; [exact Hnew|]. split; [exact Hshoot | apply Hagain].
Defined.

(** The density sampled for the index 0.5. *)
Lemma sampled_density_is_the_profile_witness :
  exists (info info' : SpergelInfo) (radial : FluxDensity) (result : PhotonArray),
    SpergelInfo_new 0.5 Sample.params = Ok info
    /\ shoot info 10 [] = Ok (result, [], info')
    /\ _radial info' = Some radial
    /\ forall r, FluxDensity_call radial r = xValue info r.
Proof.
  destruct (SpergelInfo_new_valid 0.5 Sample.params) as (info & Hnew); [cbn; lra|].
  destruct (sample_info 0.5 info Hnew) as (Hnu & _ & _ & _ & Hnone & Hflux).
  destruct (sample_shoot info 10 [] Hnone) as (raw & info' & Hshoot);
    [rewrite Hnu; lra | exact Hflux |].
  destruct (sampled_density_is_the_profile (DV := Sample.scripted)
              (SS := Sample.origin_sampler) Sample.affine_solver info info' 10 [] []
              raw Hnone Hshoot) as (R_max & radial & range & _ & Hradial & _ & Hpos & _).
  destruct Hpos as (_ & Hsame); [rewrite Hnu; lra|].
  exists info, info', radial, raw.
  split; [exact Hnew|]. split; [exact Hshoot|]. split; [exact Hradial | exact Hsame].
Defined.


Lemma sample_in_image {T : Type} (blank : T) :
  in_image (Sample.image blank) 2 1.
Proof. split; cbn; lia. Qed.

Lemma sample_gap {T : Type} (blank : T) (i j : nat) :
  in_image (Sample.image blank) i j -> 3%Z <> pixel_offset (Sample.image blank) i j.
Proof.
  intros [Hi Hj]. unfold pixel_offset. cbn in *.
  assert (j = 0 \/ j = 1)%nat as [-> | ->] by lia; lia.
Qed.

Lemma sample_beyond {T : Type} (blank : T) (i j : nat) :
  in_image (Sample.image blank) i j -> 6%Z <> packed_offset (Sample.image blank) i j.
Proof.
  intros [Hi Hj]. unfold packed_offset. cbn in *.
  assert (j = 0 \/ j = 1)%nat as [-> | ->] by lia; lia.
Qed.

(** A fill of the sample image, of three columns and two rows that lie
    four apart: the last pixel, at offset 6, and the gap at offset 3. *)
Lemma fillXImage_lattice_witness :
  exists (impl : SBSpergelImpl) (mem : Z -> double_ext),
    SBSpergelImpl_new 0.5 3 SCALE_RADIUS 1 Sample.params = Ok impl
    /\ SBSpergelEval.fillXImage impl (Sample.image NaN) 0 1 0 0 1 0 = Ok mem
    /\ mem 6%Z
       = mul_ext (_xnorm impl)
           (SBSpergel.xValue (_info impl)
              (sqrt (stepped (0 * _inv_r0 impl) (1 * _inv_r0 impl) 2
                     * stepped (0 * _inv_r0 impl) (1 * _inv_r0 impl) 2
                     + stepped (0 * _inv_r0 impl) (1 * _inv_r0 impl) 1
                       * stepped (0 * _inv_r0 impl) (1 * _inv_r0 impl) 1)))
    /\ mem 3%Z = NaN.
Proof.
  destruct (sample_build 0.5 3 SCALE_RADIUS 1) as (impl & info & Himpl & _);
    [lra|].
  destruct (fillXImage_lattice impl (Sample.image NaN) 0 1 0 1)
    as (mem & Hok & Hat & Hframe); [reflexivity | cbn; lia |].
  exists impl, mem. split; [exact Himpl|]. split; [exact Hok|]. split.
  - exact (Hat 2%nat 1%nat (sample_in_image NaN)).
  - exact (Hframe 3%Z (sample_gap NaN)).
Defined.

Lemma fillXImage_sheared_lattice_witness :
  exists (impl : SBSpergelImpl) (mem : Z -> double_ext),
    SBSpergelImpl_new 0.5 3 SCALE_RADIUS 1 Sample.params = Ok impl
    /\ SBSpergelEval.fillXImage_sheared impl (Sample.image NaN) 0 1 2 0 1 3 = Ok mem
    /\ mem 6%Z
       = mul_ext (_xnorm impl)
           (SBSpergel.xValue (_info impl)
              (sqrt (stepped (stepped (0 * _inv_r0 impl) (2 * _inv_r0 impl) 1)
                       (1 * _inv_r0 impl) 2
                     * stepped (stepped (0 * _inv_r0 impl) (2 * _inv_r0 impl) 1)
                         (1 * _inv_r0 impl) 2
                     + stepped (stepped (0 * _inv_r0 impl) (1 * _inv_r0 impl) 1)
                         (3 * _inv_r0 impl) 2
                       * stepped (stepped (0 * _inv_r0 impl) (1 * _inv_r0 impl) 1)
                           (3 * _inv_r0 impl) 2)))
    /\ mem 3%Z = NaN.
Proof.
  destruct (sample_build 0.5 3 SCALE_RADIUS 1) as (impl & info & Himpl & _);
    [lra|].
  destruct (fillXImage_sheared_lattice impl (Sample.image NaN) 0 1 2 0 1 3)
    as (mem & Hok & Hat & Hframe); [reflexivity | cbn; lia |].
  exists impl, mem. split; [exact Himpl|]. split; [exact Hok|]. split.
  - exact (Hat 2%nat 1%nat (sample_in_image NaN)).
  - exact (Hframe 3%Z (sample_gap NaN)).
Defined.

Lemma fillKImage_lattice_witness :
  exists (impl : SBSpergelImpl) (mem : Z -> complex),
    SBSpergelImpl_new 0.5 3 SCALE_RADIUS 1 Sample.params = Ok impl
    /\ SBSpergelEval.fillKImage impl (Sample.image (mkComplex 0 0)) 0 1 0 0 1 0
       = Ok mem
    /\ mem 6%Z
       = complex_of
           (impl_flux impl
            * SBSpergel.kValue (_info impl)
                (stepped (0 * _r0 impl) (1 * _r0 impl) 2
                 * stepped (0 * _r0 impl) (1 * _r0 impl) 2
                 + stepped (0 * _r0 impl) (1 * _r0 impl) 1
                   * stepped (0 * _r0 impl) (1 * _r0 impl) 1))
    /\ mem 3%Z = mkComplex 0 0.
Proof.
  destruct (sample_build 0.5 3 SCALE_RADIUS 1) as (impl & info & Himpl & _);
    [lra|].
  destruct (fillKImage_lattice impl (Sample.image (mkComplex 0 0)) 0 1 0 1)
    as (mem & Hok & Hat & Hframe); [reflexivity | cbn; lia |].
  exists impl, mem. split; [exact Himpl|]. split; [exact Hok|]. split.
  - exact (Hat 2%nat 1%nat (sample_in_image _)).
  - exact (Hframe 3%Z (sample_gap _)).
Defined.

(** The sheared fill of the sample image, whose rows lie four apart: the
    value of the last pixel is stored at offset 5, and offset 6, where
    the pixel lies, is left as it was. *)
Lemma fillKImage_sheared_ignores_skip_witness :
  exists (impl : SBSpergelImpl) (mem : Z -> complex),
    SBSpergelImpl_new 0.5 3 SCALE_RADIUS 1 Sample.params = Ok impl
    /\ SBSpergelEval.fillKImage_sheared impl (Sample.image (mkComplex 0 0))
         0 1 2 0 1 3 = Ok mem
    /\ pixel_offset (Sample.image (mkComplex 0 0)) 2 1 = 6%Z
    /\ mem 5%Z
       = complex_of
           (impl_flux impl
            * SBSpergel.kValue (_info impl)
                (stepped (stepped (0 * _r0 impl) (2 * _r0 impl) 1) (1 * _r0 impl) 2
                 * stepped (stepped (0 * _r0 impl) (2 * _r0 impl) 1) (1 * _r0 impl) 2
                 + stepped (stepped (0 * _r0 impl) (1 * _r0 impl) 1) (3 * _r0 impl) 2
                   * stepped (stepped (0 * _r0 impl) (1 * _r0 impl) 1)
                       (3 * _r0 impl) 2))
    /\ mem 6%Z = mkComplex 0 0.
Proof.
  destruct (sample_build 0.5 3 SCALE_RADIUS 1) as (impl & info & Himpl & _);
    [lra|].
  destruct (fillKImage_sheared_ignores_skip impl
              (Sample.image (mkComplex 0 0)) 0 1 2 0 1 3)
    as (mem & Hok & Hat & Hframe & _); [reflexivity|].
  exists impl, mem. split; [exact Himpl|]. split; [exact Hok|].
  split; [reflexivity|]. split.
  - exact (Hat 2%nat 1%nat (sample_in_image _)).
  - exact (Hframe 6%Z (sample_beyond _)).
Defined.

(** The centre of an instance of index -0.5 without flux, and of one of
    index 0.5. *)
Lemma xValue_at_centre_witness :
  (exists impl : SBSpergelImpl,
     SBSpergelImpl_new (-0.5) 3 SCALE_RADIUS 0 Sample.params = Ok impl
     /\ SBSpergelEval.xValue impl (mkPosition 0 0) = NaN)
  /\ (exists impl : SBSpergelImpl,
        SBSpergelImpl_new 0.5 3 SCALE_RADIUS 1 Sample.params = Ok impl
        /\ SBSpergelEval.xValue impl (mkPosition 0 0)
           = Fin (_xnorm impl * (1 / (2 * 0.5) * 1))).
Proof.
  split.
  - destruct (sample_build (-0.5) 3 SCALE_RADIUS 0)
      as (impl & info & Himpl & _ & _ & Hr0); [lra|].
    destruct (xValue_at_centre _ _ _ _ _ impl (sample_miss _) Himpl)
      as (_ & _ & _ & Hnan); [rewrite Hr0; lra|].
    exists impl. split; [exact Himpl|]. apply Hnan; [lra | reflexivity].
  - destruct (sample_build 0.5 3 SCALE_RADIUS 1)
      as (impl & info & Himpl & _ & _ & Hr0); [lra|].
    destruct (xValue_at_centre _ _ _ _ _ impl (sample_miss _) Himpl)
      as (Hfin & _); [rewrite Hr0; lra|].
    exists impl. split; [exact Himpl|]. apply Hfin. lra.
Defined.

End SampleRuns.

End SBSpergelMore.

(** * Composites of Spergel profiles and delta functions *)

Module SBMixedFacts.

Import SBAdd SBAddFacts.

Lemma sum_of_zero (f : SBProfile -> double) (l : list SBProfile) :
  (forall p, In p l -> f p = 0) -> sum_of f l = 0.
Proof.
  intros Hz. rewrite (SBAddMore.sum_of_ext f (fun _ => 0) l Hz).
  induction l as [|p l IH]; [reflexivity|].
  change (p :: l) with ([p] ++ l). rewrite SBAddMore.sum_of_app, IH.
  - unfold sum_of. simpl. lra.
  - intros q Hq. apply Hz. now right.
Qed.

(** X20. Composites of Spergel profiles and delta functions.  A composite
    built from a list of Spergel profiles and delta functions is
    axisymmetric and analytic in real and in Fourier space; it has hard
    edges exactly when a delta function is in the list; its
    flux-weighted centroid sums are zero, so that its centroid is the
    origin when its flux is not zero. *)
Theorem composite_of_spergels_and_deltas (slist : list SBProfile)
  (gs : GSParamsPtr) (sba : SBAddImpl) :
  (forall p, In p slist -> is_spergel p \/ is_delta p) ->
  SBAddImpl_new slist gs = Ok sba ->
  isAxisymmetric (Add sba) = true
  /\ isAnalyticX (Add sba) = true
  /\ isAnalyticK (Add sba) = true
  /\ (hasHardEdges (Add sba) = true <-> exists p, In p slist /\ is_delta p)
  /\ _sumfx sba = 0 /\ _sumfy sba = 0
  /\ (getFlux (Add sba) <> 0 -> centroid (Add sba) = mkPosition 0 0).
Proof.
  intros Hkind Hnew.
  assert (Hflat : flat_map summands slist = slist).
  { clear Hnew. induction slist as [|p l IH]; [reflexivity|].
    cbn [flat_map]. rewrite IH by (intros q Hq; apply Hkind; now right).
    destruct (Hkind p (or_introl eq_refl))
      as [(i & a & b & c & d & ->)|(i & a & b & c & d & ->)]; reflexivity. }
  apply SBAddImpl_new_inv in Hnew. destruct Hnew as (gs' & ->).
  rewrite Hflat.
  destruct (SBAddMore.initialize_flags gs' slist) as (Hax & Hx & Hk & Hhard).
  destruct (SBAddMore.initialize_sums gs' slist) as (_ & Hfx & Hfy).
  assert (Hzx : _sumfx (initialize gs' slist) = 0).
  { rewrite Hfx. apply sum_of_zero. intros p Hp.
    destruct (Hkind p Hp)
      as [(i & a & b & c & d & ->)|(i & a & b & c & d & ->)]; cbn; ring. }
  assert (Hzy : _sumfy (initialize gs' slist) = 0).
  { rewrite Hfy. apply sum_of_zero. intros p Hp.
    destruct (Hkind p Hp)
      as [(i & a & b & c & d & ->)|(i & a & b & c & d & ->)]; cbn; ring. }
  cbn [isAxisymmetric isAnalyticX isAnalyticK hasHardEdges getFlux centroid].
  unfold SBAddImpl_isAxisymmetric, SBAddImpl_isAnalyticX, SBAddImpl_isAnalyticK,
    SBAddImpl_hasHardEdges, SBAddImpl_centroid, SBAddImpl_getFlux.
  rewrite Hax, Hx, Hk, Hhard, Hzx, Hzy.
  split; [|split; [|split; [|split; [|split; [reflexivity|split; [reflexivity|]]]]]].
  - apply forallb_forall. intros p Hp.
    destruct (Hkind p Hp)
      as [(i & a & b & c & d & ->)|(i & a & b & c & d & ->)]; reflexivity.
  - apply forallb_forall. intros p Hp.
    destruct (Hkind p Hp)
      as [(i & a & b & c & d & ->)|(i & a & b & c & d & ->)]; reflexivity.
  - apply forallb_forall. intros p Hp.
    destruct (Hkind p Hp)
      as [(i & a & b & c & d & ->)|(i & a & b & c & d & ->)]; reflexivity.
  - rewrite existsb_exists. split.
    + intros (p & Hp & Hedge). exists p. split; [exact Hp|].
      destruct (Hkind p Hp) as [(i & a & b & c & d & ->)|Hdelta];
        [discriminate | exact Hdelta].
    + intros (p & Hp & (i & a & b & c & d & ->)). eexists. split; [exact Hp|].
      reflexivity.
  - intros Hflux. unfold Rdiv. now rewrite !Rmult_0_l.
Qed.

(** A Spergel profile of index 0.5 and a delta function. *)
Lemma composite_of_spergels_and_deltas_witness :
  exists (impl : SBSpergel.SBSpergelImpl) (sba : SBAddImpl),
    @SBSpergel.SBSpergelImpl_new Sample.mathlib Sample.affine_solver
      Sample.cold_cache 0.5 3 SBSpergel.SCALE_RADIUS 2 Sample.params = Ok impl
    /\ SBAddImpl_new
         [SBSpergel_handle impl 10 1 2 0;
          SBDeltaFunction_handle
            (SBDeltaFunction.mkSBDeltaFunctionImpl (Some Sample.params) 1) 20 2 1 0]
         None = Ok sba
    /\ isAxisymmetric (Add sba) = true
    /\ hasHardEdges (Add sba) = true
    /\ _sumfx sba = 0.
Proof.
  destruct (SBSpergelMore.sample_build 0.5 3 SBSpergel.SCALE_RADIUS 2)
    as (impl & _ & Himpl & _); [lra|].
  destruct (SBAddImpl_new_cons (SBSpergel_handle impl 10 1 2 0)
              [SBDeltaFunction_handle
                 (SBDeltaFunction.mkSBDeltaFunctionImpl (Some Sample.params) 1)
                 20 2 1 0] None) as (sba & Hnew).
  assert (Hkind : forall p,
            In p [SBSpergel_handle impl 10 1 2 0;
                  SBDeltaFunction_handle
                    (SBDeltaFunction.mkSBDeltaFunctionImpl (Some Sample.params) 1)
                    20 2 1 0] ->
            is_spergel p \/ is_delta p).
  { intros p [<-|[<-|[]]].
    - left. now exists impl, 10, 1, 2, 0.
    - right. eexists. now exists 20, 2, 1, 0. }
  destruct (composite_of_spergels_and_deltas _ None sba Hkind Hnew)
    as (Hax & _ & _ & Hhard & Hfx & _).
  exists impl, sba. split; [exact Himpl|]. split; [exact Hnew|].
  split; [exact Hax|]. split; [|exact Hfx].
  apply Hhard. eexists. split; [right; left; reflexivity|].
  eexists. now exists 20, 2, 1, 0.
Defined.

End SBMixedFacts.
